(** * checron: crontab job lines and schedule fields

    A shallow embedding of [job.go] (package checron) and
    [scheduleentity.go] (package crontabparser), together with the part of
    the Go standard library these two files call, and the properties of the
    job tokenizer and of the schedule-field expander proved about them.

    Go strings are byte sequences: a [gostring] is a [list ascii].  Where
    the library decodes UTF-8 (a [range] loop, [strings.TrimSpace],
    [strings.ToLower]) the model decodes the bytes the same way. *)

From Stdlib Require Import ZArith List Ascii String Lia Bool Sorted.
From stdpp Require Import gmap strings.
Import ListNotations.

Open Scope Z_scope.

(** ** The Go standard library, as far as the sources use it *)

Module Go.

Definition gostring := list ascii.

(** A string literal of the sources. *)
Definition str (s : string) : gostring := list_ascii_of_string s.

Definition byteval (c : ascii) : Z := Z.of_N (N_of_ascii c).
Definition byteof (v : Z) : ascii := ascii_of_N (Z.to_N v).

(** What a call does: it returns, or the goroutine panics. *)
Inductive outcome (A : Type) : Type :=
| Returns (a : A)
| Panics (msg : gostring).
Arguments Returns {A} a.
Arguments Panics {A} msg.

Definition obind {A B} (o : outcome A) (f : A -> outcome B) : outcome B :=
  match o with
  | Returns a => f a
  | Panics m => Panics m
  end.

(** An [error] built by [fmt.Errorf]: the format and its operands.  The
    operands are kept as they are passed, the text is not rendered. *)
Inductive fmtArg : Type :=
| ArgString (s : gostring)
| ArgInt (z : Z)
| ArgError (e : error)
with error : Type :=
| Errorf (format : gostring) (args : list fmtArg).

(** *** unicode/utf8 *)

Definition RuneError : Z := 0xFFFD.
Definition RuneSelf : Z := 0x80.
Definition MaxRune : Z := 0x10FFFF.

(** The table [first] of package utf8 for a lead byte at or above
    [RuneSelf]: the length of the sequence and the accepted range of its
    second byte; [None] for the bytes that start no sequence. *)
Definition leadInfo (s0 : Z) : option (nat * Z * Z) :=
  if s0 <? 0xC2 then None
  else if s0 <=? 0xDF then Some (2%nat, 0x80, 0xBF)
  else if s0 =? 0xE0 then Some (3%nat, 0xA0, 0xBF)
  else if s0 <=? 0xEC then Some (3%nat, 0x80, 0xBF)
  else if s0 =? 0xED then Some (3%nat, 0x80, 0x9F)
  else if s0 <=? 0xEF then Some (3%nat, 0x80, 0xBF)
  else if s0 =? 0xF0 then Some (4%nat, 0x90, 0xBF)
  else if s0 <=? 0xF3 then Some (4%nat, 0x80, 0xBF)
  else if s0 =? 0xF4 then Some (4%nat, 0x80, 0x8F)
  else None.

Definition contByte (b : Z) : bool := (0x80 <=? b) && (b <=? 0xBF).

(** [utf8.DecodeRuneInString]: the first rune of [s] and its width in
    bytes; [(RuneError, 1)] on an invalid or truncated sequence. *)
Definition DecodeRuneInString (s : gostring) : Z * nat :=
  match s with
  | [] => (RuneError, 0%nat)
  | c0 :: t =>
    let s0 := byteval c0 in
    if s0 <? RuneSelf then (s0, 1%nat)
    else
      match leadInfo s0 with
      | None => (RuneError, 1%nat)
      | Some (sz, lo, hi) =>
        if (length s <? sz)%nat then (RuneError, 1%nat)
        else
          match t with
          | [] => (RuneError, 1%nat)
          | c1 :: t1 =>
            let s1 := byteval c1 in
            if (s1 <? lo) || (hi <? s1) then (RuneError, 1%nat)
            else if (sz <=? 2)%nat then
              (Z.lor (Z.shiftl (Z.land s0 0x1F) 6) (Z.land s1 0x3F), 2%nat)
            else
              match t1 with
              | [] => (RuneError, 1%nat)
              | c2 :: t2 =>
                let s2 := byteval c2 in
                if negb (contByte s2) then (RuneError, 1%nat)
                else if (sz <=? 3)%nat then
                  (Z.lor (Z.lor (Z.shiftl (Z.land s0 0x0F) 12)
                                (Z.shiftl (Z.land s1 0x3F) 6))
                         (Z.land s2 0x3F), 3%nat)
                else
                  match t2 with
                  | [] => (RuneError, 1%nat)
                  | c3 :: _ =>
                    let s3 := byteval c3 in
                    if negb (contByte s3) then (RuneError, 1%nat)
                    else
                      (Z.lor (Z.lor (Z.lor (Z.shiftl (Z.land s0 0x07) 18)
                                           (Z.shiftl (Z.land s1 0x3F) 12))
                                    (Z.shiftl (Z.land s2 0x3F) 6))
                             (Z.land s3 0x3F), 4%nat)
                  end
              end
          end
      end
  end.

Definition enc3 (r : Z) : gostring :=
  [byteof (Z.lor 0xE0 (Z.shiftr r 12));
   byteof (Z.lor 0x80 (Z.land (Z.shiftr r 6) 0x3F));
   byteof (Z.lor 0x80 (Z.land r 0x3F))].

(** [utf8.AppendRune] on an empty buffer, which is also [string(r)] and
    what [bytes.Buffer.WriteRune] appends: a rune that is negative, above
    [MaxRune] or a surrogate is written as [RuneError]. *)
Definition EncodeRune (r : Z) : gostring :=
  if (0 <=? r) && (r <=? 0x7F) then [byteof r]
  else if (0 <=? r) && (r <=? 0x7FF) then
    [byteof (Z.lor 0xC0 (Z.shiftr r 6));
     byteof (Z.lor 0x80 (Z.land r 0x3F))]
  else if (r <? 0) || (MaxRune <? r) || ((0xD800 <=? r) && (r <=? 0xDFFF))
  then enc3 RuneError
  else if r <=? 0xFFFF then enc3 r
  else
    [byteof (Z.lor 0xF0 (Z.shiftr r 18));
     byteof (Z.lor 0x80 (Z.land (Z.shiftr r 12) 0x3F));
     byteof (Z.lor 0x80 (Z.land (Z.shiftr r 6) 0x3F));
     byteof (Z.lor 0x80 (Z.land r 0x3F))].

(** [utf8.RuneStart]: the byte is not a continuation byte. *)
Definition RuneStart (b : Z) : bool := negb (Z.land b 0xC0 =? 0x80).

(** The backward scan of [utf8.DecodeLastRuneInString]: from index
    [start] down to [lim], stop at the first byte that can start a rune.
    The result is the index reached, [-1] when the scan runs off the
    front. *)
Fixpoint scanRuneStart (fuel : nat) (s : gostring) (start lim : Z) : Z :=
  match fuel with
  | O => start
  | S fuel' =>
    if start <? lim then start
    else if RuneStart (byteval (nth (Z.to_nat start) s "000"%char)) then start
    else scanRuneStart fuel' s (start - 1) lim
  end.

(** [utf8.DecodeLastRuneInString]. *)
Definition DecodeLastRuneInString (s : gostring) : Z * nat :=
  let e := Z.of_nat (length s) in
  if e =? 0 then (RuneError, 0%nat)
  else
    let r := byteval (nth (Z.to_nat (e - 1)) s "000"%char) in
    if r <? RuneSelf then (r, 1%nat)
    else
      let lim := Z.max 0 (e - 4) in
      let start := Z.max 0 (scanRuneStart 4 s (e - 2) lim) in
      let '(r, size) := DecodeRuneInString (skipn (Z.to_nat start) s) in
      if start + Z.of_nat size =? e then (r, size) else (RuneError, 1%nat).

(** *** unicode *)

(** [unicode.IsSpace]: the Latin-1 spaces and the White_Space ranges
    above Latin-1. *)
Definition IsSpace (r : Z) : bool :=
  if (0 <=? r) && (r <=? 0xFF) then
    ((0x09 <=? r) && (r <=? 0x0D)) || (r =? 0x20) || (r =? 0x85) || (r =? 0xA0)
  else
    (r =? 0x1680) || ((0x2000 <=? r) && (r <=? 0x200A))
    || (r =? 0x2028) || (r =? 0x2029) || (r =? 0x202F)
    || (r =? 0x205F) || (r =? 0x3000).

(** *** strings *)

(** [strings.TrimLeftFunc s unicode.IsSpace]: [pending] counts the bytes
    of the rune being skipped that are still to be dropped. *)
Fixpoint trimLeftSpace (pending : nat) (s : gostring) : gostring :=
  match s with
  | [] => []
  | _ :: s' =>
    match pending with
    | S p => trimLeftSpace p s'
    | O =>
      let '(r, w) := DecodeRuneInString s in
      if IsSpace r then trimLeftSpace (w - 1) s' else s
    end
  end.

(** [lastIndexFunc s unicode.IsSpace false] of package strings: the
    index of the last rune, decoded from the end, that is not a space;
    [-1] when there is none. *)
Fixpoint lastIndexNonSpace (fuel : nat) (s : gostring) (i : Z) : Z :=
  match fuel with
  | O => -1
  | S fuel' =>
    if i <=? 0 then -1
    else
      let '(r, size) := DecodeLastRuneInString (firstn (Z.to_nat i) s) in
      let i' := i - Z.of_nat size in
      if negb (IsSpace r) then i' else lastIndexNonSpace fuel' s i'
  end.

(** [strings.TrimRightFunc s unicode.IsSpace]. *)
Definition trimRightSpace (s : gostring) : gostring :=
  let i := lastIndexNonSpace (length s) s (Z.of_nat (length s)) in
  let i' :=
    if (0 <=? i) && (RuneSelf <=? byteval (nth (Z.to_nat i) s "000"%char))
    then i + Z.of_nat (snd (DecodeRuneInString (skipn (Z.to_nat i) s)))
    else i + 1 in
  firstn (Z.to_nat i') s.

(** [strings.TrimSpace].  Its fast path for ASCII bytes drops the same
    bytes as [TrimFunc s unicode.IsSpace], which is what is modelled. *)
Definition TrimSpace (s : gostring) : gostring :=
  trimRightSpace (trimLeftSpace 0 s).

(** [unicode.ToLower]: ASCII letters are handled in the function itself;
    above [MaxASCII] it consults the case tables of the Go release, which
    are taken as the parameter [caseTable]. *)
Definition unicodeToLower (caseTable : Z -> Z) (r : Z) : Z :=
  if r <=? 0x7F then
    if (0x41 <=? r) && (r <=? 0x5A) then r + 0x20 else r
  else caseTable r.

(** [strings.Map mapping s]: every rune of [s] is decoded, mapped and
    written back; a negative result drops the rune, and an invalid byte
    decodes to [RuneError]. *)
Fixpoint Map (mapping : Z -> Z) (pending : nat) (s : gostring) : gostring :=
  match s with
  | [] => []
  | _ :: s' =>
    match pending with
    | S p => Map mapping p s'
    | O =>
      let '(c, w) := DecodeRuneInString s in
      let r := mapping c in
      (if 0 <=? r then EncodeRune r else []) ++ Map mapping (w - 1) s'
    end
  end.

(** [strings.ToLower].  On a string of ASCII bytes its fast path gives
    the same bytes as [Map unicode.ToLower]. *)
Definition ToLower (caseTable : Z -> Z) (s : gostring) : gostring :=
  Map (unicodeToLower caseTable) 0 s.

Fixpoint hasPrefix (s prefix : gostring) : bool :=
  match prefix, s with
  | [], _ => true
  | p :: prefix', c :: s' => Ascii.eqb p c && hasPrefix s' prefix'
  | _ :: _, [] => false
  end.

(** [strings.Replace s old new (-1)] for a non-empty [old]: the
    non-overlapping occurrences of [old] are replaced from left to right.
    [skip] counts the bytes of the occurrence just replaced that are still
    to be passed over. *)
Fixpoint replaceFrom (old new : gostring) (skip : nat) (s : gostring) : gostring :=
  match s with
  | [] => []
  | c :: s' =>
    match skip with
    | S k => replaceFrom old new k s'
    | O =>
      if hasPrefix s old then new ++ replaceFrom old new (length old - 1) s'
      else c :: replaceFrom old new 0 s'
    end
  end.

(** [strings.Replace s "" new (-1)] after the first insertion: [new] is
    written after every rune of [s], an invalid byte counting as a rune.
    [pending] counts the bytes of the current rune that are still to be
    copied. *)
Fixpoint insertAfterRunes (new : gostring) (pending : nat) (s : gostring) : gostring :=
  match s with
  | [] => []
  | c :: s' =>
    let left := match pending with
                | O => (snd (DecodeRuneInString s) - 1)%nat
                | S p => p
                end in
    match left with
    | O => c :: new ++ insertAfterRunes new 0 s'
    | S _ => c :: insertAfterRunes new left s'
    end
  end.

(** [strings.Replace s old new (-1)].  An empty [old] matches at the
    start of the text and after every rune. *)
Definition Replace (s old new : gostring) : gostring :=
  match old with
  | [] => new ++ insertAfterRunes new 0 s
  | _ => replaceFrom old new 0 s
  end.

(** Splitting at a one-byte separator, with at most [limit] cuts. *)
Fixpoint splitOn (sep : ascii) (limit : nat) (cur s : gostring) : list gostring :=
  match s with
  | [] => [cur]
  | c :: s' =>
    match limit with
    | S limit' =>
      if Ascii.eqb c sep then cur :: splitOn sep limit' [] s'
      else splitOn sep limit (cur ++ [c]) s'
    | O => splitOn sep limit (cur ++ [c]) s'
    end
  end.

(** [strings.Split s sep] for a one-byte [sep]. *)
Definition Split (s : gostring) (sep : ascii) : list gostring :=
  splitOn sep (length s) [] s.

(** [strings.SplitN s sep n] for a one-byte [sep]: at most [n] pieces
    when [n] is positive, none when it is zero, all when negative. *)
Definition SplitN (s : gostring) (sep : ascii) (n : Z) : list gostring :=
  if n =? 0 then []
  else if n <? 0 then Split s sep
  else splitOn sep (Z.to_nat (n - 1)) [] s.

(** *** strconv *)

Inductive NumError : Type := ErrSyntax | ErrRange.

Definition isDigit (c : ascii) : bool :=
  (0x30 <=? byteval c) && (byteval c <=? 0x39).

Definition maxUint64 : Z := 2 ^ 64 - 1.

(** The digit loop of [strconv.ParseUint s 10 64]: [n] is the value read
    so far. *)
Fixpoint parseDigits (n : Z) (s : gostring) : Z * option NumError :=
  match s with
  | [] => (n, None)
  | c :: s' =>
    if negb (isDigit c) then (0, Some ErrSyntax)
    else if maxUint64 / 10 + 1 <=? n then (maxUint64, Some ErrRange)
    else
      let n1 := n * 10 + (byteval c - 0x30) in
      if maxUint64 <? n1 then (maxUint64, Some ErrRange)
      else parseDigits n1 s'
  end.

(** [strconv.ParseUint s 10 64]: decimal digits only, no sign and, the
    base being given, no underscores. *)
Definition ParseUint (s : gostring) : Z * option NumError :=
  match s with
  | [] => (0, Some ErrSyntax)
  | _ => parseDigits 0 s
  end.

(** [strconv.ParseInt s 10 64]. *)
Definition ParseInt (s : gostring) : Z * option NumError :=
  match s with
  | [] => (0, Some ErrSyntax)
  | c :: s' =>
    let neg := Ascii.eqb c "-" in
    let body := if Ascii.eqb c "+" || neg then s' else s in
    match ParseUint body with
    | (_, Some ErrSyntax) => (0, Some ErrSyntax)
    | (un, _) =>
      let cutoff := 2 ^ 63 in
      if negb neg && (cutoff <=? un) then (cutoff - 1, Some ErrRange)
      else if neg && (cutoff <? un) then (- cutoff, Some ErrRange)
      else (if neg then - un else un, None)
    end
  end.

(** The conversion [int(n)] of a [uint64] on a 64-bit platform. *)
Definition intOfUint64 (n : Z) : Z :=
  if n <? 2 ^ 63 then n else n - 2 ^ 64.

(** *** fmt *)

Fixpoint digitsOf (fuel : nat) (n : Z) (acc : gostring) : gostring :=
  match fuel with
  | O => acc
  | S fuel' =>
    let acc' := byteof (0x30 + n mod 10) :: acc in
    if n <? 10 then acc' else digitsOf fuel' (n / 10) acc'
  end.

(** [fmt.Sprintf "%d" i] for an index [i], which is not negative. *)
Definition Sprintf_d (i : nat) : gostring :=
  digitsOf (S i) (Z.of_nat i) [].

(** *** sort *)

Fixpoint insertSorted (x : Z) (l : list Z) : list Z :=
  match l with
  | [] => [x]
  | y :: l' => if x <=? y then x :: l else y :: insertSorted x l'
  end.

(** [sort.Ints]: the slice in increasing order.  The order of equal
    integers cannot be observed, so any sorting algorithm is a model. *)
Fixpoint Ints (l : list Z) : list Z :=
  match l with
  | [] => []
  | x :: l' => insertSorted x (Ints l')
  end.

(** *** regexp

    The patterns of the sources are written in this syntax; matching is
    the leftmost-first search of package regexp, which returns what a
    backtracking matcher finds first: alternatives in order, repetitions
    greedy.  The classes of both patterns are classes of ASCII bytes or
    complements of such classes, and every repetition in them ends next
    to an ASCII byte or at the end of the text, so matching byte by byte
    cuts the text where matching rune by rune does (an invalid byte
    counts as the rune [RuneError], which is in [\S] and in [.]). *)

Inductive regex : Type :=
| Bol                                   (* ^ *)
| Eol                                   (* $ *)
| Class (p : ascii -> bool) (lo : nat) (hi : option nat)
                                        (* a class, repeated {lo,hi} *)
| Cat (r1 r2 : regex)
| Alt (r1 r2 : regex)
| Cap (i : nat) (r : regex)             (* capturing group number i *)
| Times (n : nat) (r : regex).          (* (?:r){n} *)

Abbreviation captures := (gmap nat gostring).

(** A continuation receives the position reached, the text left and the
    groups captured so far. *)
Definition cont (R : Type) := nat -> gostring -> captures -> option R.

Definition allows (hi : option nat) : bool :=
  match hi with
  | Some O => false
  | _ => true
  end.

Definition decr (hi : option nat) : option nat :=
  match hi with
  | Some n => Some (Nat.pred n)
  | None => None
  end.

(** A class repeated greedily: the longest run is tried first, then one
    byte is given back at a time. *)
Fixpoint repClass {R} (p : ascii -> bool) (lo : nat) (hi : option nat)
         (pos : nat) (s : gostring) (caps : captures) (k : cont R) : option R :=
  let stop := match lo with O => k pos s caps | S _ => None end in
  match s with
  | [] => stop
  | c :: s' =>
    if p c && allows hi then
      match repClass p (Nat.pred lo) (decr hi) (S pos) s' caps k with
      | Some r => Some r
      | None => stop
      end
    else stop
  end.

Fixpoint matchAt {R} (re : regex) (pos : nat) (s : gostring) (caps : captures)
         (k : cont R) {struct re} : option R :=
  match re with
  | Bol => match pos with O => k pos s caps | S _ => None end
  | Eol => match s with [] => k pos s caps | _ :: _ => None end
  | Class p lo hi => repClass p lo hi pos s caps k
  | Cat r1 r2 =>
    matchAt r1 pos s caps (fun pos' s' caps' => matchAt r2 pos' s' caps' k)
  | Alt r1 r2 =>
    match matchAt r1 pos s caps k with
    | Some r => Some r
    | None => matchAt r2 pos s caps k
    end
  | Cap i r =>
    matchAt r pos s caps
            (fun pos' s' caps' => k pos' s' (<[i := firstn (pos' - pos) s]> caps'))
  | Times n r =>
    (fix iter (n : nat) (pos : nat) (s : gostring) (caps : captures) : option R :=
       match n with
       | O => k pos s caps
       | S n' => matchAt r pos s caps (fun pos' s' caps' => iter n' pos' s' caps')
       end) n pos s caps
  end.

Definition group (caps : captures) (i : nat) : gostring :=
  default [] (caps !! i).

(** The search from each start position in turn. *)
Fixpoint findFrom (re : regex) (groups : nat) (pos : nat) (s : gostring)
  : option (list gostring) :=
  match matchAt re pos s ∅ (fun pos' _ caps => Some (pos', caps)) with
  | Some (e, caps) =>
    Some (firstn (e - pos) s :: map (fun i => group caps (S i)) (seq 0 groups))
  | None =>
    match s with
    | [] => None
    | _ :: s' => findFrom re groups (S pos) s'
    end
  end.

(** [Regexp.FindStringSubmatch]: the match and its [groups] groups,
    or [None] for the nil slice. *)
Definition FindStringSubmatch (re : regex) (groups : nat) (s : gostring)
  : option (list gostring) :=
  findFrom re groups 0 s.

Definition byteIs (c : ascii) : ascii -> bool := Ascii.eqb c.

(** [\d], [\w], [\s], [\S] and [.] of the RE2 syntax. *)
Definition isWord (c : ascii) : bool :=
  isDigit c
  || ((0x41 <=? byteval c) && (byteval c <=? 0x5A))
  || ((0x61 <=? byteval c) && (byteval c <=? 0x7A))
  || (byteval c =? 0x5F).
Definition isBlank (c : ascii) : bool :=
  (byteval c =? 0x09) || (byteval c =? 0x0A) || (byteval c =? 0x0C)
  || (byteval c =? 0x0D) || (byteval c =? 0x20).
Definition notBlank (c : ascii) : bool := negb (isBlank c).
Definition notNewline (c : ascii) : bool := negb (byteval c =? 0x0A).

(** [nth] of a slice whose length has been checked. *)
Definition index (l : list gostring) (i : nat) : gostring := nth i l [].

End Go.

(** ** scheduleentity.go (package crontabparser) *)

Module Crontabparser.
Import Go.

(** [scheduleType] is an [int]; the five constants are numbered by
    [iota]. *)
Definition scheduleType := Z.
Definition scheduleMinute : scheduleType := 0.
Definition scheduleHour : scheduleType := 1.
Definition scheduleDay : scheduleType := 2.
Definition scheduleMonth : scheduleType := 3.
Definition scheduleDayOfWeek : scheduleType := 4.

Record scheduleEntity : Type := mkEntity {
  raw : gostring;
  typ : scheduleType;
  expanded : list Z
}.

(** [Match] on a receiver that may be nil. *)
Definition Match (se : option scheduleEntity) (num : Z) : bool :=
  match se with
  | None => false
  | Some e => existsb (fun i => num =? i) (expanded e)
  end.

Record entityParam : Type := mkParam {
  Range : Z * Z;
  Aliases : list gostring
}.

Definition entityParams : gmap Z entityParam :=
  {[ scheduleMinute := mkParam (0, 59) [];
     scheduleHour := mkParam (0, 23) [];
     scheduleDay := mkParam (1, 31) [];
     scheduleMonth :=
       mkParam (1, 12)
               (map str [""; "jan"; "feb"; "mar"; "apr"; "may"; "jun"; "jul";
                         "aug"; "sep"; "oct"; "nov"; "dec"]%string);
     scheduleDayOfWeek :=
       mkParam (0, 7)
               (map str ["sun"; "mon"; "tue"; "wed"; "thu"; "fri"; "sat"]%string) ]}.

(** The pattern of [rangeReg]: the start of the text; group 1, one or
    two [\d]; a hyphen; group 2, one or two [\d]; the end of the text. *)
Definition rangeReg : regex :=
  Cat Bol
      (Cat (Cap 1 (Class isDigit 1 (Some 2%nat)))
           (Cat (Class (byteIs "-") 1 (Some 1%nat))
                (Cat (Cap 2 (Class isDigit 1 (Some 2%nat))) Eol))).

Definition invalidRange (item : gostring) : error :=
  Errorf (str "invalid range: %s") [ArgString item].

(** [parseRange]: the pair returned and the error, the pair being the
    zero value when the error is set. *)
Definition parseRange (item : gostring) (rng : Z * Z) : (Z * Z) * option error :=
  if decide (item = str "*") then ((fst rng, snd rng), None)
  else
    let m := default [] (FindStringSubmatch rangeReg 2 item) in
    if (length m =? 3)%nat then
      let min := fst (ParseInt (index m 1)) in
      let max := fst (ParseInt (index m 2)) in
      if (max <=? min) || (min <? fst rng) || (snd rng <? max)
      then ((0, 0), Some (invalidRange item))
      else ((min, max), None)
    else ((0, 0), Some (invalidRange item)).

(** The loop [for i := rng[0]; i <= rng[1]; i++] of the stepped branch,
    with its counter.  [%] of Go truncates, as [Z.rem] does.  The bounds
    come from [parseRange] and stay below 100, far from the limits of
    [int]. *)
Fixpoint stepLoop (fuel : nat) (i hi incr incrCounter : Z) (expanded : list Z)
  : list Z :=
  match fuel with
  | O => expanded
  | S fuel' =>
    if i <=? hi then
      stepLoop fuel' (i + 1) hi incr (incrCounter + 1)
               (if Z.rem incrCounter incr =? 0 then expanded ++ [i] else expanded)
    else expanded
  end.

(** The loop of the plain range branch. *)
Fixpoint fillLoop (fuel : nat) (i hi : Z) (expanded : list Z) : list Z :=
  match fuel with
  | O => expanded
  | S fuel' =>
    if i <=? hi then fillLoop fuel' (i + 1) hi (expanded ++ [i]) else expanded
  end.

(** The trips a loop from [lo] to [hi] makes. *)
Definition trips (lo hi : Z) : nat := Z.to_nat (hi - lo + 1).

(** The body of the loop over the items of [init]: the slice after the
    item, or the error [init] returns. *)
Definition expandItem (raw : gostring) (rng : Z * Z) (item : gostring)
           (expanded : list Z) : list Z + error :=
  let stuffs := SplitN item "/" 2 in
  if (length stuffs =? 2)%nat then
    match parseRange (index stuffs 0) rng with
    | (_, Some err) =>
      inr (Errorf (str "invalid entity: %s, %s") [ArgString raw; ArgError err])
    | (r, None) =>
      let '(increments, err) := ParseUint (index stuffs 1) in
      if negb (bool_decide (err = None)) || (increments =? 0) then
        inr (Errorf (str "invalid increments: %q in %q")
                    [ArgString (index stuffs 1); ArgString raw])
      else
        let incr := intOfUint64 increments in
        inl (stepLoop (trips (fst r) (snd r)) (fst r) (snd r) incr 0 expanded)
    end
  else
    match ParseUint item with
    | (n, None) =>
      let num := intOfUint64 n in
      if (num <? fst rng) || (snd rng <? num) then
        inr (Errorf (str "invalid entity: %s") [ArgString raw])
      else inl (expanded ++ [num])
    | (_, Some _) =>
      match parseRange item rng with
      | (_, Some err) =>
        inr (Errorf (str "invalid entity: %s, %s") [ArgString raw; ArgError err])
      | (r, None) =>
        inl (fillLoop (trips (fst r) (snd r)) (fst r) (snd r) expanded)
      end
    end.

Fixpoint expandItems (raw : gostring) (rng : Z * Z) (items : list gostring)
         (expanded : list Z) : list Z + error :=
  match items with
  | [] => inl expanded
  | item :: items' =>
    match expandItem raw rng item expanded with
    | inl expanded' => expandItems raw rng items' expanded'
    | inr err => inr err
    end
  end.

(** The loop over [ep.Aliases], [i] being the index of the first alias
    of the list. *)
Fixpoint replaceAliases (i : nat) (aliases : list gostring) (entity : gostring)
  : gostring :=
  match aliases with
  | [] => entity
  | v :: aliases' =>
    replaceAliases (S i) aliases'
                   (match v with
                    | [] => entity
                    | _ => Replace entity v (Sprintf_d i)
                    end)
  end.

Definition hasSunday (expanded : list Z) : bool :=
  fold_left (fun hasSun v => if v =? 7 then true else hasSun) expanded false.

(** The loop that fills [uniqness], [seen] being the map used as a set. *)
Fixpoint uniq (seen : gset Z) (expanded : list Z) (uniqness : list Z) : list Z :=
  match expanded with
  | [] => uniqness
  | v :: expanded' =>
    if decide (v ∈ seen) then uniq seen expanded' uniqness
    else uniq ({[v]} ∪ seen) expanded' (uniqness ++ [v])
  end.

Section Init.

(** The case tables of [unicode.ToLower] above ASCII. *)
Variable caseTable : Z -> Z.

(** The text the items are cut from: lower case, aliases replaced. *)
Definition normalize (ep : entityParam) (raw : gostring) : gostring :=
  replaceAliases 0 (Aliases ep) (ToLower caseTable raw).

(** The slice [expanded] when the loop over the items is over. *)
Definition collect (ep : entityParam) (raw : gostring) : list Z + error :=
  expandItems raw (Range ep) (Split (normalize ep raw) ",") [].

Definition addSunday (typ : scheduleType) (expanded : list Z) : list Z :=
  if typ =? scheduleDayOfWeek then
    if hasSunday expanded then expanded ++ [0] else expanded
  else expanded.

(** [init]: the entity after the call, and the error returned. *)
Definition init (se : scheduleEntity) : scheduleEntity * option error :=
  match entityParams !! typ se with
  | None =>
    (se, Some (Errorf (str "no entity param setting for %s") [ArgInt (typ se)]))
  | Some ep =>
    match collect ep (raw se) with
    | inr err => (se, Some err)
    | inl expanded =>
      let expanded := addSunday (typ se) expanded in
      let uniqness := uniq ∅ expanded [] in
      (mkEntity (raw se) (typ se) (Ints uniqness), None)
    end
  end.

Definition newScheduleEntity (raw : gostring) (st : scheduleType)
  : option scheduleEntity * option error :=
  let se := mkEntity raw st [] in
  match init se with
  | (_, Some err) => (None, Some err)
  | (se', None) => (Some se', None)
  end.

(** The expansion of a field, [None] when it is rejected. *)
Definition expand (raw : gostring) (st : scheduleType) : option (list Z) :=
  option_map expanded (fst (newScheduleEntity raw st)).

End Init.

End Crontabparser.

(** ** job.go (package checron) *)

Module Checron.
Import Go.

(** The pattern of [scheduleReg]: the start of the text; group 1,
    either an at sign and one or more [\w], or five times one or more
    [\S] and one or more [\s]; group 2, any number of [.]; the end of
    the text. *)
Definition scheduleReg : regex :=
  Cat Bol
      (Cat (Cap 1 (Alt (Cat (Class (byteIs "@") 1 (Some 1%nat))
                            (Class isWord 1 None))
                       (Times 5 (Cat (Class notBlank 1 None)
                                     (Class isBlank 1 None)))))
           (Cat (Cap 2 (Class notNewline 0 None)) Eol)).

(** The slice expression [str[offset:]], which panics when [offset] is
    beyond the end of [str]. *)
Definition sliceFrom (s : gostring) (offset : Z) : outcome gostring :=
  if (offset <? 0) || (Z.of_nat (length s) <? offset)
  then Panics (str "slice bounds out of range")
  else Returns (skipn (Z.to_nat offset) s).

(** The variables of [fieldsN] that its loop changes. *)
Record splitter : Type := mkSplitter {
  n : Z;
  offset : Z;
  buf : gostring;
  flds : list gostring
}.

(** The loop [for _, r := range str] of [fieldsN].  [s] is what is left
    of [str] to range over, and [pending] counts the bytes of the rune
    just handled that [range] still steps over.  The [break] ends the
    recursion. *)
Fixpoint fieldsLoop (whole : gostring) (pending : nat) (s : gostring)
         (st : splitter) : outcome splitter :=
  match s with
  | [] => Returns st
  | _ :: s' =>
    match pending with
    | S p => fieldsLoop whole p s' st
    | O =>
      let '(r, w) := DecodeRuneInString s in
      if n st <? 2 then
        obind (sliceFrom whole (offset st)) (fun tail =>
        Returns (mkSplitter (n st) (offset st) (buf st)
                            (flds st ++ [TrimSpace tail])))
      else
        let offset' := offset st + Z.of_nat (length (EncodeRune r)) in
        if IsSpace r then
          if (0 <? length (buf st))%nat then
            fieldsLoop whole (w - 1) s'
                       (mkSplitter (n st - 1) offset' [] (flds st ++ [buf st]))
          else
            fieldsLoop whole (w - 1) s'
                       (mkSplitter (n st) offset' (buf st) (flds st))
        else
          fieldsLoop whole (w - 1) s'
                     (mkSplitter (n st) offset' (buf st ++ EncodeRune r) (flds st))
    end
  end.

Definition fieldsN (s : gostring) (n : Z) : outcome (list gostring) :=
  let s := TrimSpace s in
  obind (fieldsLoop s 0 s (mkSplitter n 0 [] [])) (fun st =>
  Returns (if (0 <? length (buf st))%nat then flds st ++ [buf st] else flds st)).

Definition invalidField (raw : gostring) : error :=
  Errorf (str "field: %q is invalid") [ArgString raw].

Section Job.

(** The schedule of package checron and its parser are in another file
    of the package; [parse] only stores what the parser returns. *)
Variable Schedule : Type.
Variable ParseSchedule : gostring -> option Schedule * option error.

Record Job : Type := mkJob {
  raw : gostring;
  env : gmap gostring gostring;
  user : gostring;
  command : gostring;
  schedule : option Schedule;
  err : option error
}.

Definition setSchedule (jo : Job) (sc : option Schedule) : Job :=
  mkJob (raw jo) (env jo) (user jo) (command jo) sc (err jo).
Definition setUser (jo : Job) (u : gostring) : Job :=
  mkJob (raw jo) (env jo) u (command jo) (schedule jo) (err jo).
Definition setCommand (jo : Job) (c : gostring) : Job :=
  mkJob (raw jo) (env jo) (user jo) c (schedule jo) (err jo).
Definition setErr (jo : Job) (e : option error) : Job :=
  mkJob (raw jo) (env jo) (user jo) (command jo) (schedule jo) e.

(** [parse]: the job after the call and the error returned. *)
Definition parse (jo : Job) (hasUser : bool) : outcome (Job * option error) :=
  let m := default [] (FindStringSubmatch scheduleReg 2 (TrimSpace (raw jo))) in
  if (length m =? 3)%nat then
    let '(sc, err) := ParseSchedule (TrimSpace (index m 1)) in
    let jo := setSchedule jo sc in
    match err with
    | Some e => Returns (jo, Some e)
    | None =>
      if hasUser then
        obind (fieldsN (index m 2) 2) (fun flds =>
        if negb (length flds =? 2)%nat then
          Returns (jo, Some (invalidField (raw jo)))
        else
          let jo := setUser jo (index flds 0) in
          let jo := setCommand jo (index flds 1) in
          Returns (jo, None))
      else
        let jo := setCommand jo (index m 2) in
        Returns (jo, None)
    end
  else Returns (jo, Some (invalidField (raw jo))).

Definition ParseJob (raw : gostring) (hasUser : bool)
           (env : gmap gostring gostring) : outcome Job :=
  let jo := mkJob raw env [] [] None None in
  obind (parse jo hasUser) (fun '(jo, err) =>
  Returns (setErr jo err)).

Definition User (jo : Job) : gostring := user jo.
Definition Command (jo : Job) : gostring := command jo.
Definition Err (jo : Job) : option error := err jo.
Definition Raw (jo : Job) : gostring := raw jo.
Definition Env (jo : Job) : gmap gostring gostring := env jo.

End Job.

Arguments raw {Schedule} _.
Arguments env {Schedule} _.
Arguments user {Schedule} _.
Arguments command {Schedule} _.
Arguments schedule {Schedule} _.
Arguments err {Schedule} _.
Arguments mkJob {Schedule} _ _ _ _ _ _.
Arguments ParseJob {Schedule} _ _ _ _.
Arguments parse {Schedule} _ _ _.
Arguments Raw {Schedule} _.
Arguments Env {Schedule} _.
Arguments User {Schedule} _.
Arguments Command {Schedule} _.
Arguments Err {Schedule} _.

(** *** A schedule parser to run the tokenizer with *)

Inductive Schedule : Type :=
| Named (name : gostring)
| Fields (entities : list Crontabparser.scheduleEntity).

(** The fields of a schedule text, cut at ASCII blanks. *)
Fixpoint blankFields (cur : gostring) (s : gostring) : list gostring :=
  match s with
  | [] => match cur with [] => [] | _ => [cur] end
  | c :: s' =>
    if isBlank c then
      match cur with
      | [] => blankFields [] s'
      | _ => cur :: blankFields [] s'
      end
    else blankFields (cur ++ [c]) s'
  end.

Fixpoint expandFields (kind : Z) (fields : list gostring)
  : option (list Crontabparser.scheduleEntity) :=
  match fields with
  | [] => Some []
  | f :: fields' =>
    match Crontabparser.newScheduleEntity (fun r => r) f kind with
    | (Some se, None) =>
      option_map (cons se) (expandFields (kind + 1) fields')
    | _ => None
    end
  end.

(** Modelled from the spec: [ParseSchedule] is in a file of the
    repository that is not under src/.  The spec describes it as a
    collaborator that takes the schedule text and returns a schedule or
    an error, resolving named schedules such as [@daily] and [@reboot]
    and otherwise building on five field expanders.  This instance
    accepts these two names and any five fields the expander accepts; it
    is what closed examples run the tokenizer with, the theorems hold for
    every parser. *)
Definition specParseSchedule (text : gostring) : option Schedule * option error :=
  if hasPrefix text (str "@") then
    if bool_decide (text = str "@daily") || bool_decide (text = str "@reboot")
    then (Some (Named text), None)
    else (None, Some (Errorf (str "unknown schedule: %q") [ArgString text]))
  else
    let fields := blankFields [] text in
    if (length fields =? 5)%nat then
      match expandFields 0 fields with
      | Some es => (Some (Fields es), None)
      | None => (None, Some (Errorf (str "invalid schedule: %q") [ArgString text]))
      end
    else (None, Some (Errorf (str "invalid schedule: %q") [ArgString text])).

End Checron.

(** ** Notions the statements use *)

Module Spec.
Import Go.

(** A number of repetitions that the upper bound of a class allows. *)
Definition within (hi : option nat) (j : nat) : Prop :=
  match hi with
  | Some h => (j <= h)%nat
  | None => True
  end.

(** The text after a run of a class does not go on with the class. *)
Definition stopsAt (p : ascii -> bool) (rest : gostring) : Prop :=
  match rest with
  | [] => True
  | c :: _ => p c = false
  end.

(** A decimal number of one or two digits, as the range pattern reads it. *)
Definition digits12 (d : gostring) : Prop :=
  (1 <= length d <= 2)%nat /\ forallb isDigit d = true.

(** The number a string of decimal digits writes. *)
Definition decimal (d : gostring) : Z :=
  fold_left (fun n c => n * 10 + (byteval c - 0x30)) d 0.

(** A value of the closed domain of a field kind. *)
Definition inDomain (rng : Z * Z) (v : Z) : Prop := fst rng <= v <= snd rng.

(** The integers from [lo] to [hi], in increasing order. *)
Definition fromTo (lo hi : Z) : list Z :=
  map (fun k => lo + Z.of_nat k) (seq 0 (Z.to_nat (hi - lo + 1))).

(** The values the spec keeps from a stepped range: [a], [a + s],
    [a + 2 s] and so on, up to [b]. *)
Definition everyStep (a b s : Z) : list Z :=
  map (fun k => a + Z.of_nat k * s) (seq 0 (Z.to_nat ((b - a) / s + 1))).

(** The spec's alias substitution: every alias of the list, in order,
    has each of its occurrences replaced by its index in decimal. *)
Definition substituteAliases (aliases : list gostring) (text : gostring) : gostring :=
  fold_left (fun t '(i, alias) =>
               if bool_decide (alias = []) then t
               else Replace t alias (Sprintf_d i))
            (combine (seq 0 (length aliases)) aliases) text.

(** The text [old] stands in [s] at index [i]. *)
Definition occursAt (old s : gostring) (i : nat) : Prop :=
  firstn (length old) (skipn i s) = old.

(** The spec's replacement of an alias: [t] is [s] with every literal
    occurrence of [old] replaced by [new], the occurrences taken from
    left to right, wherever they stand. *)
Inductive replacedAll (old new : gostring) : gostring -> gostring -> Prop :=
| replaced_none s :
    (forall i, ~ occursAt old s i) -> replacedAll old new s s
| replaced_first pre post t :
    (forall i, (i < length pre)%nat -> ~ occursAt old (pre ++ old ++ post) i) ->
    replacedAll old new post t ->
    replacedAll old new (pre ++ old ++ post) (pre ++ new ++ t).

(** The spec's loop over the aliases: the aliases of the list, in order,
    each replaced by its index in decimal, [i] being the index of the
    first alias of the list; an alias that is the empty text stands for
    no name and replaces nothing. *)
Inductive aliasesReplaced : nat -> list gostring -> gostring -> gostring -> Prop :=
| aliases_done i t : aliasesReplaced i [] t t
| aliases_empty i aliases t u :
    aliasesReplaced (S i) aliases t u -> aliasesReplaced i ([] :: aliases) t u
| aliases_next i alias aliases t t' u :
    alias <> [] -> replacedAll alias (Sprintf_d i) t t' ->
    aliasesReplaced (S i) aliases t' u ->
    aliasesReplaced i (alias :: aliases) t u.

(** An ASCII byte in lower case. *)
Definition lowerByte (c : ascii) : ascii :=
  if (0x41 <=? byteval c) && (byteval c <=? 0x5A) then byteof (byteval c + 0x20) else c.

(** Well-encoded text all of whose runes satisfy [P]: every rune, decoded
    as [range] decodes it, is written back by [EncodeRune] as the bytes it
    was read from.  [pending] counts the bytes of the current rune that
    are still to come. *)
Fixpoint runesAll (P : Z -> bool) (pending : nat) (s : gostring) : bool :=
  match s with
  | [] => (pending =? 0)%nat
  | _ :: s' =>
    match pending with
    | S p => runesAll P p s'
    | O =>
      let '(r, w) := DecodeRuneInString s in
      P r && bool_decide (EncodeRune r = firstn w s) && runesAll P (w - 1) s'
    end
  end.

Definition notSpace (r : Z) : bool := negb (IsSpace r).
Definition anyRune (r : Z) : bool := true.

(** A token: well-encoded text, not empty, without a space. *)
Definition token (s : gostring) : Prop :=
  s <> [] /\ runesAll notSpace 0 s = true.

(** The bytes of one well-encoded space. *)
Definition spaceRune (s : gostring) : Prop :=
  s <> [] /\ exists r, DecodeRuneInString s = (r, length s) /\
                       IsSpace r = true /\ EncodeRune r = s.

(** A field of a job line as the pattern sees it: one or more [\S]. *)
Definition fieldRun (f : gostring) : Prop := f <> [] /\ forallb notBlank f = true.

(** What separates two fields: one or more [\s]. *)
Definition blankRun (w : gostring) : Prop := w <> [] /\ forallb isBlank w = true.

(** The text starts like a named schedule: an at sign and a [\w]. *)
Definition namedPrefix (s : gostring) : bool :=
  match s with
  | c :: d :: _ => byteIs "@" c && isWord d
  | _ => false
  end.

(** One field and the blanks after it, the unit the pattern repeats. *)
Definition fieldThenBlank : regex :=
  Cat (Class notBlank 1 None) (Class isBlank 1 None).

(** The first alternative of group 1: an at sign and a word. *)
Definition namedSchedule : regex :=
  Cat (Class (byteIs "@") 1 (Some 1%nat)) (Class isWord 1 None).

(** A line whose user column holds a byte that is not UTF-8. *)
Definition strayByteLine : gostring :=
  str "* * * * * " ++ [byteof 0xFF] ++ str " a".

(** A line whose user column is one byte that is not UTF-8, with a
    command after it. *)
Definition strayUserLine : gostring :=
  str "*/5 * * * * " ++ [byteof 0xFF] ++ str " echo  hi".

(** *** Notions of the field expander *)

(** The number that digits write after the number [n]. *)
Definition digitsValue (n : Z) (d : gostring) : Z :=
  fold_left (fun n c => n * 10 + (byteval c - 0x30)) d n.

(** The result of a call without its error. *)
Definition values {A E} (r : A + E) : option A :=
  match r with
  | inl a => Some a
  | inr _ => None
  end.

(** An ASCII byte that is no letter. *)
Definition plainByte (c : ascii) : bool :=
  (byteval c <? 0x41)
  || ((0x5A <? byteval c) && (byteval c <? 0x61))
  || ((0x7A <? byteval c) && (byteval c <? 0x80)).

(** An ASCII letter in lower case. *)
Definition lowerLetter (c : ascii) : bool :=
  (0x61 <=? byteval c) && (byteval c <=? 0x7A).

(** What [init] stores once the items are collected. *)
Definition stored (st : Crontabparser.scheduleType) (acc : list Z) : list Z :=
  Ints (Crontabparser.uniq ∅ (Crontabparser.addSunday st acc) []).

(** The values of a field with the 0 that a 7 brings to the day of the
    week. *)
Definition withSunday (st : Crontabparser.scheduleType) (l : list Z) : list Z :=
  if (st =? Crontabparser.scheduleDayOfWeek)
     && existsb (Z.eqb 7) l && negb (existsb (Z.eqb 0) l)
  then 0 :: l else l.

(** The step the counter test works with: a step from 2^63 on is
    negative after the conversion to [int], and [%] then takes its
    absolute value. *)
Definition effectiveStep (n : Z) : Z := if n <? 2 ^ 63 then n else 2 ^ 64 - n.

(** The values two texts collect, one after the other. *)
Definition both {A} (x y : option (list A)) : option (list A) :=
  match x, y with
  | Some la, Some lb => Some (la ++ lb)
  | _, _ => None
  end.

(** Two expanded lists put together as [init] does: duplicates removed,
    then sorted. *)
Definition merged (la lb : list Z) : list Z :=
  Ints (Crontabparser.uniq ∅ (la ++ lb) []).

(** The three errors of the loop over the items, for the field [raw]. *)
Definition itemError (raw : gostring) (e : error) : Prop :=
  e = Errorf (str "invalid entity: %s") [ArgString raw] \/
  (exists item, e = Errorf (str "invalid entity: %s, %s")
                           [ArgString raw;
                            ArgError (Crontabparser.invalidRange item)]) \/
  (exists s, e = Errorf (str "invalid increments: %q in %q")
                        [ArgString s; ArgString raw]).

(** A byte of the syntax of a field: a digit, a hyphen, a star, a slash
    or a comma. *)
Definition fieldByte (c : ascii) : bool :=
  isDigit c || Ascii.eqb c "-" || Ascii.eqb c "*" || Ascii.eqb c "/"
  || Ascii.eqb c ",".

(** *** Notions of the job tokenizer *)

(** A field and the blanks after it, as the pattern sees them. *)
Definition fieldUnit (p : gostring * gostring) : Prop :=
  fieldRun (fst p) /\ blankRun (snd p).

(** The text of a list of pieces, each with what separates it from the
    next. *)
Definition unitsText (l : list (gostring * gostring)) : gostring :=
  flat_map (fun p => fst p ++ snd p) l.

(** A pattern without a capturing group. *)
Fixpoint capFree (re : regex) : bool :=
  match re with
  | Bol | Eol | Class _ _ _ => true
  | Cat r1 r2 | Alt r1 r2 => capFree r1 && capFree r2
  | Cap _ _ => false
  | Times _ r => capFree r
  end.

(** The fields [fieldsN] returns from the state its loop ends in. *)
Definition fieldsOf (st : Checron.splitter) : list gostring :=
  if (0 <? length (Checron.buf st))%nat
  then Checron.flds st ++ [Checron.buf st] else Checron.flds st.

(** What the loop of [fieldsN] keeps true while it counts fields down:
    the fields cut and the fields left to cut add up to [total], and the
    buffer is empty once one field is left. *)
Definition counting (total : Z) (st : Checron.splitter) : Prop :=
  Z.of_nat (length (Checron.flds st)) + Checron.n st = total /\
  (2 <= Checron.n st \/ (Checron.n st = 1 /\ Checron.buf st = [])).



(** The bytes of one well-encoded rune that satisfies [P]. *)
Definition runeChunk (P : Z -> bool) (c : gostring) : Prop :=
  exists r, DecodeRuneInString c = (r, length c) /\ EncodeRune r = c /\ P r = true.

(** Every match of the pattern takes at least one byte, and the last
    byte it takes is an ASCII byte. *)
Definition endsAscii (re : regex) : Prop :=
  forall (R : Type) (k : cont R) pos s caps r,
    matchAt re pos s caps k = Some r ->
    exists j c, nth_error s j = Some c /\ byteval c < 0x80 /\
                k (pos + S j)%nat (skipn (S j) s) caps = Some r.

End Spec.

(** ** Sorting and removing duplicates *)

Module SortFacts.
Import Go Crontabparser.

Lemma insertSorted_In x l v : In v (insertSorted x l) <-> v = x \/ In v l.
Proof.
  induction l as [|y l IH]; simpl.
  - intuition.
  - destruct (x <=? y); simpl; [intuition|].
    rewrite IH. intuition.
Qed.

Lemma Ints_In l v : In v (Ints l) <-> In v l.
Proof.
  induction l as [|x l IH]; simpl; [tauto|].
  rewrite insertSorted_In, IH. intuition.
Qed.

Lemma insertSorted_strict x l :
  StronglySorted Z.lt l -> ~ In x l -> StronglySorted Z.lt (insertSorted x l).
Proof.
  induction 1 as [|y l Hs IH Hall]; intros Hx; simpl.
  - repeat constructor.
  - destruct (Z.leb_spec x y) as [Hle|Hgt].
    + assert (x < y) by (simpl in Hx; lia).
      constructor; [constructor; assumption|].
      constructor; [assumption|].
      eapply Forall_impl; [exact Hall|]. simpl. intros; lia.
    + constructor.
      * apply IH. simpl in Hx. tauto.
      * apply List.Forall_forall. intros v Hv.
        apply insertSorted_In in Hv. destruct Hv as [->|Hv]; [lia|].
        rewrite List.Forall_forall in Hall. auto.
Qed.

Lemma Ints_strict l : List.NoDup l -> StronglySorted Z.lt (Ints l).
Proof.
  induction 1 as [|x l Hx Hnd IH]; simpl; [constructor|].
  apply insertSorted_strict; [assumption|].
  rewrite Ints_In. assumption.
Qed.

Lemma strict_NoDup l : StronglySorted Z.lt l -> List.NoDup l.
Proof.
  induction 1 as [|x l Hs IH Hall]; constructor; [|assumption].
  intros Hin. rewrite List.Forall_forall in Hall. specialize (Hall _ Hin). lia.
Qed.

(** [uniq] keeps the first occurrence of every value: with [seen]
    holding what [uniqness] holds, nothing is lost and nothing is
    doubled. *)
Lemma uniq_spec l : forall (seen : gset Z) acc,
  (forall v, v ∈ seen <-> In v acc) -> List.NoDup acc ->
  List.NoDup (uniq seen l acc) /\
  (forall v, In v (uniq seen l acc) <-> In v acc \/ In v l).
Proof.
  induction l as [|x l IH]; intros seen acc Hseen Hnd; simpl.
  - split; [assumption|]. intros v; tauto.
  - destruct (decide (x ∈ seen)) as [Hin|Hnot].
    + destruct (IH seen acc Hseen Hnd) as [H1 H2]. split; [assumption|].
      intros v. rewrite H2. apply Hseen in Hin.
      split; [tauto|]. intros [?|[<-|?]]; tauto.
    + destruct (IH ({[x]} ∪ seen) (acc ++ [x])) as [H1 H2].
      * intros v. rewrite elem_of_union, elem_of_singleton, in_app_iff, Hseen.
        simpl. intuition.
      * apply List.NoDup_app.
        -- assumption.
        -- repeat constructor. simpl. tauto.
        -- intros v Hv [<-|[]]. apply Hnot, Hseen. assumption.
      * split; [assumption|].
        intros v. rewrite H2, in_app_iff. simpl. intuition.
Qed.

Lemma uniq_empty l :
  List.NoDup (uniq ∅ l []) /\ (forall v, In v (uniq ∅ l []) <-> In v l).
Proof.
  destruct (uniq_spec l ∅ []) as [H1 H2].
  - intros v. rewrite elem_of_empty. simpl. tauto.
  - constructor.
  - split; [assumption|]. intros v. rewrite H2. simpl. tauto.
Qed.

Lemma hasSunday_fold l : forall b,
  fold_left (fun hasSun v => if v =? 7 then true else hasSun) l b = true
  <-> b = true \/ In 7 l.
Proof.
  induction l as [|x l IH]; intros b; simpl.
  - tauto.
  - rewrite IH. destruct (Z.eqb_spec x 7) as [->|Hne].
    + tauto.
    + intuition congruence.
Qed.

Lemma hasSunday_In l : hasSunday l = true <-> In 7 l.
Proof.
  unfold hasSunday. rewrite hasSunday_fold. intuition discriminate.
Qed.

End SortFacts.

(** ** The backtracking matcher *)

Module RegexpFacts.
Import Go Spec.

(** Whatever a repeated class returns, some prefix in the class, of a
    permitted length, was consumed before the continuation returned it. *)
Lemma repClass_sound {R} p (k : cont R) caps r s : forall lo hi pos,
  repClass p lo hi pos s caps k = Some r ->
  exists j, (lo <= j)%nat /\ within hi j /\ (j <= length s)%nat /\
            forallb p (firstn j s) = true /\
            k (pos + j)%nat (skipn j s) caps = Some r.
Proof.
  induction s as [|c s IH]; intros lo hi pos H; simpl in H.
  - destruct lo; [|discriminate]. exists 0%nat.
    rewrite Nat.add_0_r. repeat split; auto. destruct hi; simpl; lia.
  - assert (Hstop : match lo with
                    | O => k pos (c :: s) caps
                    | S _ => None
                    end = Some r ->
                    exists j, (lo <= j)%nat /\ within hi j /\
                              (j <= length (c :: s))%nat /\
                              forallb p (firstn j (c :: s)) = true /\
                              k (pos + j)%nat (skipn j (c :: s)) caps = Some r).
    { intros Hs. destruct lo; [|discriminate]. exists 0%nat.
      rewrite Nat.add_0_r. repeat split; auto; [|simpl; lia].
      destruct hi; simpl; lia. }
    destruct (p c) eqn:Hp; simpl in H; [|auto].
    destruct (allows hi) eqn:Hal; [|auto].
    destruct (repClass p (Nat.pred lo) (decr hi) (S pos) s caps k) as [r'|] eqn:Hrec;
      [|auto].
    injection H as ->.
    destruct (IH _ _ _ Hrec) as (j & Hlo & Hhi & Hlen & Hall & Hk).
    exists (S j). simpl. rewrite Hp, Hall.
    replace (pos + S j)%nat with (S pos + j)%nat by lia.
    repeat split; auto; try lia.
    destruct hi as [[|h]|]; simpl in *; try discriminate; try lia.
Qed.

(** On a maximal run of the class the repetition takes the whole run,
    when the continuation rejects every shorter cut. *)
Lemma repClass_run {R} p (k : cont R) caps rest run : forall lo hi pos,
  forallb p run = true -> stopsAt p rest ->
  (lo <= length run)%nat -> within hi (length run) ->
  (forall j, (j < length run)%nat ->
             k (pos + j)%nat (skipn j run ++ rest) caps = None) ->
  repClass p lo hi pos (run ++ rest) caps k = k (pos + length run)%nat rest caps.
Proof.
  induction run as [|c run IH]; intros lo hi pos Hall Hstop Hlo Hhi Hcut.
  - simpl in *. rewrite Nat.add_0_r. assert (lo = 0%nat) as -> by lia.
    destruct rest as [|c rest]; simpl; [reflexivity|].
    simpl in Hstop. rewrite Hstop. reflexivity.
  - simpl in Hall. apply andb_true_iff in Hall as [Hc Hall].
    simpl. rewrite Hc.
    assert (allows hi = true) as ->
        by (destruct hi as [[|h]|]; simpl in *; auto; lia).
    simpl. rewrite IH; auto.
    + replace (S pos + length run)%nat with (pos + S (length run))%nat by lia.
      destruct (k (pos + S (length run))%nat rest caps) eqn:Hk; [reflexivity|].
      destruct lo; [|reflexivity].
      specialize (Hcut 0%nat). simpl in Hcut. rewrite Nat.add_0_r in Hcut.
      apply Hcut. lia.
    + simpl in Hlo. lia.
    + destruct hi as [[|h]|]; simpl in *; auto; lia.
    + intros j Hj. specialize (Hcut (S j)). simpl in Hcut.
      replace (S pos + j)%nat with (pos + S j)%nat by lia.
      apply Hcut. lia.
Qed.

(** Greedy: when the continuation accepts the cut after the whole run,
    that is the answer. *)
Lemma repClass_greedy {R} p (k : cont R) caps rest r run : forall lo hi pos,
  forallb p run = true -> stopsAt p rest ->
  (lo <= length run)%nat -> within hi (length run) ->
  k (pos + length run)%nat rest caps = Some r ->
  repClass p lo hi pos (run ++ rest) caps k = Some r.
Proof.
  induction run as [|c run IH]; intros lo hi pos Hall Hstop Hlo Hhi Hk.
  - simpl in *. rewrite Nat.add_0_r in Hk. assert (lo = 0%nat) as -> by lia.
    destruct rest as [|c rest]; simpl; [assumption|].
    simpl in Hstop. rewrite Hstop. assumption.
  - simpl in Hall. apply andb_true_iff in Hall as [Hc Hall].
    simpl. rewrite Hc.
    assert (allows hi = true) as ->
        by (destruct hi as [[|h]|]; simpl in *; auto; lia).
    simpl. rewrite (IH (Nat.pred lo) (decr hi) (S pos)); auto.
    + simpl in Hlo. lia.
    + destruct hi as [[|h]|]; simpl in *; auto; lia.
    + replace (S pos + length run)%nat with (pos + S (length run))%nat by lia.
      exact Hk.
Qed.

(** A class that must match and whose first byte is outside it. *)
Lemma repClass_reject {R} p (k : cont R) caps lo hi pos s :
  stopsAt p s -> repClass p (S lo) hi pos s caps k = None.
Proof.
  destruct s as [|c s]; simpl; [reflexivity|].
  intros ->. reflexivity.
Qed.

(** One byte exactly. *)
Lemma repClass_one {R} p (k : cont R) caps pos c s :
  repClass p 1 (Some 1%nat) pos (c :: s) caps k =
  if p c then k (S pos) s caps else None.
Proof.
  simpl. destruct (p c); simpl; [|reflexivity].
  destruct s as [|c' s]; simpl.
  - destruct (k (S pos) [] caps); reflexivity.
  - rewrite andb_false_r. destruct (k (S pos) (c' :: s) caps); reflexivity.
Qed.

(** A pattern that starts with [^] matches at the start of the text or
    nowhere. *)
Lemma findFrom_anchored re groups s : forall pos,
  findFrom (Cat Bol re) groups (S pos) s = None.
Proof.
  induction s as [|c s IH]; intros pos; simpl; [reflexivity|apply IH].
Qed.

Lemma find_anchored re groups s :
  FindStringSubmatch (Cat Bol re) groups s =
  match matchAt re 0 s ∅ (fun pos' _ caps => Some (pos', caps)) with
  | Some (e, caps) =>
    Some (firstn e s :: map (fun i => group caps (S i)) (seq 0 groups))
  | None => None
  end.
Proof.
  unfold FindStringSubmatch.
  destruct s as [|c s]; simpl.
  - destruct (matchAt re 0 [] ∅ _) as [[e caps]|]; [|reflexivity].
    rewrite Nat.sub_0_r. reflexivity.
  - destruct (matchAt re 0 (c :: s) ∅ _) as [[e caps]|].
    + rewrite Nat.sub_0_r. reflexivity.
    + apply findFrom_anchored.
Qed.

Lemma skipn_run_stops p (run rest : gostring) j :
  forallb p run = true -> (j < length run)%nat ->
  exists c t, skipn j run ++ rest = c :: t /\ p c = true.
Proof.
  revert j. induction run as [|c run IH]; intros j Hall Hj; simpl in *; [lia|].
  apply andb_true_iff in Hall as [Hc Hall].
  destruct j; simpl.
  - eauto.
  - apply IH; [assumption|lia].
Qed.

(** The same when the run ends the text. *)
Lemma repClass_run_end {R} p (k : cont R) caps run lo hi pos :
  forallb p run = true ->
  (lo <= length run)%nat -> within hi (length run) ->
  (forall j, (j < length run)%nat -> k (pos + j)%nat (skipn j run) caps = None) ->
  repClass p lo hi pos run caps k = k (pos + length run)%nat [] caps.
Proof.
  intros Hall Hlo Hhi Hcut.
  rewrite <- (app_nil_r run) at 1.
  apply repClass_run; simpl; auto.
  intros j Hj. rewrite app_nil_r. auto.
Qed.

Lemma repClass_greedy_end {R} p (k : cont R) caps r run lo hi pos :
  forallb p run = true ->
  (lo <= length run)%nat -> within hi (length run) ->
  k (pos + length run)%nat [] caps = Some r ->
  repClass p lo hi pos run caps k = Some r.
Proof.
  intros Hall Hlo Hhi Hk. rewrite <- (app_nil_r run).
  apply repClass_greedy; simpl; auto.
Qed.

End RegexpFacts.

(** ** Numbers and ranges *)

Module RangeFacts.
Import Go Spec RegexpFacts Crontabparser.

Lemma maxUint64_eq : maxUint64 = 18446744073709551615.
Proof. reflexivity. Qed.

Lemma isDigit_byteval c : isDigit c = true -> 48 <= byteval c <= 57.
Proof. unfold isDigit. intros H. apply andb_true_iff in H. lia. Qed.

Lemma isDigit_not_sign c :
  isDigit c = true -> Ascii.eqb c "-" = false /\ Ascii.eqb c "+" = false.
Proof.
  intros H. split; apply Ascii.eqb_neq; intros ->; vm_compute in H; discriminate.
Qed.

Lemma hyphen_not_digit : isDigit "-" = false.
Proof. reflexivity. Qed.

(** The digit loop does not overflow while the number fits 64 bits. *)
Lemma parseDigits_fits d : forall n,
  forallb isDigit d = true -> 0 <= n ->
  (n + 1) * 10 ^ Z.of_nat (length d) <= 2 ^ 64 ->
  parseDigits n d = (fold_left (fun n c => n * 10 + (byteval c - 0x30)) d n, None).
Proof.
  induction d as [|c d IH]; intros n Hall Hn Hfit; simpl; [reflexivity|].
  simpl in Hall. apply andb_true_iff in Hall as [Hc Hall].
  rewrite Hc. simpl negb. cbv iota.
  pose proof (isDigit_byteval _ Hc) as Hb.
  assert (Hp : 1 <= 10 ^ Z.of_nat (length d)) 
    by (pose proof (Z.pow_pos_nonneg 10 (Z.of_nat (length d)) ltac:(lia) ltac:(lia)); lia).
  replace (Z.of_nat (length (c :: d))) with (Z.succ (Z.of_nat (length d))) in Hfit
    by (simpl length; lia).
  rewrite Z.pow_succ_r in Hfit by lia.
  change (2 ^ 64) with 18446744073709551616 in Hfit.
  rewrite maxUint64_eq.
  change (18446744073709551615 / 10 + 1) with 1844674407370955162.
  destruct (Z.leb_spec 1844674407370955162 n); [nia|].
  destruct (Z.ltb_spec 18446744073709551615 (n * 10 + (byteval c - 48))); [nia|].
  apply IH; [assumption|lia|].
  change (2 ^ 64) with 18446744073709551616. nia.
Qed.

Lemma decimal_bound d : forall n,
  forallb isDigit d = true -> 0 <= n ->
  0 <= fold_left (fun n c => n * 10 + (byteval c - 0x30)) d n
    < (n + 1) * 10 ^ Z.of_nat (length d).
Proof.
  induction d as [|c d IH]; intros n Hall Hn; simpl fold_left.
  - simpl. lia.
  - simpl in Hall. apply andb_true_iff in Hall as [Hc Hall].
    pose proof (isDigit_byteval _ Hc) as Hb.
    specialize (IH (n * 10 + (byteval c - 48)) Hall ltac:(lia)).
    replace (Z.of_nat (length (c :: d))) with (Z.succ (Z.of_nat (length d)))
      by (simpl length; lia).
    rewrite Z.pow_succ_r by lia.
    assert (Hp : 1 <= 10 ^ Z.of_nat (length d)) 
    by (pose proof (Z.pow_pos_nonneg 10 (Z.of_nat (length d)) ltac:(lia) ltac:(lia)); lia).
    nia.
Qed.

Lemma digits12_decimal d : digits12 d -> 0 <= decimal d <= 99.
Proof.
  intros [Hlen Hall]. unfold decimal.
  pose proof (decimal_bound d 0 Hall ltac:(lia)) as H.
  assert (10 ^ Z.of_nat (length d) <= 100).
  { destruct d as [|a [|b [|? ?]]]; simpl in Hlen; try lia; vm_compute; discriminate. }
  lia.
Qed.

Lemma ParseUint_digits12 d : digits12 d -> ParseUint d = (decimal d, None).
Proof.
  intros [Hlen Hall]. unfold ParseUint, decimal.
  destruct d as [|c d]; [simpl in Hlen; lia|].
  apply parseDigits_fits; [assumption|lia|].
  destruct d as [|b [|? ?]]; simpl in Hlen; try lia; vm_compute; discriminate.
Qed.

Lemma ParseInt_digits12 d : digits12 d -> ParseInt d = (decimal d, None).
Proof.
  intros Hd. pose proof (ParseUint_digits12 d Hd) as Hu.
  pose proof (digits12_decimal d Hd) as Hb.
  destruct Hd as [Hlen Hall].
  destruct d as [|c d]; [simpl in Hlen; lia|].
  simpl in Hall. apply andb_true_iff in Hall as [Hc Hall].
  destruct (isDigit_not_sign c Hc) as [Hm Hp].
  unfold ParseInt. rewrite Hm, Hp. cbn [orb negb andb]. rewrite Hu.
  change (2 ^ 63) with 9223372036854775808.
  destruct (Z.leb_spec 9223372036854775808 (decimal (c :: d))); [lia|].
  reflexivity.
Qed.

Lemma byteIs_hyphen_digit c : isDigit c = true -> byteIs "-" c = false.
Proof.
  intros H. unfold byteIs. apply Ascii.eqb_neq. intros <-. vm_compute in H. discriminate.
Qed.

Lemma rangeReg_match da db :
  digits12 da -> digits12 db ->
  FindStringSubmatch rangeReg 2 (da ++ "-"%char :: db)
  = Some [da ++ "-"%char :: db; da; db].
Proof.
  intros [Hla Ha] [Hlb Hb].
  unfold rangeReg. rewrite find_anchored. cbn [matchAt].
  rewrite repClass_run; [|assumption|reflexivity|lia|simpl; lia|].
  - rewrite repClass_one. change (byteIs "-" "-") with true. cbv iota.
    rewrite repClass_run_end; [|assumption|lia|simpl; lia|].
    + cbn [map seq]. unfold group. rewrite lookup_insert_ne by lia.
      rewrite !lookup_insert_eq. cbn [default].
      rewrite !Nat.sub_0_r, Nat.add_0_l.
      replace (S (length da) + length db)%nat with (length (da ++ "-"%char :: db))
        by (rewrite length_app; simpl; lia).
      rewrite firstn_all.
      rewrite firstn_app, firstn_all, Nat.sub_diag. simpl firstn at 1. rewrite app_nil_r.
      replace (length (da ++ "-"%char :: db) - S (length da))%nat with (length db)
        by (rewrite length_app; simpl; lia).
      rewrite firstn_all. reflexivity.
    + intros j Hj.
      destruct (skipn_run_stops isDigit db [] j Hb Hj) as (c & t & Hs & Hc).
      rewrite app_nil_r in Hs. rewrite Hs. reflexivity.
  - intros j Hj.
    destruct (skipn_run_stops isDigit da ("-"%char :: db) j Ha Hj) as (c & t & Hs & Hc).
    rewrite Hs. rewrite repClass_one. rewrite byteIs_hyphen_digit by assumption.
    reflexivity.
Qed.

Lemma rangeReg_sound item m :
  FindStringSubmatch rangeReg 2 item = Some m ->
  exists da db, digits12 da /\ digits12 db /\ item = da ++ "-"%char :: db.
Proof.
  unfold rangeReg. rewrite find_anchored. cbn [matchAt].
  destruct (repClass isDigit 1 (Some 2%nat) 0 item ∅ _) as [[e caps]|] eqn:H;
    [|discriminate].
  intros _.
  apply repClass_sound in H as (j1 & Hlo1 & Hhi1 & Hlen1 & Hall1 & Hk1).
  cbn beta in Hk1.
  destruct (skipn j1 item) as [|c t] eqn:Hsk; [discriminate|].
  rewrite repClass_one in Hk1.
  destruct (byteIs "-" c) eqn:Hc; [|discriminate].
  apply Ascii.eqb_eq in Hc. subst c.
  apply repClass_sound in Hk1 as (j2 & Hlo2 & Hhi2 & Hlen2 & Hall2 & Hk2).
  cbn beta in Hk2.
  destruct (skipn j2 t) as [|c' t'] eqn:Hsk2; [|discriminate].
  pose proof (firstn_skipn j2 t) as Ht. rewrite Hsk2, app_nil_r in Ht.
  pose proof (firstn_skipn j1 item) as Hi. rewrite Hsk in Hi.
  simpl in Hhi1, Hhi2.
  exists (firstn j1 item), t. repeat split; auto.
  - rewrite length_firstn. lia.
  - rewrite length_firstn. lia.
  - rewrite <- Ht. rewrite length_firstn. lia.
  - rewrite <- Ht. rewrite length_firstn. lia.
  - rewrite <- Ht. assumption.
Qed.

Lemma star_not_range da db : str "*" <> da ++ "-"%char :: db.
Proof.
  destruct da as [|a [|b da]]; simpl; discriminate.
Qed.

Lemma parseRange_star rng : parseRange (str "*") rng = (rng, None).
Proof.
  unfold parseRange. destruct (decide _); [|congruence].
  destruct rng; reflexivity.
Qed.

Lemma parseRange_numbers da db rng :
  digits12 da -> digits12 db ->
  parseRange (da ++ "-"%char :: db) rng =
  if (decimal db <=? decimal da) || (decimal da <? fst rng) || (snd rng <? decimal db)
  then ((0, 0), Some (invalidRange (da ++ "-"%char :: db)))
  else ((decimal da, decimal db), None).
Proof.
  intros Ha Hb. unfold parseRange.
  destruct (decide _) as [E|_].
  - symmetry in E. apply star_not_range in E. contradiction.
  - rewrite rangeReg_match by assumption. simpl.
    rewrite !ParseInt_digits12 by assumption. reflexivity.
Qed.

Lemma parseRange_other item rng :
  item <> str "*" ->
  (forall da db, digits12 da -> digits12 db -> item <> da ++ "-"%char :: db) ->
  parseRange item rng = ((0, 0), Some (invalidRange item)).
Proof.
  intros Hstar Hshape. unfold parseRange.
  destruct (decide _); [contradiction|].
  destruct (FindStringSubmatch rangeReg 2 item) as [m|] eqn:Hm; [|reflexivity].
  apply rangeReg_sound in Hm as (da & db & Ha & Hb & ->).
  exfalso. exact (Hshape da db Ha Hb eq_refl).
Qed.

(** Whatever [parseRange] accepts lies in the domain it was given. *)
Lemma parseRange_bounds item rng r :
  parseRange item rng = (r, None) ->
  r = rng \/ (fst rng <= fst r /\ fst r < snd r /\ snd r <= snd rng).
Proof.
  unfold parseRange. destruct (decide _).
  - intros H. injection H as <-. left. destruct rng; reflexivity.
  - destruct (length _ =? 3)%nat; [|discriminate].
    destruct (_ || _) eqn:Hc; [discriminate|].
    intros H. injection H as <-. right. simpl. 
    apply orb_false_iff in Hc as [Hc H3]. apply orb_false_iff in Hc as [H1 H2].
    lia.
Qed.

Lemma entityParams_kinds st ep :
  entityParams !! st = Some ep ->
  (st = scheduleMinute /\ Range ep = (0, 59)) \/
  (st = scheduleHour /\ Range ep = (0, 23)) \/
  (st = scheduleDay /\ Range ep = (1, 31)) \/
  (st = scheduleMonth /\ Range ep = (1, 12)) \/
  (st = scheduleDayOfWeek /\ Range ep = (0, 7)).
Proof.
  unfold entityParams. intros H.
  repeat (apply lookup_insert_Some in H as [[<- <-]|[? H]]; [tauto|]).
  apply lookup_singleton_Some in H as [<- <-]. tauto.
Qed.

Lemma stepLoop_In v hi incr fuel : forall i cnt acc,
  In v (stepLoop fuel i hi incr cnt acc) -> In v acc \/ i <= v <= hi.
Proof.
  induction fuel as [|fuel IH]; intros i cnt acc H; simpl in H; [tauto|].
  destruct (Z.leb_spec i hi); [|tauto].
  apply IH in H as [H|H]; [|lia].
  destruct (Z.rem cnt incr =? 0); [|tauto].
  apply in_app_iff in H as [H|[<-|[]]]; [tauto|lia].
Qed.

Lemma fillLoop_In v hi fuel : forall i acc,
  In v (fillLoop fuel i hi acc) -> In v acc \/ i <= v <= hi.
Proof.
  induction fuel as [|fuel IH]; intros i acc H; simpl in H; [tauto|].
  destruct (Z.leb_spec i hi); [|tauto].
  apply IH in H as [H|H]; [|lia].
  apply in_app_iff in H as [H|[<-|[]]]; [tauto|lia].
Qed.

Lemma expandItem_domain raw rng item acc acc' :
  expandItem raw rng item acc = inl acc' ->
  (forall v, In v acc -> inDomain rng v) ->
  forall v, In v acc' -> inDomain rng v.
Proof.
  unfold expandItem.
  destruct (length (SplitN item "/" 2) =? 2)%nat.
  - destruct (parseRange _ rng) as [r [e|]] eqn:Hr; [discriminate|].
    destruct (ParseUint _) as [inc e]. destruct (_ || _); [discriminate|].
    intros H Hacc v Hv. injection H as <-.
    apply stepLoop_In in Hv as [Hv|Hv]; [auto|].
    apply parseRange_bounds in Hr as [->|Hr]; unfold inDomain; lia.
  - destruct (ParseUint item) as [n [e|]].
    + destruct (parseRange item rng) as [r [e'|]] eqn:Hr; [discriminate|].
      intros H Hacc v Hv. injection H as <-.
      apply fillLoop_In in Hv as [Hv|Hv]; [auto|].
      apply parseRange_bounds in Hr as [->|Hr]; unfold inDomain; lia.
    + destruct (_ || _) eqn:Hc; [discriminate|].
      intros H Hacc v Hv. injection H as <-.
      apply in_app_iff in Hv as [Hv|[<-|[]]]; [auto|].
      apply orb_false_iff in Hc. unfold inDomain. lia.
Qed.

Lemma expandItems_domain raw rng items : forall acc acc',
  expandItems raw rng items acc = inl acc' ->
  (forall v, In v acc -> inDomain rng v) ->
  forall v, In v acc' -> inDomain rng v.
Proof.
  induction items as [|item items IH]; intros acc acc' H Hacc; simpl in H.
  - injection H as <-. assumption.
  - destruct (expandItem raw rng item acc) as [acc1|e] eqn:H1; [|discriminate].
    eapply IH; [exact H|]. eapply expandItem_domain; eauto.
Qed.

End RangeFacts.

(** ** The loops of [init] *)

Module ExpandFacts.
Import Go Spec RegexpFacts Crontabparser RangeFacts SortFacts.

Lemma expand_Some caseTable raw st l :
  expand caseTable raw st = Some l <->
  exists ep acc, entityParams !! st = Some ep /\
                 collect caseTable ep raw = inl acc /\
                 l = Ints (uniq ∅ (addSunday st acc) []).
Proof.
  unfold expand, newScheduleEntity, init. cbn [typ Crontabparser.raw].
  destruct (entityParams !! st) as [ep|]; simpl.
  - destruct (collect caseTable ep raw) as [acc|e] eqn:Hc; simpl.
    + split.
      * intros H. injection H as <-. exists ep, acc. repeat split. assumption.
      * intros (ep' & acc' & H1 & H2 & ->). congruence.
    + split; [discriminate|]. intros (ep' & acc' & H1 & H2 & _). congruence.
  - split; [discriminate|]. intros (ep' & acc' & H1 & _). discriminate.
Qed.

Lemma addSunday_In st acc v :
  In v (addSunday st acc) <->
  In v acc \/ (st = scheduleDayOfWeek /\ v = 0 /\ In 7 acc).
Proof.
  unfold addSunday. destruct (Z.eqb_spec st scheduleDayOfWeek) as [->|Hne].
  - destruct (hasSunday acc) eqn:Hs.
    + apply hasSunday_In in Hs. rewrite in_app_iff. simpl. intuition.
    + assert (~ In 7 acc) by (rewrite <- hasSunday_In; congruence). tauto.
  - tauto.
Qed.

Lemma fromTo_In lo hi v : In v (fromTo lo hi) <-> lo <= v <= hi.
Proof.
  unfold fromTo. rewrite in_map_iff. split.
  - intros (k & <- & Hk). apply in_seq in Hk. lia.
  - intros H. exists (Z.to_nat (v - lo)). split; [lia|]. apply in_seq. lia.
Qed.

Lemma fromTo_nil lo hi : hi < lo -> fromTo lo hi = [].
Proof. intros H. unfold fromTo. replace (Z.to_nat (hi - lo + 1)) with 0%nat by lia. reflexivity. Qed.

Lemma fromTo_cons lo hi : lo <= hi -> fromTo lo hi = lo :: fromTo (lo + 1) hi.
Proof.
  intros H. unfold fromTo.
  replace (Z.to_nat (hi - lo + 1)) with (S (Z.to_nat (hi - (lo + 1) + 1))) by lia.
  simpl. f_equal; [lia|].
  rewrite <- seq_shift, map_map. apply map_ext. intros k. lia.
Qed.

Lemma fillLoop_fromTo hi fuel : forall i acc,
  fuel = trips i hi -> fillLoop fuel i hi acc = acc ++ fromTo i hi.
Proof.
  unfold trips.
  induction fuel as [|fuel IH]; intros i acc Hf; simpl.
  - rewrite fromTo_nil by lia. rewrite app_nil_r. reflexivity.
  - destruct (Z.leb_spec i hi); [|lia].
    rewrite IH by lia. rewrite (fromTo_cons i hi) by lia.
    rewrite <- app_assoc. reflexivity.
Qed.

Lemma stepLoop_filter hi incr fuel : forall i cnt acc,
  fuel = trips i hi ->
  stepLoop fuel i hi incr cnt acc
  = acc ++ List.filter (fun v => Z.rem (cnt + (v - i)) incr =? 0) (fromTo i hi).
Proof.
  unfold trips.
  induction fuel as [|fuel IH]; intros i cnt acc Hf; simpl.
  - rewrite fromTo_nil by lia. simpl. rewrite app_nil_r. reflexivity.
  - destruct (Z.leb_spec i hi); [|lia].
    rewrite IH by lia. rewrite (fromTo_cons i hi) by lia. simpl.
    replace (cnt + (i - i)) with cnt by lia.
    assert (E : List.filter (fun v => Z.rem (cnt + 1 + (v - (i + 1))) incr =? 0)
                       (fromTo (i + 1) hi)
                = List.filter (fun v => Z.rem (cnt + (v - i)) incr =? 0) (fromTo (i + 1) hi)).
    { apply List.filter_ext. intros v. f_equal. f_equal. lia. }
    rewrite E. destruct (Z.rem cnt incr =? 0); [|reflexivity].
    rewrite <- app_assoc. reflexivity.
Qed.

Lemma strict_ext (l1 : list Z) : forall l2,
  StronglySorted Z.lt l1 -> StronglySorted Z.lt l2 ->
  (forall v, In v l1 <-> In v l2) -> l1 = l2.
Proof.
  induction l1 as [|x l1 IH]; intros l2 H1 H2 Hext.
  - destruct l2 as [|y l2]; [reflexivity|]. exfalso. apply (Hext y). simpl. tauto.
  - destruct l2 as [|y l2]; [exfalso; apply (Hext x); simpl; tauto|].
    apply StronglySorted_inv in H1 as [H1 Hx], H2 as [H2 Hy].
    rewrite List.Forall_forall in Hx, Hy.
    assert (x = y) as <-.
    { destruct (proj1 (Hext x) (or_introl eq_refl)) as [E|Hin]; [congruence|].
      destruct (proj2 (Hext y) (or_introl eq_refl)) as [E|Hin']; [congruence|].
      specialize (Hx _ Hin'). specialize (Hy _ Hin). lia. }
    f_equal. apply IH; auto.
    intros v. split; intros Hv.
    + destruct (proj1 (Hext v) (or_intror Hv)) as [<-|?]; [|assumption].
      specialize (Hx _ Hv). lia.
    + destruct (proj2 (Hext v) (or_intror Hv)) as [<-|?]; [|assumption].
      specialize (Hy _ Hv). lia.
Qed.

Lemma strict_filter f (l : list Z) :
  StronglySorted Z.lt l -> StronglySorted Z.lt (List.filter f l).
Proof.
  induction 1 as [|x l Hs IH Hall]; simpl; [constructor|].
  destruct (f x); [|assumption].
  constructor; [assumption|].
  rewrite List.Forall_forall in *. intros v Hv. apply List.filter_In in Hv as [Hv _]. auto.
Qed.

Lemma strict_map_seq (f : nat -> Z) len : forall start,
  (forall i j, (i < j)%nat -> f i < f j) ->
  StronglySorted Z.lt (map f (seq start len)).
Proof.
  induction len as [|len IH]; intros start Hf; simpl; constructor.
  - apply IH. assumption.
  - apply List.Forall_forall. intros v Hv. apply in_map_iff in Hv as (k & <- & Hk).
    apply in_seq in Hk. apply Hf. lia.
Qed.

Lemma fromTo_strict lo hi : StronglySorted Z.lt (fromTo lo hi).
Proof. apply strict_map_seq. intros; lia. Qed.

Lemma everyStep_strict a b s : 0 < s -> StronglySorted Z.lt (everyStep a b s).
Proof. intros Hs. apply strict_map_seq. intros; nia. Qed.

Lemma everyStep_In a b s v :
  0 < s ->
  In v (everyStep a b s) <-> a <= v <= b /\ (v - a) mod s = 0.
Proof.
  intros Hs. unfold everyStep. rewrite in_map_iff. split.
  - intros (k & <- & Hk). apply in_seq in Hk.
    assert (Hq : Z.of_nat k <= (b - a) / s) by lia.
    assert (Z.of_nat k * s <= b - a).
    { pose proof (Z.mul_div_le (b - a) s Hs). nia. }
    split; [nia|].
    replace (a + Z.of_nat k * s - a) with (Z.of_nat k * s) by lia.
    apply Z.mod_mul. lia.
  - intros [Hv Hm].
    assert (E : v - a = s * ((v - a) / s)).
    { pose proof (Z.div_mod (v - a) s ltac:(lia)). lia. }
    assert (0 <= (v - a) / s) by (apply Z.div_pos; lia).
    assert ((v - a) / s <= (b - a) / s) by (apply Z.div_le_mono; lia).
    exists (Z.to_nat ((v - a) / s)). split; [nia|]. apply in_seq. lia.
Qed.

(** With a positive step the counter test keeps the values the spec
    lists. *)
Lemma stepLoop_everyStep a b s acc :
  0 < s -> stepLoop (trips a b) a b s 0 acc = acc ++ everyStep a b s.
Proof.
  intros Hs. rewrite stepLoop_filter by reflexivity. f_equal.
  apply strict_ext.
  - apply strict_filter, fromTo_strict.
  - apply everyStep_strict. assumption.
  - intros v. rewrite List.filter_In, fromTo_In, everyStep_In by assumption.
    rewrite Z.eqb_eq. replace (0 + (v - a)) with (v - a) by lia.
    split; intros [Hv Hr]; (split; [assumption|]).
    + rewrite <- Z.rem_mod_nonneg by lia. assumption.
    + rewrite Z.rem_mod_nonneg by lia. assumption.
Qed.

Lemma splitOn_no_sep sep s : forall limit cur,
  ~ In sep s -> splitOn sep limit cur s = [cur ++ s].
Proof.
  induction s as [|c s IH]; intros limit cur Hs; simpl.
  - rewrite app_nil_r. reflexivity.
  - assert (Ascii.eqb c sep = false) as E
        by (apply Ascii.eqb_neq; intros ->; apply Hs; simpl; tauto).
    assert (~ In sep s) by (simpl in Hs; tauto).
    destruct limit; [|rewrite E]; rewrite IH by assumption;
      rewrite <- app_assoc; reflexivity.
Qed.

Lemma splitOn_zero sep s : forall cur, splitOn sep 0 cur s = [cur ++ s].
Proof.
  induction s as [|c s IH]; intros cur; simpl.
  - rewrite app_nil_r. reflexivity.
  - rewrite IH, <- app_assoc. reflexivity.
Qed.

Lemma splitOn_first sep s t : forall cur,
  ~ In sep s -> splitOn sep 1 cur (s ++ sep :: t) = [cur ++ s; t].
Proof.
  induction s as [|c s IH]; intros cur Hs; simpl.
  - rewrite Ascii.eqb_refl, splitOn_zero, app_nil_r. reflexivity.
  - assert (Ascii.eqb c sep = false) as ->
        by (apply Ascii.eqb_neq; intros ->; apply Hs; simpl; tauto).
    rewrite IH by (simpl in Hs; tauto). rewrite <- app_assoc. reflexivity.
Qed.

Lemma parseRange_no_slash item rng r :
  parseRange item rng = (r, None) -> ~ In "/"%char item.
Proof.
  unfold parseRange. destruct (decide _) as [->|_].
  - intros _ [H|[]]. discriminate.
  - destruct (FindStringSubmatch rangeReg 2 item) as [m|] eqn:Hm; [|discriminate].
    intros _. apply rangeReg_sound in Hm as (da & db & [_ Ha] & [_ Hb] & ->).
    intros Hin. apply in_app_iff in Hin as [Hin|[Hin|Hin]]; [|discriminate|].
    + rewrite forallb_forall in Ha. apply Ha in Hin. discriminate.
    + rewrite forallb_forall in Hb. apply Hb in Hin. discriminate.
Qed.

Lemma SplitN_first sep s t :
  ~ In sep s -> SplitN (s ++ sep :: t) sep 2 = [s; t].
Proof.
  intros H. unfold SplitN. change (2 =? 0) with false. change (2 <? 0) with false.
  cbv iota. change (Z.to_nat (2 - 1)) with 1%nat.
  rewrite splitOn_first by assumption. reflexivity.
Qed.

(** The stepped item of the spec, for a step below the range of [int]. *)
Lemma stepped_item raw rng R s a b n acc :
  parseRange R rng = ((a, b), None) ->
  ParseUint s = (n, None) -> 0 < n < 2 ^ 63 ->
  expandItem raw rng (R ++ "/"%char :: s) acc = inl (acc ++ everyStep a b n).
Proof.
  intros HR Hs Hn. unfold expandItem.
  rewrite SplitN_first by (eapply parseRange_no_slash; eauto).
  cbn [app length Nat.eqb index nth]. rewrite HR, Hs.
  cbn [fst snd].
  rewrite bool_decide_eq_true_2 by reflexivity. cbn [negb orb].
  destruct (Z.eqb_spec n 0); [lia|].
  unfold intOfUint64. destruct (Z.ltb_spec n (2 ^ 63)); [|lia].
  rewrite stepLoop_everyStep by lia. reflexivity.
Qed.

Lemma replaceAliases_fold aliases : forall i text,
  replaceAliases i aliases text =
  fold_left (fun t '(i, alias) =>
               if bool_decide (alias = []) then t
               else Replace t alias (Sprintf_d i))
            (combine (seq i (length aliases)) aliases) text.
Proof.
  induction aliases as [|v aliases IH]; intros i text; simpl; [reflexivity|].
  rewrite IH. destruct v; reflexivity.
Qed.

Lemma hasPrefix_app old post : hasPrefix (old ++ post) old = true.
Proof.
  induction old as [|c old IH]; simpl; [destruct post; reflexivity|].
  rewrite Ascii.eqb_refl. assumption.
Qed.

Lemma hasPrefix_head c s old :
  ~ In c old -> old <> [] -> hasPrefix (c :: s) old = false.
Proof.
  destruct old as [|o old]; [congruence|]. intros Hc _. simpl.
  assert (Ascii.eqb o c = false) as -> by (apply Ascii.eqb_neq; intros ->; apply Hc; simpl; tauto).
  reflexivity.
Qed.

Lemma replaceFrom_skip old new post : forall skip pre,
  length pre = skip ->
  replaceFrom old new skip (pre ++ post) = replaceFrom old new 0 post.
Proof.
  induction skip as [|skip IH]; intros pre Hlen.
  - destruct pre; [reflexivity|discriminate].
  - destruct pre as [|c pre]; [discriminate|]. simpl. apply IH. simpl in Hlen. lia.
Qed.

(** An occurrence is replaced wherever it stands: what comes before it
    only has to be free of the bytes of [old], what comes after is
    arbitrary. *)
Lemma Replace_occurrence old new pre post :
  old <> [] -> (forall c, In c pre -> ~ In c old) ->
  Replace (pre ++ old ++ post) old new = pre ++ new ++ Replace post old new.
Proof.
  intros Hold Hpre. unfold Replace. destruct old as [|o old]; [congruence|].
  induction pre as [|c pre IH].
  - simpl. rewrite Ascii.eqb_refl, hasPrefix_app. simpl. rewrite Nat.sub_0_r.
    rewrite replaceFrom_skip by reflexivity. reflexivity.
  - simpl. 
    assert (Ascii.eqb o c = false) as ->
        by (apply Ascii.eqb_neq; intros ->; apply (Hpre c); simpl; tauto).
    simpl. f_equal. apply IH. intros c' Hc'. apply Hpre. simpl. tauto.
Qed.

Lemma Replace_absent old new s :
  old <> [] -> (forall c, In c s -> ~ In c old) -> Replace s old new = s.
Proof.
  intros Hold Hs. unfold Replace. destruct old as [|o old]; [congruence|].
  induction s as [|c s IH]; [reflexivity|].
  simpl.
  assert (Ascii.eqb o c = false) as ->
      by (apply Ascii.eqb_neq; intros ->; apply (Hs c); simpl; tauto).
  simpl. f_equal. apply IH. intros c' Hc'. apply Hs. simpl. tauto.
Qed.

Lemma hasPrefix_firstn old : forall s,
  hasPrefix s old = true <-> firstn (length old) s = old.
Proof.
  induction old as [|p old IH]; intros s; [destruct s; simpl; tauto|].
  destruct s as [|c s]; cbn [hasPrefix length firstn].
  - split; discriminate.
  - rewrite andb_true_iff, Ascii.eqb_eq, IH. split.
    + intros [-> ->]. reflexivity.
    + intros E. injection E as -> E. split; [reflexivity|exact E].
Qed.

Lemma occursAt_0 old s : occursAt old s 0 <-> hasPrefix s old = true.
Proof. unfold occursAt. cbn [skipn]. symmetry. apply hasPrefix_firstn. Qed.

Lemma occursAt_S old c s i : occursAt old (c :: s) (S i) <-> occursAt old s i.
Proof. unfold occursAt. cbn [skipn]. tauto. Qed.

(** Without an occurrence nothing changes. *)
Lemma Replace_nowhere old new s :
  old <> [] -> (forall i, ~ occursAt old s i) -> Replace s old new = s.
Proof.
  intros Hold Hs. unfold Replace. destruct old as [|o old]; [congruence|]. clear Hold.
  induction s as [|c s IH]; [reflexivity|].
  cbn [replaceFrom].
  destruct (hasPrefix (c :: s) (o :: old)) eqn:E.
  - apply occursAt_0 in E. destruct (Hs 0%nat E).
  - f_equal. apply IH. intros i Hi. apply (Hs (S i)). apply occursAt_S. exact Hi.
Qed.

(** The leftmost occurrence is replaced, and the text after it is
    treated the same way. *)
Lemma Replace_leftmost old new pre post :
  old <> [] ->
  (forall i, (i < length pre)%nat -> ~ occursAt old (pre ++ old ++ post) i) ->
  Replace (pre ++ old ++ post) old new = pre ++ new ++ Replace post old new.
Proof.
  intros Hold Hpre. unfold Replace. destruct old as [|o old]; [congruence|]. clear Hold.
  induction pre as [|c pre IH].
  - cbn [app replaceFrom].
    change (o :: old ++ post) with ((o :: old) ++ post).
    rewrite hasPrefix_app. cbn [length Nat.sub]. rewrite Nat.sub_0_r.
    rewrite replaceFrom_skip by reflexivity. reflexivity.
  - change ((c :: pre) ++ (o :: old) ++ post) with (c :: (pre ++ (o :: old) ++ post)) in *.
    change ((c :: pre) ++ new ++ replaceFrom (o :: old) new 0 post)
      with (c :: (pre ++ new ++ replaceFrom (o :: old) new 0 post)).
    remember (pre ++ (o :: old) ++ post) as rest eqn:Hrest.
    cbn [replaceFrom].
    destruct (hasPrefix (c :: rest) (o :: old)) eqn:E.
    + apply occursAt_0 in E. destruct (Hpre 0%nat ltac:(simpl; lia) E).
    + f_equal. apply IH. intros i Hi Hocc.
      apply (Hpre (S i) ltac:(simpl; lia)). apply occursAt_S. exact Hocc.
Qed.

(** Either [old] stands nowhere in [s], or it has a leftmost
    occurrence. *)
Lemma leftmost_occurrence old s :
  (forall i, ~ occursAt old s i) \/
  exists pre post, s = pre ++ old ++ post /\
                   forall i, (i < length pre)%nat -> ~ occursAt old s i.
Proof.
  induction s as [|c s IH].
  - destruct old as [|o old].
    + right. exists [], []. split; [reflexivity|]. intros i Hi. simpl in Hi. lia.
    + left. intros i H. unfold occursAt in H. rewrite skipn_nil in H. discriminate H.
  - destruct (hasPrefix (c :: s) old) eqn:E.
    + right. apply hasPrefix_firstn in E.
      exists [], (skipn (length old) (c :: s)). split.
      * cbn [app]. rewrite <- E at 1. symmetry. apply firstn_skipn.
      * intros i Hi. simpl in Hi. lia.
    + assert (H0 : ~ occursAt old (c :: s) 0)
        by (rewrite occursAt_0; congruence).
      destruct IH as [Hnone|(pre & post & -> & Hpre)].
      * left. intros [|i]; [exact H0|]. rewrite occursAt_S. apply Hnone.
      * right. exists (c :: pre), post. split; [reflexivity|].
        intros [|i] Hi; [exact H0|]. rewrite occursAt_S. apply Hpre. simpl in Hi. lia.
Qed.

(** [strings.Replace] replaces every occurrence. *)
Lemma Replace_replacedAll old new : forall fuel s,
  old <> [] -> (length s <= fuel)%nat -> replacedAll old new s (Replace s old new).
Proof.
  induction fuel as [|fuel IH]; intros s Hold Hlen.
  - destruct s; [|simpl in Hlen; lia].
    rewrite Replace_nowhere; [apply replaced_none| assumption|];
      intros i H; unfold occursAt in H; rewrite skipn_nil in H;
      destruct old; [congruence|discriminate H| congruence | discriminate H].
  - destruct (leftmost_occurrence old s) as [Hnone|(pre & post & -> & Hpre)].
    + rewrite Replace_nowhere by assumption. apply replaced_none. exact Hnone.
    + rewrite Replace_leftmost by assumption.
      apply replaced_first; [exact Hpre|]. apply IH; [assumption|].
      rewrite !length_app in Hlen. destruct old; [congruence|]. simpl in Hlen. lia.
Qed.

(** What replaces every occurrence is what [strings.Replace] returns. *)
Lemma replacedAll_Replace old new s t :
  old <> [] -> replacedAll old new s t -> t = Replace s old new.
Proof.
  intros Hold H. induction H as [s Hnone|pre post t Hpre _ IH].
  - symmetry. apply Replace_nowhere; assumption.
  - rewrite Replace_leftmost by assumption. rewrite IH. reflexivity.
Qed.

Lemma replaceAliases_replaced aliases : forall i text,
  aliasesReplaced i aliases text (replaceAliases i aliases text).
Proof.
  induction aliases as [|v aliases IH]; intros i text; cbn [replaceAliases].
  - constructor.
  - destruct v as [|v0 v'].
    + apply aliases_empty, IH.
    + eapply aliases_next; [discriminate| |apply IH].
      apply (Replace_replacedAll _ _ (length text)); [discriminate|lia].
Qed.

Lemma aliasesReplaced_unique i aliases text u :
  aliasesReplaced i aliases text u -> u = replaceAliases i aliases text.
Proof.
  induction 1 as [i t|i aliases t u _ IH|i alias aliases t t' u Hne Hr _ IH];
    cbn [replaceAliases].
  - reflexivity.
  - exact IH.
  - apply (replacedAll_Replace _ _ _ _ Hne) in Hr. subst t'.
    destruct alias; [congruence|]. exact IH.
Qed.

Lemma byteof_byteval c : byteof (byteval c) = c.
Proof.
  unfold byteof, byteval. rewrite N2Z.id. apply ascii_N_embedding.
Qed.

Lemma byteval_range c : 0 <= byteval c < 256.
Proof.
  unfold byteval. pose proof (N_ascii_bounded c). lia.
Qed.

Lemma Map_ascii_step mapping c s :
  byteval c < 0x80 ->
  Map mapping 0 (c :: s)
  = (if 0 <=? mapping (byteval c) then EncodeRune (mapping (byteval c)) else [])
      ++ Map mapping 0 s.
Proof.
  intros Hc. cbn [Map]. unfold DecodeRuneInString, RuneSelf.
  destruct (Z.ltb_spec (byteval c) 128) as [_|]; [|lia].
  reflexivity.
Qed.

Lemma lower_ascii_byte caseTable c :
  byteval c < 0x80 ->
  (if 0 <=? unicodeToLower caseTable (byteval c)
   then EncodeRune (unicodeToLower caseTable (byteval c)) else [])
  = [lowerByte c].
Proof.
  intros Hc. pose proof (byteval_range c) as Hr.
  unfold unicodeToLower, lowerByte.
  destruct (Z.leb_spec (byteval c) 127) as [_|]; [|lia].
  destruct ((65 <=? byteval c) && (byteval c <=? 90)) eqn:Hu.
  - apply andb_true_iff in Hu.
    destruct (Z.leb_spec 0 (byteval c + 32)); [|lia].
    unfold EncodeRune.
    destruct (Z.leb_spec 0 (byteval c + 32)); [|lia].
    destruct (Z.leb_spec (byteval c + 32) 127); [|lia].
    reflexivity.
  - destruct (Z.leb_spec 0 (byteval c)); [|lia].
    unfold EncodeRune.
    destruct (Z.leb_spec 0 (byteval c)); [|lia].
    destruct (Z.leb_spec (byteval c) 127); [|lia].
    simpl. rewrite byteof_byteval. reflexivity.
Qed.

(** On ASCII text [strings.ToLower] works byte by byte and never looks
    at the case tables. *)
Lemma ToLower_ascii caseTable s :
  (forall c, In c s -> byteval c < 0x80) ->
  ToLower caseTable s = map lowerByte s.
Proof.
  unfold ToLower. induction s as [|c s IH]; intros Hs; [reflexivity|].
  rewrite Map_ascii_step by (apply Hs; simpl; tauto).
  rewrite lower_ascii_byte by (apply Hs; simpl; tauto).
  rewrite IH by (intros; apply Hs; simpl; tauto). reflexivity.
Qed.

(** [Match] tells whether the number is in the expanded list; on a nil
    entity it is false. *)
Lemma Match_In se num :
  Match se num = true <-> exists e, se = Some e /\ In num (expanded e).
Proof.
  destruct se as [e|]; simpl.
  - rewrite existsb_exists. split.
    + intros (i & Hi & E). apply Z.eqb_eq in E. subst i. eauto.
    + intros (e' & E & Hin). injection E as <-. exists num. split; [assumption|].
      apply Z.eqb_refl.
  - split; [discriminate|]. intros (e & E & _). discriminate.
Qed.

End ExpandFacts.

(** ** Decoding and the loop of [fieldsN] *)

Module FieldsFacts.
Import Go Spec RegexpFacts Checron.

Lemma RuneError_bytes : length (EncodeRune RuneError) = 3%nat.
Proof. reflexivity. Qed.

Lemma decode_width s : s <> [] -> (1 <= snd (DecodeRuneInString s) <= 4)%nat.
Proof.
  destruct s as [|c0 t]; [congruence|]. intros _. unfold DecodeRuneInString.
  repeat match goal with
         | |- context [if ?b then _ else _] => destruct b
         | |- context [match ?x with _ => _ end] => destruct x
         end; simpl; lia.
Qed.

(** A rune that is written back as it was read is read the same way
    whatever follows it. *)
Lemma decode_app s tail r w :
  DecodeRuneInString s = (r, w) -> EncodeRune r = firstn w s ->
  DecodeRuneInString (s ++ tail) = (r, w).
Proof.
  intros Hd He.
  assert (Hlen : (r, w) = (RuneError, 1%nat) -> False).
  { intros E. injection E as -> ->. apply (f_equal (@length ascii)) in He.
    rewrite RuneError_bytes, length_firstn in He. lia. }
  destruct s as [|c0 t].
  { simpl in Hd. injection Hd as <- <-. apply (f_equal (@length ascii)) in He.
    rewrite RuneError_bytes in He. simpl in He. lia. }
  revert Hd. unfold DecodeRuneInString. cbn [app]. cbv beta iota.
  destruct (byteval c0 <? RuneSelf); [auto|].
  destruct (leadInfo (byteval c0)) as [[[sz lo] hi]|]; [|auto].
  destruct (Nat.ltb_spec (length (c0 :: t)) sz) as [Hs|Hs].
  { intros E. symmetry in E. destruct (Hlen E). }
  destruct (Nat.ltb_spec (length (c0 :: t ++ tail)) sz) as [Hs'|Hs'].
  { simpl in Hs, Hs'. rewrite length_app in Hs'. lia. }
  destruct t as [|c1 t1]; cbn [app]; cbv beta iota.
  { intros E. symmetry in E. destruct (Hlen E). }
  destruct (_ || _); [auto|].
  destruct (sz <=? 2)%nat; [auto|].
  destruct t1 as [|c2 t2]; cbn [app]; cbv beta iota.
  { intros E. symmetry in E. destruct (Hlen E). }
  destruct (negb (contByte (byteval c2))); [auto|].
  destruct (sz <=? 3)%nat; [auto|].
  destruct t2 as [|c3 t3]; cbn [app]; cbv beta iota.
  { intros E. symmetry in E. destruct (Hlen E). }
  auto.
Qed.

Lemma runesAll_length P s : forall pending,
  runesAll P pending s = true -> (pending <= length s)%nat.
Proof.
  induction s as [|c s IH]; intros pending H; simpl in H.
  - apply Nat.eqb_eq in H. simpl. lia.
  - destruct pending; [simpl; lia|]. apply IH in H. simpl. lia.
Qed.

Lemma skipn_firstn_rest {A} (w : nat) (c : A) (s : list A) :
  (1 <= w)%nat -> firstn w (c :: s) ++ skipn (w - 1) s = c :: s.
Proof.
  intros Hw. destruct w as [|w]; [lia|].
  simpl. rewrite Nat.sub_0_r, firstn_skipn. reflexivity.
Qed.

(** Over a well-encoded run without spaces the loop of [fieldsN] copies
    the bytes to the buffer and moves the offset past them. *)
Lemma fieldsLoop_run whole tail s : forall pending st,
  runesAll notSpace pending s = true -> 2 <= n st ->
  fieldsLoop whole pending (s ++ tail) st
  = fieldsLoop whole 0 tail
               (mkSplitter (n st) (offset st + Z.of_nat (length s - pending))
                           (buf st ++ skipn pending s) (flds st)).
Proof.
  induction s as [|c s IH]; intros pending st Hr Hn.
  - simpl in Hr. apply Nat.eqb_eq in Hr. subst pending. simpl.
    rewrite Z.add_0_r, app_nil_r. destruct st; reflexivity.
  - destruct pending as [|p].
    + cbn [runesAll] in Hr.
      destruct (DecodeRuneInString (c :: s)) as [r w] eqn:Hd.
      apply andb_true_iff in Hr as [Hr Hrest]. apply andb_true_iff in Hr as [Hp He].
      apply bool_decide_eq_true in He.
      pose proof (decode_width (c :: s) ltac:(discriminate)) as Hw.
      rewrite Hd in Hw. simpl in Hw.
      pose proof (runesAll_length _ _ _ Hrest) as Hl.
      cbn [app fieldsLoop].
      change (c :: s ++ tail) with ((c :: s) ++ tail).
      rewrite (decode_app _ tail _ _ Hd He).
      destruct (Z.ltb_spec (n st) 2); [lia|].
      unfold notSpace in Hp. apply negb_true_iff in Hp. rewrite Hp.
      rewrite IH by (simpl; auto). cbn [n offset buf flds].
      f_equal. f_equal.
      * rewrite He, length_firstn. simpl length. lia.
      * rewrite <- app_assoc. f_equal. rewrite He. simpl skipn.
        apply skipn_firstn_rest. lia.
    + cbn [runesAll] in Hr. cbn [app fieldsLoop].
      rewrite IH by assumption. reflexivity.
Qed.

(** The bytes of a rune that [range] has already decoded are passed
    over. *)
Lemma fieldsLoop_pending whole tail st pre :
  fieldsLoop whole (length pre) (pre ++ tail) st = fieldsLoop whole 0 tail st.
Proof.
  induction pre as [|c pre IH]; [reflexivity|]. simpl. exact IH.
Qed.

(** [fieldsN s 2] on a token, one space and more text: the token, and
    the rest trimmed. *)
Lemma fieldsN_two s tok sp rest :
  TrimSpace s = tok ++ sp ++ rest ->
  token tok -> spaceRune sp -> rest <> [] ->
  fieldsN s 2 = Returns [tok; TrimSpace rest].
Proof.
  intros Hs [Htok Hrun] [Hsp (r & Hd & Hspace & He)] Hrest.
  unfold fieldsN. rewrite Hs. set (whole := tok ++ sp ++ rest).
  unfold whole at 2.
  rewrite fieldsLoop_run by (simpl; auto; lia).
  cbn [n offset buf flds]. rewrite Nat.sub_0_r. change (skipn 0 tok) with tok.
  change ([] ++ tok) with tok.
  destruct sp as [|c sp']; [congruence|].
  cbn [app fieldsLoop].
  change (c :: sp' ++ rest) with ((c :: sp') ++ rest).
  rewrite (decode_app _ rest _ _ Hd) by (rewrite firstn_all; assumption).
  cbn [n offset buf flds]. change (2 <? 2) with false. cbv iota.
  rewrite Hspace.
  assert ((0 <? length tok)%nat = true) as ->
      by (apply Nat.ltb_lt; destruct tok; [congruence|simpl; lia]).
  replace (length (c :: sp') - 1)%nat with (length sp') by (simpl; lia).
  rewrite fieldsLoop_pending.
  destruct rest as [|c' rest']; [congruence|].
  cbn [fieldsLoop]. destruct (DecodeRuneInString (c' :: rest')) as [r' w'].
  cbn [n offset buf flds]. change (2 - 1 <? 2) with true. cbv iota.
  unfold sliceFrom. rewrite He.
  assert (Hoff : 0 + Z.of_nat (length tok) + Z.of_nat (length (c :: sp'))
                 = Z.of_nat (length (tok ++ c :: sp'))) by (rewrite length_app; lia).
  rewrite Hoff.
  destruct (Z.ltb_spec (Z.of_nat (length (tok ++ c :: sp'))) 0); [lia|].
  assert (Hlen : length whole = (length (tok ++ c :: sp') + length (c' :: rest'))%nat).
  { unfold whole. rewrite !length_app. lia. }
  destruct (Z.ltb_spec (Z.of_nat (length whole)) (Z.of_nat (length (tok ++ c :: sp'))));
    [lia|].
  cbn [orb obind]. rewrite Nat2Z.id.
  unfold whole. rewrite app_assoc, skipn_app, skipn_all, Nat.sub_diag. 
  reflexivity.
Qed.

(** [fieldsN s 2] on a lone token, and on nothing. *)
Lemma fieldsN_one s tok :
  TrimSpace s = tok -> token tok -> fieldsN s 2 = Returns [tok].
Proof.
  intros Hs [Htok Hrun]. unfold fieldsN. rewrite Hs.
  rewrite <- (app_nil_r tok) at 2.
  rewrite fieldsLoop_run by (simpl; auto; lia).
  cbn [fieldsLoop obind n offset buf flds]. change (skipn 0 tok) with tok.
  change ([] ++ tok) with tok.
  assert ((0 <? length tok)%nat = true) as ->
      by (apply Nat.ltb_lt; destruct tok; [congruence|simpl; lia]).
  reflexivity.
Qed.

Lemma fieldsN_none s : TrimSpace s = [] -> fieldsN s 2 = Returns [].
Proof. intros Hs. unfold fieldsN. rewrite Hs. reflexivity. Qed.

(** On well-encoded text the offset of [fieldsN] is the number of bytes
    [range] has passed, and the slice expression stays inside the text. *)
Lemma fieldsLoop_returns whole s : forall pending st pre,
  whole = pre ++ s ->
  offset st = Z.of_nat (length pre + pending) ->
  runesAll anyRune pending s = true ->
  exists st', fieldsLoop whole pending s st = Returns st'.
Proof.
  induction s as [|c s IH]; intros pending st pre Hw Ho Hr.
  - simpl. eauto.
  - destruct pending as [|p].
    + cbn [runesAll] in Hr. cbn [fieldsLoop].
      destruct (DecodeRuneInString (c :: s)) as [r w] eqn:Hd.
      apply andb_true_iff in Hr as [Hr Hrest]. apply andb_true_iff in Hr as [_ He].
      apply bool_decide_eq_true in He.
      pose proof (decode_width (c :: s) ltac:(discriminate)) as Hwd.
      rewrite Hd in Hwd. simpl in Hwd.
      pose proof (runesAll_length _ _ _ Hrest) as Hl.
      assert (Hlen : length (EncodeRune r) = w)
        by (rewrite He, length_firstn; simpl length; lia).
      destruct (n st <? 2).
      * unfold sliceFrom.
        destruct (Z.ltb_spec (offset st) 0); [lia|].
        destruct (Z.ltb_spec (Z.of_nat (length whole)) (offset st)).
        { subst whole. rewrite length_app in *. lia. }
        cbn [orb obind]. eauto.
      * assert (Hw' : whole = (pre ++ [c]) ++ s) by (rewrite <- app_assoc; exact Hw).
        destruct (IsSpace r); [destruct (0 <? length (buf st))%nat|];
          eapply IH; try exact Hw'; try exact Hrest;
            cbn [offset]; rewrite Hlen, length_app; simpl length; lia.
    + cbn [runesAll] in Hr. cbn [fieldsLoop].
      eapply (IH p st (pre ++ [c])); [rewrite <- app_assoc; exact Hw| |exact Hr].
      rewrite length_app. simpl length. lia.
Qed.

Lemma fieldsN_returns s n :
  runesAll anyRune 0 (TrimSpace s) = true ->
  exists flds, fieldsN s n = Returns flds.
Proof.
  intros Hr. unfold fieldsN.
  destruct (fieldsLoop_returns (TrimSpace s) (TrimSpace s) 0 (mkSplitter n 0 [] []) [])
    as [st' Hst]; [reflexivity|reflexivity|exact Hr|].
  rewrite Hst. cbn [obind]. eauto.
Qed.

End FieldsFacts.

(** ** The pattern of a job line *)

Module JobFacts.
Import Go Spec RegexpFacts Checron FieldsFacts.

Lemma run_length (f : gostring) : f <> [] -> (1 <= length f)%nat.
Proof. destruct f; [congruence|simpl; lia]. Qed.

Lemma stopsAt_blank_run w rest : blankRun w -> stopsAt notBlank (w ++ rest).
Proof.
  intros [Hw Hall]. destruct w as [|c w]; [congruence|]. simpl in *.
  apply andb_true_iff in Hall as [Hc _]. unfold notBlank. rewrite Hc. reflexivity.
Qed.

Lemma stopsAt_field_run f rest : fieldRun f -> stopsAt isBlank (f ++ rest).
Proof.
  intros [Hw Hall]. destruct f as [|c f]; [congruence|]. simpl in *.
  apply andb_true_iff in Hall as [Hc _]. unfold notBlank in Hc.
  apply negb_true_iff in Hc. assumption.
Qed.

(** A field has to start the text for [\S+\s+] to match. *)
Lemma fieldThenBlank_reject {R} (k : cont R) pos s caps :
  stopsAt notBlank s -> matchAt fieldThenBlank pos s caps k = None.
Proof. intros H. cbn [matchAt fieldThenBlank]. apply repClass_reject. assumption. Qed.

(** [\S+\s+] on a field and the blanks after it takes both whole, when
    what follows has to start with a field. *)
Lemma fieldThenBlank_step {R} (k : cont R) pos f w rest caps :
  fieldRun f -> blankRun w -> stopsAt isBlank rest ->
  (forall pos' s', stopsAt notBlank s' -> s' <> [] -> k pos' s' caps = None) ->
  matchAt fieldThenBlank pos (f ++ w ++ rest) caps k
  = k (pos + length f + length w)%nat rest caps.
Proof.
  intros [Hf Hfa] [Hw Hwa] Hrest Hk. cbn [matchAt fieldThenBlank].
  rewrite repClass_run;
    [|assumption|apply stopsAt_blank_run; split; assumption
     |apply run_length; assumption|exact I|].
  - rewrite repClass_run;
      [reflexivity|assumption|assumption|apply run_length; assumption|exact I|].
    intros j Hj.
    destruct (skipn_run_stops isBlank w rest j Hwa Hj) as (c & t & Hs & Hc).
    rewrite Hs. apply Hk; [|discriminate]. simpl. unfold notBlank. rewrite Hc. reflexivity.
  - intros j Hj.
    destruct (skipn_run_stops notBlank f (w ++ rest) j Hfa Hj) as (c & t & Hs & Hc).
    rewrite Hs. apply repClass_reject. simpl. unfold notBlank in Hc.
    apply negb_true_iff in Hc. assumption.
Qed.

(** [\S+\s+] does not match a field that ends the text. *)
Lemma fieldThenBlank_last {R} (k : cont R) pos f caps :
  fieldRun f -> matchAt fieldThenBlank pos f caps k = None.
Proof.
  intros [Hf Hfa]. cbn [matchAt fieldThenBlank].
  rewrite repClass_run_end;
    [reflexivity|assumption|apply run_length; assumption|exact I|].
  intros j Hj.
  destruct (skipn_run_stops notBlank f [] j Hfa Hj) as (c & t & Hs & Hc).
  rewrite app_nil_r in Hs. rewrite Hs. apply repClass_reject. simpl.
  unfold notBlank in Hc. apply negb_true_iff in Hc. assumption.
Qed.

Lemma Times_S {R} (k : cont R) n re pos s caps :
  matchAt (Times (S n) re) pos s caps k
  = matchAt re pos s caps (fun pos' s' caps' => matchAt (Times n re) pos' s' caps' k).
Proof. reflexivity. Qed.

Lemma Times_reject {R} (k : cont R) n pos s caps :
  stopsAt notBlank s ->
  matchAt (Times (S n) fieldThenBlank) pos s caps k = None.
Proof. intros H. rewrite Times_S. apply fieldThenBlank_reject. assumption. Qed.

Lemma stopsAt_field f : fieldRun f -> stopsAt isBlank f.
Proof.
  intros F. rewrite <- (app_nil_r f). apply stopsAt_field_run. assumption.
Qed.

(** One [\S+\s+] of the five, taken off the front of the text. *)
Ltac take_field :=
  rewrite Times_S, fieldThenBlank_step;
  [ | assumption | assumption
    | first [apply stopsAt_field_run | apply stopsAt_field]; assumption
    | intros; apply Times_reject; assumption ].

(** Five fields with nothing after the fifth: the five repetitions of
    [\S+\s+] fail. *)
Lemma five_fields_reject {R} (k : cont R) pos caps f1 w1 f2 w2 f3 w3 f4 w4 f5 :
  fieldRun f1 -> blankRun w1 -> fieldRun f2 -> blankRun w2 ->
  fieldRun f3 -> blankRun w3 -> fieldRun f4 -> blankRun w4 -> fieldRun f5 ->
  matchAt (Times 5 fieldThenBlank) pos
          (f1 ++ w1 ++ f2 ++ w2 ++ f3 ++ w3 ++ f4 ++ w4 ++ f5) caps k = None.
Proof.
  intros F1 W1 F2 W2 F3 W3 F4 W4 F5.
  do 4 take_field.
  rewrite Times_S. apply fieldThenBlank_last. assumption.
Qed.

Lemma scheduleReg_eq :
  scheduleReg =
  Cat Bol (Cat (Cap 1 (Alt namedSchedule (Times 5 fieldThenBlank)))
               (Cat (Cap 2 (Class notNewline 0 None)) Eol)).
Proof. reflexivity. Qed.

Lemma namedSchedule_reject {R} (k : cont R) pos s caps :
  namedPrefix s = false -> matchAt namedSchedule pos s caps k = None.
Proof.
  intros H. cbn [matchAt namedSchedule].
  destruct s as [|c s]; [reflexivity|].
  rewrite repClass_one. destruct (byteIs "@" c) eqn:Hc; [|reflexivity].
  apply repClass_reject. destruct s as [|d s]; [exact I|].
  simpl in *. rewrite Hc in H. assumption.
Qed.

Lemma matchAt_Cat {R} (k : cont R) r1 r2 pos s caps :
  matchAt (Cat r1 r2) pos s caps k
  = matchAt r1 pos s caps (fun pos' s' caps' => matchAt r2 pos' s' caps' k).
Proof. reflexivity. Qed.

Lemma matchAt_Alt {R} (k : cont R) r1 r2 pos s caps :
  matchAt (Alt r1 r2) pos s caps k
  = match matchAt r1 pos s caps k with
    | Some r => Some r
    | None => matchAt r2 pos s caps k
    end.
Proof. reflexivity. Qed.

Lemma matchAt_Cap {R} (k : cont R) i re pos s caps :
  matchAt (Cap i re) pos s caps k
  = matchAt re pos s caps
            (fun pos' s' caps' => k pos' s' (<[i := firstn (pos' - pos) s]> caps')).
Proof. reflexivity. Qed.

(** Five fields and nothing more do not match the pattern, unless the
    text starts like a named schedule. *)
Lemma scheduleReg_five_fields s f1 w1 f2 w2 f3 w3 f4 w4 f5 :
  s = f1 ++ w1 ++ f2 ++ w2 ++ f3 ++ w3 ++ f4 ++ w4 ++ f5 ->
  fieldRun f1 -> blankRun w1 -> fieldRun f2 -> blankRun w2 ->
  fieldRun f3 -> blankRun w3 -> fieldRun f4 -> blankRun w4 -> fieldRun f5 ->
  namedPrefix s = false ->
  FindStringSubmatch scheduleReg 2 s = None.
Proof.
  intros -> F1 W1 F2 W2 F3 W3 F4 W4 F5 Hn.
  rewrite scheduleReg_eq, find_anchored.
  rewrite matchAt_Cat, matchAt_Cap, matchAt_Alt.
  rewrite namedSchedule_reject by assumption.
  rewrite five_fields_reject by assumption. reflexivity.
Qed.

(** A lone named schedule matches, with nothing in group 2. *)
Lemma scheduleReg_named w :
  w <> [] -> forallb isWord w = true ->
  FindStringSubmatch scheduleReg 2 ("@"%char :: w)
  = Some ["@"%char :: w; "@"%char :: w; []].
Proof.
  intros Hw Hall.
  rewrite scheduleReg_eq, find_anchored.
  rewrite matchAt_Cat, matchAt_Cap, matchAt_Alt.
  unfold namedSchedule at 1. rewrite matchAt_Cat. cbn [matchAt].
  rewrite repClass_one. change (byteIs "@" "@") with true. cbv iota.
  rewrite <- (app_nil_r w) at 1.
  erewrite repClass_greedy;
    [|assumption|exact I|apply run_length; assumption|exact I|reflexivity].
  cbn [map seq]. unfold group.
  rewrite lookup_insert_eq, lookup_insert_ne by lia. rewrite lookup_insert_eq.
  cbn [default]. rewrite Nat.sub_0_r, Nat.sub_diag.
  replace (1 + length w)%nat with (length ("@"%char :: w)) by reflexivity.
  rewrite firstn_all. reflexivity.
Qed.

(** A named schedule and what follows it on the line: group 1 is the
    name, group 2 everything after it, blanks included. *)
Lemma scheduleReg_named_rest w rest :
  w <> [] -> forallb isWord w = true ->
  stopsAt isWord rest -> forallb notNewline rest = true ->
  FindStringSubmatch scheduleReg 2 ("@"%char :: w ++ rest)
  = Some ["@"%char :: w ++ rest; "@"%char :: w; rest].
Proof.
  intros Hw Hall Hstop Hrest.
  rewrite scheduleReg_eq, find_anchored.
  rewrite matchAt_Cat, matchAt_Cap, matchAt_Alt.
  unfold namedSchedule at 1. rewrite matchAt_Cat. cbn [matchAt].
  rewrite repClass_one. change (byteIs "@" "@") with true. cbv iota.
  erewrite repClass_greedy;
    [|assumption|assumption|apply run_length; assumption|exact I|].
  2: { apply repClass_greedy_end; [assumption|lia|exact I|reflexivity]. }
  cbn [map seq]. unfold group.
  rewrite lookup_insert_eq, lookup_insert_ne by lia. rewrite lookup_insert_eq.
  cbn [default]. rewrite !Nat.sub_0_r.
  replace (1 + length w + length rest)%nat with (length ("@"%char :: w ++ rest))
    by (simpl; rewrite length_app; lia).
  rewrite firstn_all.
  replace (length ("@"%char :: w ++ rest) - (1 + length w))%nat with (length rest)
    by (simpl; rewrite length_app; lia).
  rewrite firstn_all.
  change ("@"%char :: w ++ rest) with (("@"%char :: w) ++ rest).
  replace (1 + length w)%nat with (length ("@"%char :: w)) by reflexivity.
  rewrite firstn_app, firstn_all, Nat.sub_diag. simpl firstn. rewrite app_nil_r.
  reflexivity.
Qed.

(** A [\w] is no newline. *)
Lemma word_not_newline c : isWord c = true -> notNewline c = true.
Proof.
  destruct c as [[|] [|] [|] [|] [|] [|] [|] [|]]; vm_compute; congruence.
Qed.

(** What the first alternative matched: an at sign and a run of [\w];
    the continuation was given the text after them. *)
Lemma namedSchedule_sound {R} (k : cont R) pos s caps r :
  matchAt namedSchedule pos s caps k = Some r ->
  exists w rest,
    s = "@"%char :: w ++ rest /\ w <> [] /\ forallb isWord w = true /\
    k (pos + length ("@"%char :: w))%nat rest caps = Some r.
Proof.
  cbn [matchAt namedSchedule]. intros H.
  destruct s as [|c s]; [discriminate H|].
  rewrite repClass_one in H. destruct (byteIs "@" c) eqn:Hc; [|discriminate H].
  apply Ascii.eqb_eq in Hc. subst c.
  apply repClass_sound in H as (j & Hlo & _ & Hlen & Hall & Hk).
  exists (firstn j s), (skipn j s).
  split; [rewrite firstn_skipn; reflexivity|]. split.
  - intros E. apply (f_equal (@length ascii)) in E. rewrite length_firstn in E.
    simpl in E. lia.
  - split; [exact Hall|]. cbn [length]. rewrite length_firstn.
    replace (pos + S (Nat.min j (length s)))%nat with (S pos + j)%nat by lia.
    exact Hk.
Qed.

(** What follows the schedule on a matched line holds no newline. *)
Lemma rest_no_newline {R} (k : cont R) pos s caps r :
  matchAt (Cat (Cap 2 (Class notNewline 0 None)) Eol) pos s caps k = Some r ->
  forallb notNewline s = true.
Proof.
  rewrite matchAt_Cat, matchAt_Cap. cbn [matchAt]. intros H.
  apply repClass_sound in H as (j & _ & _ & Hlen & Hall & Hk).
  destruct (skipn j s) as [|c t] eqn:Hs; [|discriminate Hk].
  rewrite <- (firstn_skipn j s), Hs, app_nil_r. exact Hall.
Qed.

(** The first alternative does not match a line that holds a
    newline. *)
Lemma namedSchedule_newline {R} (k : cont R) s caps :
  forallb notNewline s = false ->
  matchAt (Cap 1 namedSchedule) 0 s caps
          (fun pos' s' caps' =>
             matchAt (Cat (Cap 2 (Class notNewline 0 None)) Eol) pos' s' caps' k)
  = None.
Proof.
  intros Hnl. rewrite matchAt_Cap.
  destruct (matchAt namedSchedule 0 s caps _) as [r|] eqn:E; [|reflexivity].
  apply namedSchedule_sound in E as (w & rest & -> & _ & Hw & Hk).
  apply rest_no_newline in Hk.
  change ("@"%char :: w ++ rest) with (("@"%char :: w) ++ rest) in Hnl.
  rewrite forallb_app, Hk, andb_true_r in Hnl. cbn [forallb] in Hnl.
  change (notNewline "@") with true in Hnl. cbn [andb] in Hnl.
  assert (forallb notNewline w = true); [|congruence].
  apply forallb_forall. intros c Hc. apply word_not_newline.
  rewrite forallb_forall in Hw. apply Hw. exact Hc.
Qed.

Lemma matchAt_Cap_Alt {R} (k : cont R) i r1 r2 pos s caps :
  matchAt (Cap i (Alt r1 r2)) pos s caps k
  = match matchAt (Cap i r1) pos s caps k with
    | Some r => Some r
    | None => matchAt (Cap i r2) pos s caps k
    end.
Proof. reflexivity. Qed.

(** Five fields and nothing more do not match the pattern, unless the
    text starts like a named schedule and holds no newline. *)
Lemma scheduleReg_five_fields_newline s f1 w1 f2 w2 f3 w3 f4 w4 f5 :
  s = f1 ++ w1 ++ f2 ++ w2 ++ f3 ++ w3 ++ f4 ++ w4 ++ f5 ->
  fieldRun f1 -> blankRun w1 -> fieldRun f2 -> blankRun w2 ->
  fieldRun f3 -> blankRun w3 -> fieldRun f4 -> blankRun w4 -> fieldRun f5 ->
  namedPrefix s && forallb notNewline s = false ->
  FindStringSubmatch scheduleReg 2 s = None.
Proof.
  intros Hs F1 W1 F2 W2 F3 W3 F4 W4 F5 Hn.
  apply andb_false_iff in Hn as [Hn|Hn];
    [eapply scheduleReg_five_fields; eauto|].
  rewrite scheduleReg_eq, find_anchored.
  rewrite matchAt_Cat, matchAt_Cap_Alt.
  rewrite namedSchedule_newline by assumption.
  rewrite matchAt_Cap, Hs, five_fields_reject by assumption. reflexivity.
Qed.

(** The longest run of [\w] a text starts with. *)
Lemma word_run (s : gostring) :
  exists w rest, s = w ++ rest /\ forallb isWord w = true /\ stopsAt isWord rest.
Proof.
  induction s as [|c s (w & rest & -> & Hw & Hrest)].
  - exists [], []. repeat split.
  - destruct (isWord c) eqn:Hc.
    + exists (c :: w), rest. split; [reflexivity|]. split; [|exact Hrest].
      simpl. rewrite Hc. exact Hw.
    + exists [], (c :: w ++ rest). split; [reflexivity|]. split; [reflexivity|exact Hc].
Qed.

(** A text that starts like a named schedule and holds no newline
    matches the pattern by the first alternative: group 1 is the at sign
    and the longest run of [\w] after it, group 2 the rest of the text. *)
Lemma scheduleReg_named_prefix s :
  namedPrefix s = true -> forallb notNewline s = true ->
  exists w rest,
    s = "@"%char :: w ++ rest /\ w <> [] /\ forallb isWord w = true /\
    stopsAt isWord rest /\
    FindStringSubmatch scheduleReg 2 s = Some [s; "@"%char :: w; rest].
Proof.
  intros Hn Hnl. destruct s as [|c [|d t]]; try discriminate Hn.
  cbn [namedPrefix] in Hn. apply andb_true_iff in Hn as [Hc Hd].
  apply Ascii.eqb_eq in Hc. subst c.
  destruct (word_run (d :: t)) as (w & rest & E & Hw & Hrest).
  assert (Hne : w <> []).
  { intros ->. cbn [app] in E. subst rest. simpl in Hrest. congruence. }
  rewrite E in *. exists w, rest.
  split; [reflexivity|]. split; [exact Hne|]. split; [exact Hw|]. split; [exact Hrest|].
  apply scheduleReg_named_rest; try assumption.
  cbn [forallb] in Hnl. apply andb_true_iff in Hnl as [_ Hnl].
  rewrite forallb_app in Hnl. apply andb_true_iff in Hnl as [_ Hnl]. exact Hnl.
Qed.

Lemma findFrom_length re groups s : forall pos m,
  findFrom re groups pos s = Some m -> length m = S groups.
Proof.
  induction s as [|c s IH]; intros pos m; simpl.
  - destruct (matchAt re pos [] ∅ _) as [[e caps]|]; [|discriminate].
    intros H. injection H as <-. simpl. rewrite length_map, length_seq. reflexivity.
  - destruct (matchAt re pos (c :: s) ∅ _) as [[e caps]|]; [|apply IH].
    intros H. injection H as <-. cbn [length]. rewrite length_map, length_seq. reflexivity.
Qed.

Section Parse.

Context {Schedule : Type}.
Variable ParseSchedule : gostring -> option Schedule * option error.

(** A line the pattern does not match. *)
Lemma ParseJob_no_match raw hasUser env :
  FindStringSubmatch scheduleReg 2 (TrimSpace raw) = None ->
  ParseJob ParseSchedule raw hasUser env
  = Returns (mkJob raw env [] [] None (Some (invalidField raw))).
Proof.
  intros H. unfold ParseJob, parse. cbn [Checron.raw]. rewrite H. reflexivity.
Qed.

(** A line the pattern matches: what [ParseJob] does with the two
    groups. *)
Lemma ParseJob_match raw hasUser env m0 m1 m2 :
  FindStringSubmatch scheduleReg 2 (TrimSpace raw) = Some [m0; m1; m2] ->
  ParseJob ParseSchedule raw hasUser env
  = match ParseSchedule (TrimSpace m1) with
    | (sc, Some e) => Returns (mkJob raw env [] [] sc (Some e))
    | (sc, None) =>
      if hasUser then
        obind (fieldsN m2 2) (fun flds =>
        if negb (length flds =? 2)%nat
        then Returns (mkJob raw env [] [] sc (Some (invalidField raw)))
        else Returns (mkJob raw env (index flds 0) (index flds 1) sc None))
      else Returns (mkJob raw env [] m2 sc None)
    end.
Proof.
  intros H. unfold ParseJob, parse. cbn [Checron.raw]. rewrite H.
  change (default [] (Some [m0; m1; m2])) with [m0; m1; m2].
  cbn [length Nat.eqb index nth].
  destruct (ParseSchedule (TrimSpace m1)) as [sc [e|]]; [reflexivity|].
  destruct hasUser; [|reflexivity].
  destruct (fieldsN m2 2) as [flds|msg]; [|reflexivity].
  cbn [obind]. destruct (negb _); reflexivity.
Qed.

Lemma scheduleReg_groups s m :
  FindStringSubmatch scheduleReg 2 s = Some m ->
  exists m0 m1 m2, m = [m0; m1; m2].
Proof.
  intros H. apply findFrom_length in H.
  destruct m as [|m0 [|m1 [|m2 [|? ?]]]]; try discriminate. eauto.
Qed.

End Parse.

(** [ParseJob] returns whenever what follows the schedule is well
    encoded. *)
Lemma ParseJob_returns_on_text
      {Schedule : Type} (ParseSchedule : gostring -> option Schedule * option error)
      raw hasUser env :
  (forall m0 m1 m2,
      FindStringSubmatch scheduleReg 2 (TrimSpace raw) = Some [m0; m1; m2] ->
      runesAll anyRune 0 (TrimSpace m2) = true) ->
  exists jo, ParseJob ParseSchedule raw hasUser env = Returns jo.
Proof.
  intros Htext.
  destruct (FindStringSubmatch scheduleReg 2 (TrimSpace raw)) as [m|] eqn:Hm.
  - destruct (scheduleReg_groups _ _ Hm) as (m0 & m1 & m2 & ->).
    rewrite (ParseJob_match ParseSchedule raw hasUser env m0 m1 m2 Hm).
    destruct (ParseSchedule (TrimSpace m1)) as [sc [e|]]; [eauto|].
    destruct hasUser; [|eauto].
    destruct (fieldsN_returns m2 2 (Htext _ _ _ eq_refl)) as [flds ->].
    cbn [obind]. destruct (negb _); eauto.
  - rewrite (ParseJob_no_match ParseSchedule raw hasUser env Hm). eauto.
Qed.

End JobFacts.

(** ** The field expander *)

Module FieldExpander.
Import Go Spec RegexpFacts Crontabparser RangeFacts SortFacts ExpandFacts.

(** C1.  For every field text and every kind on which the expansion
    succeeds, the expanded list is strictly increasing, holds no value
    twice, and every value lies in the closed domain of the kind.  For the
    day of the week, whose domain is 0 to 7, 0 and 7 can both be there, as
    for the text [0,7]. *)
Theorem expand_sorted_unique_in_domain (caseTable : Z -> Z) raw st ep l :
  entityParams !! st = Some ep ->
  expand caseTable raw st = Some l ->
  StronglySorted Z.lt l /\ List.NoDup l /\ Forall (inDomain (Range ep)) l /\
  expand caseTable (str "0,7") scheduleDayOfWeek = Some [0; 7].
Proof.
  intros Hep H. apply expand_Some in H as (ep' & acc & Hep' & Hacc & ->).
  assert (ep' = ep) as -> by congruence.
  destruct (uniq_empty (addSunday st acc)) as [Hnd Hin].
  pose proof (Ints_strict _ Hnd) as Hs.
  split; [assumption|]. split; [apply strict_NoDup; assumption|].
  split; [|reflexivity].
  apply List.Forall_forall. intros v Hv.
  apply Ints_In, Hin, addSunday_In in Hv.
  destruct Hv as [Hv|(-> & -> & _)].
  - unfold collect in Hacc.
    eapply expandItems_domain; [exact Hacc| |exact Hv]. intros ? [].
  - apply entityParams_kinds in Hep.
    destruct Hep as [[E _]|[[E _]|[[E _]|[[E _]|[_ ->]]]]]; try discriminate.
    unfold inDomain. simpl. lia.
Qed.

Lemma expand_sorted_unique_in_domain_witness :
  entityParams !! scheduleMonth
  = Some (mkParam (1, 12)
                  (map str [""; "jan"; "feb"; "mar"; "apr"; "may"; "jun"; "jul";
                            "aug"; "sep"; "oct"; "nov"; "dec"]%string)) /\
  expand (fun r => r) (str "nov,3-5,jan-jun/2,4") scheduleMonth
  = Some [1; 3; 4; 5; 11] /\
  StronglySorted Z.lt [1; 3; 4; 5; 11] /\ List.NoDup [1; 3; 4; 5; 11] /\
  Forall (inDomain (1, 12)) [1; 3; 4; 5; 11].
Proof.
  assert (H1 : entityParams !! scheduleMonth
               = Some (mkParam (1, 12)
                               (map str [""; "jan"; "feb"; "mar"; "apr"; "may"; "jun";
                                         "jul"; "aug"; "sep"; "oct"; "nov"; "dec"]%string)))
    by reflexivity.
  assert (H2 : expand (fun r => r) (str "nov,3-5,jan-jun/2,4") scheduleMonth
               = Some [1; 3; 4; 5; 11]) by reflexivity.
  split; [exact H1|]. split; [exact H2|].
  destruct (expand_sorted_unique_in_domain _ _ _ _ _ H1 H2) as (Hs & Hn & Hd & _).
  split; [exact Hs|]. split; [exact Hn|exact Hd].
Defined.

(** C2.  A step that is written with a number from 2^63 on is read by
    [ParseUint] and then wraps in the conversion to [int]: the step
    18446744073709551615 becomes -1, the counter test holds at every
    value, and the whole range is kept, where the spec keeps the start of
    the range only.  The two examples of the spec hold. *)
Theorem step_wraps_in_int_conversion (caseTable : Z -> Z) :
  ParseUint (str "18446744073709551615") = (18446744073709551615, None) /\
  intOfUint64 18446744073709551615 = -1 /\
  expand caseTable (str "*/18446744073709551615") scheduleMinute
  = Some (fromTo 0 59) /\
  everyStep 0 59 18446744073709551615 = [0] /\
  expand caseTable (str "*/15") scheduleMinute = Some [0; 15; 30; 45] /\
  expand caseTable (str "1-10/3") scheduleMinute = Some [1; 4; 7; 10].
Proof. repeat split; reflexivity. Qed.

(** C3.  The range rule has two shapes.  The text [*] is the whole
    domain.  Two numbers of one or two digits with a hyphen between them,
    [a-b], are the range from [a] to [b] if and only if [a < b] and both
    are in the domain.  Everything else is the error that names the text.
    So [5-5] is rejected for the minute, and [*] expands to the whole
    domain of every kind. *)
Theorem parseRange_two_shapes (caseTable : Z -> Z) :
  (forall rng, parseRange (str "*") rng = (rng, None)) /\
  (forall da db rng,
     digits12 da -> digits12 db ->
     let a := decimal da in
     let b := decimal db in
     (a < b /\ inDomain rng a /\ inDomain rng b ->
      parseRange (da ++ "-"%char :: db) rng = ((a, b), None)) /\
     (~ (a < b /\ inDomain rng a /\ inDomain rng b) ->
      parseRange (da ++ "-"%char :: db) rng
      = ((0, 0), Some (invalidRange (da ++ "-"%char :: db))))) /\
  (forall item rng,
     item <> str "*" ->
     (forall da db, digits12 da -> digits12 db -> item <> da ++ "-"%char :: db) ->
     parseRange item rng = ((0, 0), Some (invalidRange item))) /\
  expand caseTable (str "5-5") scheduleMinute = None /\
  (forall st ep,
     entityParams !! st = Some ep ->
     expand caseTable (str "*") st = Some (fromTo (fst (Range ep)) (snd (Range ep)))).
Proof.
  split; [exact parseRange_star|].
  split.
  { intros da db rng Ha Hb a b. subst a b.
    rewrite parseRange_numbers by assumption. unfold inDomain.
    split; intros H.
    - destruct (_ || _) eqn:Hc; [|reflexivity].
      apply orb_true_iff in Hc as [Hc|Hc]; [apply orb_true_iff in Hc as [Hc|Hc]|]; lia.
    - destruct (_ || _) eqn:Hc; [reflexivity|].
      apply orb_false_iff in Hc as [Hc H3]. apply orb_false_iff in Hc as [H1 H2].
      exfalso. apply H. lia. }
  split; [exact parseRange_other|].
  split; [reflexivity|].
  intros st ep Hep. apply entityParams_kinds in Hep.
  destruct Hep as [[-> ->]|[[-> ->]|[[-> ->]|[[-> ->]|[-> ->]]]]]; reflexivity.
Qed.

Lemma parseRange_two_shapes_witness :
  digits12 (str "1") /\ digits12 (str "10") /\
  (decimal (str "1") < decimal (str "10") /\
   inDomain (0, 59) (decimal (str "1")) /\ inDomain (0, 59) (decimal (str "10"))) /\
  parseRange (str "1-10") (0, 59) = ((1, 10), None) /\
  parseRange (str "10-1") (0, 59) = ((0, 0), Some (invalidRange (str "10-1"))) /\
  parseRange (str "1-100") (0, 59) = ((0, 0), Some (invalidRange (str "1-100"))) /\
  expand (fun r => r) (str "*") scheduleDay = Some (fromTo 1 31).
Proof.
  destruct (parseRange_two_shapes (fun r => r)) as (_ & Hnum & Hother & _ & Hstar).
  assert (D1 : digits12 (str "1")) by (split; [simpl; lia|reflexivity]).
  assert (D10 : digits12 (str "10")) by (split; [simpl; lia|reflexivity]).
  assert (Hin : decimal (str "1") < decimal (str "10") /\
                inDomain (0, 59) (decimal (str "1")) /\
                inDomain (0, 59) (decimal (str "10")))
    by (vm_compute; intuition discriminate).
  split; [exact D1|]. split; [exact D10|]. split; [exact Hin|].
  split; [|split; [|split]].
  - exact (proj1 (Hnum (str "1") (str "10") (0, 59) D1 D10) Hin).
  - apply (proj2 (Hnum (str "10") (str "1") (0, 59) D10 D1)).
    vm_compute. intros [H _]. discriminate.
  - apply Hother; [discriminate|].
    intros da db [La Ha] [Lb Hb] E.
    destruct da as [|a1 [|a2 [|a3 da]]]; simpl in La; try lia;
      destruct db as [|b1 [|b2 [|b3 db]]]; simpl in Lb; try lia;
        discriminate E.
  - apply (Hstar scheduleDay (mkParam (1, 31) [])). reflexivity.
Defined.

(** C4.  For the day of the week, once every item is resolved, a 7
    anywhere among the values adds a 0, and the 7 stays: the expanded list
    holds what the items gave, and 0 besides exactly when they gave a 7.
    So [7] expands to 0 and 7, and so does [0,7], without a second 0. *)
Theorem dayOfWeek_seven_adds_zero (caseTable : Z -> Z) :
  (forall raw ep acc,
     entityParams !! scheduleDayOfWeek = Some ep ->
     collect caseTable ep raw = inl acc ->
     exists l, expand caseTable raw scheduleDayOfWeek = Some l /\
               (forall v, In v l <-> In v acc \/ (v = 0 /\ In 7 acc)) /\
               (In 7 acc -> In 0 l /\ In 7 l)) /\
  expand caseTable (str "7") scheduleDayOfWeek = Some [0; 7] /\
  expand caseTable (str "0,7") scheduleDayOfWeek = Some [0; 7].
Proof.
  split; [|split; reflexivity].
  intros raw ep acc Hep Hacc.
  exists (Ints (uniq ∅ (addSunday scheduleDayOfWeek acc) [])).
  assert (Hin : forall v, In v (Ints (uniq ∅ (addSunday scheduleDayOfWeek acc) []))
                          <-> In v acc \/ (v = 0 /\ In 7 acc)).
  { intros v. destruct (uniq_empty (addSunday scheduleDayOfWeek acc)) as [_ Hin].
    rewrite Ints_In, Hin, addSunday_In. tauto. }
  split; [apply expand_Some; eauto|]. split; [exact Hin|].
  intros H7. split; apply Hin; tauto.
Qed.

Lemma dayOfWeek_seven_adds_zero_witness :
  collect (fun r => r)
          (mkParam (0, 7) (map str ["sun"; "mon"; "tue"; "wed"; "thu"; "fri"; "sat"]%string))
          (str "5-7,sat")
  = inl [5; 6; 7; 6] /\
  exists l, expand (fun r => r) (str "5-7,sat") scheduleDayOfWeek = Some l /\
            In 0 l /\ In 7 l.
Proof.
  destruct (dayOfWeek_seven_adds_zero (fun r => r)) as [H _].
  split; [reflexivity|].
  destruct (H (str "5-7,sat")
              (mkParam (0, 7)
                       (map str ["sun"; "mon"; "tue"; "wed"; "thu"; "fri"; "sat"]%string))
              [5; 6; 7; 6] eq_refl eq_refl) as (l & Hl & _ & H7).
  exists l. split; [exact Hl|]. apply H7. simpl. tauto.
Defined.

(** C8.  Alias substitution works on the text in lower case and, for
    each alias of the kind in the order of the list, replaces every
    occurrence of the alias by its index written in decimal: what
    [normalize] returns is the one text the spec's loop over the aliases
    relates to the text in lower case, and what [strings.Replace] returns
    is the one text in which every occurrence, taken from the left, is
    replaced, whatever stands before or after it, also inside a longer
    token; the items are cut and the ranges read from the text after
    substitution.  So [mon,wed,fri] expands to 1, 3 and 5 for the day of
    the week, and [mar,jan] to 1 and 3 for the month. *)
Theorem alias_substitution (caseTable : Z -> Z) :
  (forall ep raw,
     aliasesReplaced 0 (Aliases ep) (ToLower caseTable raw) (normalize caseTable ep raw)) /\
  (forall ep raw t,
     aliasesReplaced 0 (Aliases ep) (ToLower caseTable raw) t ->
     t = normalize caseTable ep raw) /\
  (forall old new s, old <> [] -> replacedAll old new s (Replace s old new)) /\
  (forall old new s t, old <> [] -> replacedAll old new s t -> t = Replace s old new) /\
  (forall ep raw,
     normalize caseTable ep raw
     = substituteAliases (Aliases ep) (ToLower caseTable raw)) /\
  (forall raw,
     (forall c, In c raw -> byteval c < 0x80) ->
     ToLower caseTable raw = map lowerByte raw) /\
  (forall old new pre post,
     old <> [] -> (forall c, In c pre -> ~ In c old) ->
     Replace (pre ++ old ++ post) old new = pre ++ new ++ Replace post old new) /\
  (forall old new s,
     old <> [] -> (forall c, In c s -> ~ In c old) -> Replace s old new = s) /\
  map Sprintf_d (seq 0 13)
  = map str ["0"; "1"; "2"; "3"; "4"; "5"; "6"; "7"; "8"; "9"; "10"; "11"; "12"]%string /\
  (forall st ep raw t,
     entityParams !! st = Some ep ->
     aliasesReplaced 0 (Aliases ep) (ToLower caseTable raw) t ->
     expand caseTable raw st
     = match expandItems raw (Range ep) (Split t ",") [] with
       | inl acc => Some (Ints (uniq ∅ (addSunday st acc) []))
       | inr _ => None
       end) /\
  (forall st ep raw,
     entityParams !! st = Some ep ->
     expand caseTable raw st
     = match expandItems raw (Range ep)
                         (Split (substituteAliases (Aliases ep) (ToLower caseTable raw))
                                ",") [] with
       | inl acc => Some (Ints (uniq ∅ (addSunday st acc) []))
       | inr _ => None
       end) /\
  expand caseTable (str "mon,wed,fri") scheduleDayOfWeek = Some [1; 3; 5] /\
  expand caseTable (str "MON,Wed,fRi") scheduleDayOfWeek = Some [1; 3; 5] /\
  expand caseTable (str "oct-dec") scheduleMonth = Some [10; 11; 12] /\
  expand caseTable (str "1jan") scheduleMonth = Some [11] /\
  snd (newScheduleEntity caseTable (str "janov") scheduleMonth)
  = Some (Errorf (str "invalid entity: %s, %s")
                 [ArgString (str "janov"); ArgError (invalidRange (str "1ov"))]) /\
  Replace (str "mar,jan") (str "jan") (str "1") = str "mar,1" /\
  expand caseTable (str "mar,jan") scheduleMonth = Some [1; 3] /\
  expand caseTable (str "sat,sun") scheduleDayOfWeek = Some [0; 6].
Proof.
  assert (Hnorm : forall ep raw,
             normalize caseTable ep raw
             = substituteAliases (Aliases ep) (ToLower caseTable raw)).
  { intros ep raw. unfold normalize, substituteAliases. apply replaceAliases_fold. }
  assert (Hexp : forall st ep raw,
             entityParams !! st = Some ep ->
             expand caseTable raw st
             = match expandItems raw (Range ep)
                                 (Split (normalize caseTable ep raw) ",") [] with
               | inl acc => Some (Ints (uniq ∅ (addSunday st acc) []))
               | inr _ => None
               end).
  { intros st ep raw Hep.
    unfold expand, newScheduleEntity, init. cbn [typ Crontabparser.raw].
    rewrite Hep. unfold collect.
    destruct (expandItems _ _ _ _); reflexivity. }
  split; [intros ep raw; apply replaceAliases_replaced|].
  split; [intros ep raw t; apply aliasesReplaced_unique|].
  split; [intros old new s Hold;
          apply (Replace_replacedAll old new (length s)); [exact Hold|lia]|].
  split; [exact replacedAll_Replace|].
  split; [exact Hnorm|].
  split; [apply ToLower_ascii|].
  split; [exact Replace_occurrence|].
  split; [exact Replace_absent|].
  split; [reflexivity|].
  split.
  { intros st ep raw t Hep Ht. apply aliasesReplaced_unique in Ht. subst t.
    apply Hexp. exact Hep. }
  split.
  { intros st ep raw Hep. rewrite <- Hnorm. apply Hexp. exact Hep. }
  repeat split; reflexivity.
Qed.

Lemma alias_substitution_witness :
  (forall c, In c (str "1JAN") -> byteval c < 0x80) /\
  ToLower (fun r => r) (str "1JAN") = str "1jan" /\
  Replace (str "1" ++ str "jan" ++ []) (str "jan") (str "1") = str "11" /\
  Replace (str "10-12") (str "jan") (str "1") = str "10-12" /\
  expand (fun r => r) (str "1JAN") scheduleMonth = Some [11] /\
  replacedAll (str "jan") (str "1") (str "mar,jan") (str "mar,1") /\
  (forall t, replacedAll (str "jan") (str "1") (str "mar,jan") t -> t = str "mar,1").
Proof.
  destruct (alias_substitution (fun r => r))
    as (_ & _ & Hall & Huniq & _ & Hlow & Hocc & Habs & _ & _ & Hexp & _).
  assert (Hascii : forall c, In c (str "1JAN") -> byteval c < 0x80).
  { intros c Hc. simpl in Hc.
    destruct Hc as [<-|[<-|[<-|[<-|[]]]]]; reflexivity. }
  split; [exact Hascii|]. split; [|split; [|split; [|split; [|split]]]].
  - rewrite (Hlow _ Hascii). reflexivity.
  - rewrite (Hocc (str "jan") (str "1") (str "1") []).
    + reflexivity.
    + discriminate.
    + intros c [<-|[]] Hin. simpl in Hin.
      destruct Hin as [E|[E|[E|[]]]]; discriminate E.
  - apply Habs; [discriminate|]. intros c Hc Hin. simpl in Hc, Hin.
    destruct Hc as [<-|[<-|[<-|[<-|[<-|[]]]]]];
      destruct Hin as [E|[E|[E|[]]]]; discriminate E.
  - rewrite (Hexp scheduleMonth
                  (mkParam (1, 12)
                           (map str [""; "jan"; "feb"; "mar"; "apr"; "may"; "jun"; "jul";
                                     "aug"; "sep"; "oct"; "nov"; "dec"]%string)))
      by reflexivity.
    reflexivity.
  - exact (Hall (str "jan") (str "1") (str "mar,jan") ltac:(discriminate)).
  - intros t Ht. exact (Huniq (str "jan") (str "1") (str "mar,jan") t ltac:(discriminate) Ht).
Defined.

End FieldExpander.

(** ** The job tokenizer *)

Module JobTokenizer.
Import Go Spec RegexpFacts Checron FieldsFacts JobFacts.

(** C5.  For the line [@daily  echo hi] without a user column the text
    [@daily] goes to the schedule parser; when the parser accepts it, the
    command of the job is the whole of group 2 of the pattern, which
    starts with the two blanks that follow the name: it is not
    [echo hi]. *)
Theorem named_schedule_command_keeps_blanks
        {Schedule : Type} (ParseSchedule : gostring -> option Schedule * option error)
        (env : gmap gostring gostring) :
  ParseJob ParseSchedule (str "@daily  echo hi") false env
  = Returns (match ParseSchedule (str "@daily") with
             | (sc, None) =>
               mkJob (str "@daily  echo hi") env [] (str "  echo hi") sc None
             | (sc, Some e) =>
               mkJob (str "@daily  echo hi") env [] [] sc (Some e)
             end) /\
  str "  echo hi" <> str "echo hi".
Proof.
  split; [|discriminate].
  rewrite (ParseJob_match ParseSchedule _ false env
             (str "@daily  echo hi") (str "@daily") (str "  echo hi"))
    by (vm_compute; reflexivity).
  change (TrimSpace (str "@daily")) with (str "@daily").
  destruct (ParseSchedule (str "@daily")) as [sc [e|]]; reflexivity.
Qed.

(** The same for every line that starts with a named schedule: without
    a user column the command is all that follows the name, from the
    first blank on. *)
Lemma named_line_command
      {Schedule : Type} (ParseSchedule : gostring -> option Schedule * option error)
      raw env w rest sc :
  TrimSpace raw = "@"%char :: w ++ rest ->
  w <> [] -> forallb isWord w = true ->
  stopsAt isWord rest -> forallb notNewline rest = true ->
  ParseSchedule (TrimSpace ("@"%char :: w)) = (sc, None) ->
  ParseJob ParseSchedule raw false env = Returns (mkJob raw env [] rest sc None).
Proof.
  intros Hs Hw Hall Hstop Hrest HP.
  rewrite (ParseJob_match ParseSchedule raw false env
             ("@"%char :: w ++ rest) ("@"%char :: w) rest)
    by (rewrite Hs; apply scheduleReg_named_rest; assumption).
  rewrite HP. reflexivity.
Qed.

(** C6, as stated, fails: on the line [@daily] with a user column the
    schedule is parsed and stored, then the split into user and command
    fails, and the job is returned with the error and with the schedule. *)
Lemma failed_split_keeps_schedule :
  ParseJob specParseSchedule (str "@daily") true ∅
  = Returns (mkJob (str "@daily") ∅ [] [] (Some (Named (str "@daily")))
                   (Some (invalidField (str "@daily")))) /\
  ~ (forall raw hasUser env jo,
       ParseJob specParseSchedule raw hasUser env = Returns jo ->
       err jo <> None ->
       user jo = [] /\ command jo = [] /\ schedule jo = None).
Proof.
  assert (E : ParseJob specParseSchedule (str "@daily") true ∅
              = Returns (mkJob (str "@daily") ∅ [] [] (Some (Named (str "@daily")))
                               (Some (invalidField (str "@daily")))))
    by (vm_compute; reflexivity).
  split; [exact E|].
  intros H. destruct (H _ _ _ _ E) as (_ & _ & Hs); simpl in *; discriminate.
Qed.

(** C6, amended.  Whenever the job that [ParseJob] returns has an error,
    its user and its command are empty; its schedule is nil when the
    pattern did not match the line, and otherwise it is what the schedule
    parser returned, the error being the parser's or, when the parser
    succeeded and a user column was asked for, that of the failed split.
    Whenever the job has no error, the pattern matched, the schedule is
    the one the parser returned without error, and user and command are
    the two fields of the split, or, without a user column, the command is
    group 2 of the pattern. *)
Theorem failed_job_has_no_user_nor_command
        {Schedule : Type} (ParseSchedule : gostring -> option Schedule * option error)
        raw hasUser env jo :
  ParseJob ParseSchedule raw hasUser env = Returns jo ->
  (err jo <> None ->
   user jo = [] /\ command jo = [] /\
   ((FindStringSubmatch scheduleReg 2 (TrimSpace raw) = None /\
     schedule jo = None /\ err jo = Some (invalidField raw)) \/
    (exists m0 m1 m2,
        FindStringSubmatch scheduleReg 2 (TrimSpace raw) = Some [m0; m1; m2] /\
        schedule jo = fst (ParseSchedule (TrimSpace m1)) /\
        (err jo = snd (ParseSchedule (TrimSpace m1)) \/
         (snd (ParseSchedule (TrimSpace m1)) = None /\ hasUser = true /\
          err jo = Some (invalidField raw)))))) /\
  (err jo = None ->
   exists m0 m1 m2,
     FindStringSubmatch scheduleReg 2 (TrimSpace raw) = Some [m0; m1; m2] /\
     ParseSchedule (TrimSpace m1) = (schedule jo, None) /\
     (if hasUser then fieldsN m2 2 = Returns [user jo; command jo]
      else user jo = [] /\ command jo = m2)).
Proof.
  destruct (FindStringSubmatch scheduleReg 2 (TrimSpace raw)) as [m|] eqn:Hm.
  - destruct (scheduleReg_groups _ _ Hm) as (m0 & m1 & m2 & ->).
    rewrite (ParseJob_match ParseSchedule raw hasUser env m0 m1 m2 Hm).
    destruct (ParseSchedule (TrimSpace m1)) as [sc [e|]] eqn:HP.
    + intros H. injection H as <-. cbn [err user command schedule]. split.
      * intros _. split; [reflexivity|]. split; [reflexivity|].
        right. exists m0, m1, m2. rewrite HP. cbn [fst snd].
        split; [reflexivity|]. split; [reflexivity|]. left; reflexivity.
      * discriminate.
    + destruct hasUser.
      * destruct (fieldsN m2 2) as [flds|msg] eqn:Hf; [|discriminate].
        cbn [obind]. destruct (Nat.eqb_spec (length flds) 2) as [Hl|Hl]; cbn [negb].
        -- intros H. injection H as <-. cbn [err user command schedule]. split.
           ++ congruence.
           ++ intros _. exists m0, m1, m2. split; [reflexivity|]. split; [assumption|].
              destruct flds as [|u [|c [|? ?]]]; try discriminate. exact Hf.
        -- intros H. injection H as <-. cbn [err user command schedule]. split.
           ++ intros _. split; [reflexivity|]. split; [reflexivity|].
              right. exists m0, m1, m2. rewrite HP. cbn [fst snd].
              split; [reflexivity|]. split; [reflexivity|]. right. auto.
           ++ discriminate.
      * intros H. injection H as <-. cbn [err user command schedule]. split.
        -- congruence.
        -- intros _. exists m0, m1, m2.
           split; [reflexivity|]. split; [assumption|]. split; reflexivity.
  - rewrite (ParseJob_no_match ParseSchedule raw hasUser env Hm).
    intros H. injection H as <-. cbn [err user command schedule]. split.
    + intros _. split; [reflexivity|]. split; [reflexivity|]. left. auto.
    + discriminate.
Qed.

Lemma failed_job_has_no_user_nor_command_witness :
  let jo := mkJob (str "* * * * * root") ∅ [] []
                  (fst (specParseSchedule (str "* * * * *")))
                  (Some (invalidField (str "* * * * * root"))) in
  ParseJob specParseSchedule (str "* * * * * root") true ∅ = Returns jo /\
  err jo <> None /\ user jo = [] /\ command jo = [].
Proof.
  intros jo.
  assert (E : ParseJob specParseSchedule (str "* * * * * root") true ∅ = Returns jo)
    by (vm_compute; reflexivity).
  assert (Herr : err jo <> None) by discriminate.
  split; [exact E|]. split; [exact Herr|].
  destruct (failed_job_has_no_user_nor_command specParseSchedule _ _ _ _ E) as [H _].
  destruct (H Herr) as (Hu & Hc & _). split; [exact Hu|exact Hc].
Defined.

(** With a user column, once the pattern has matched and the schedule
    parser has accepted group 1, group 2 is split in two: when it is,
    trimmed, a well-encoded token, one space and more text, the token is
    the user and the rest, trimmed at both ends and otherwise byte for
    byte, is the command; whatever [fieldsN] returns, the job has the two
    fields as user and command when there are two and the error for an
    invalid field otherwise, which is the case for a lone token and for
    nothing.  So [*/5 * * * * root echo  hi] gives the user [root] and
    the command [echo  hi], both blanks kept. *)
Theorem user_then_command
        {Schedule : Type} (ParseSchedule : gostring -> option Schedule * option error)
        raw env m0 m1 m2 sc :
  FindStringSubmatch scheduleReg 2 (TrimSpace raw) = Some [m0; m1; m2] ->
  ParseSchedule (TrimSpace m1) = (sc, None) ->
  (forall tok sp rest,
      TrimSpace m2 = tok ++ sp ++ rest ->
      token tok -> spaceRune sp -> rest <> [] ->
      fieldsN m2 2 = Returns [tok; TrimSpace rest] /\
      ParseJob ParseSchedule raw true env
      = Returns (mkJob raw env tok (TrimSpace rest) sc None)) /\
  (forall flds,
      fieldsN m2 2 = Returns flds ->
      ParseJob ParseSchedule raw true env
      = Returns (if (length flds =? 2)%nat
                 then mkJob raw env (index flds 0) (index flds 1) sc None
                 else mkJob raw env [] [] sc (Some (invalidField raw)))) /\
  (forall tok,
      TrimSpace m2 = tok -> token tok \/ tok = [] ->
      ParseJob ParseSchedule raw true env
      = Returns (mkJob raw env [] [] sc (Some (invalidField raw)))) /\
  (ParseSchedule (str "*/5 * * * *") = (sc, None) ->
   ParseJob ParseSchedule (str "*/5 * * * * root echo  hi") true env
   = Returns (mkJob (str "*/5 * * * * root echo  hi") env
                    (str "root") (str "echo  hi") sc None)).
Proof.
  intros Hm HP.
  assert (Hflds : forall flds,
             fieldsN m2 2 = Returns flds ->
             ParseJob ParseSchedule raw true env
             = Returns (if (length flds =? 2)%nat
                        then mkJob raw env (index flds 0) (index flds 1) sc None
                        else mkJob raw env [] [] sc (Some (invalidField raw)))).
  { intros flds Hf.
    rewrite (ParseJob_match ParseSchedule raw true env m0 m1 m2 Hm), HP, Hf.
    cbn [obind]. destruct (length flds =? 2)%nat; reflexivity. }
  split; [|split; [exact Hflds|split]].
  - intros tok sp rest Hs Htok Hsp Hrest.
    pose proof (fieldsN_two m2 tok sp rest Hs Htok Hsp Hrest) as Hf.
    split; [exact Hf|]. rewrite (Hflds _ Hf). reflexivity.
  - intros tok Hs [Htok| ->].
    + rewrite (Hflds _ (fieldsN_one m2 tok Hs Htok)). reflexivity.
    + rewrite (Hflds _ (fieldsN_none m2 Hs)). reflexivity.
  - intros HP5.
    rewrite (ParseJob_match ParseSchedule _ true env
               (str "*/5 * * * * root echo  hi") (str "*/5 * * * * ")
               (str "root echo  hi")) by (vm_compute; reflexivity).
    change (TrimSpace (str "*/5 * * * * ")) with (str "*/5 * * * *").
    rewrite HP5. reflexivity.
Qed.

Lemma user_then_command_witness :
  FindStringSubmatch scheduleReg 2 (TrimSpace (str "0 4 * * * backup  tar  -c /etc "))
  = Some [str "0 4 * * * backup  tar  -c /etc"; str "0 4 * * * ";
          str "backup  tar  -c /etc"] /\
  snd (specParseSchedule (TrimSpace (str "0 4 * * * "))) = None /\
  TrimSpace (str "backup  tar  -c /etc") = str "backup" ++ str " " ++ str " tar  -c /etc" /\
  token (str "backup") /\ spaceRune (str " ") /\
  fieldsN (str "backup  tar  -c /etc") 2 = Returns [str "backup"; str "tar  -c /etc"] /\
  exists sc,
    ParseJob specParseSchedule (str "0 4 * * * backup  tar  -c /etc ") true ∅
    = Returns (mkJob (str "0 4 * * * backup  tar  -c /etc ") ∅
                     (str "backup") (str "tar  -c /etc") sc None).
Proof.
  assert (Hm : FindStringSubmatch scheduleReg 2
                 (TrimSpace (str "0 4 * * * backup  tar  -c /etc "))
               = Some [str "0 4 * * * backup  tar  -c /etc"; str "0 4 * * * ";
                       str "backup  tar  -c /etc"]) by (vm_compute; reflexivity).
  assert (Hs : TrimSpace (str "backup  tar  -c /etc")
               = str "backup" ++ str " " ++ str " tar  -c /etc")
    by (vm_compute; reflexivity).
  assert (Htok : token (str "backup")) by (split; [discriminate|vm_compute; reflexivity]).
  assert (Hsp : spaceRune (str " ")).
  { split; [discriminate|]. exists 0x20. vm_compute. auto. }
  destruct (specParseSchedule (TrimSpace (str "0 4 * * * "))) as [sc e] eqn:HP.
  assert (He : e = None) by (vm_compute in HP; congruence).
  subst e.
  split; [exact Hm|]. split; [reflexivity|]. split; [exact Hs|].
  split; [exact Htok|]. split; [exact Hsp|].
  destruct (user_then_command specParseSchedule _ ∅ _ _ _ sc Hm HP) as (H & _ & _).
  destruct (H (str "backup") (str " ") (str " tar  -c /etc") Hs Htok Hsp)
    as [HF HJ]; [discriminate|].
  split; [exact HF|]. exists sc. exact HJ.
Defined.

(** C7.  The user is not always the first token of what follows the
    schedule: on the line [*/5 * * * * ] followed by the byte 0xFF and
    [ echo  hi], with a user column, the pattern matches, the first token
    of the remainder is the byte 0xFF and the text after it [echo  hi],
    but [fieldsN] advances its offset by the three bytes of the
    replacement rune where [range] advanced by one: the user of the job is
    the replacement rune and its command [ho  hi], two bytes short, and no
    error is reported. *)
Theorem stray_byte_user_is_not_first_token
        {Schedule : Type} (ParseSchedule : gostring -> option Schedule * option error)
        (env : gmap gostring gostring) :
  FindStringSubmatch scheduleReg 2 (TrimSpace strayUserLine)
  = Some [strayUserLine; str "*/5 * * * * "; [byteof 0xFF] ++ str " echo  hi"] /\
  fieldsN ([byteof 0xFF] ++ str " echo  hi") 2
  = Returns [EncodeRune RuneError; str "ho  hi"] /\
  ParseJob ParseSchedule strayUserLine true env
  = match ParseSchedule (str "*/5 * * * *") with
    | (sc, None) =>
      Returns (mkJob strayUserLine env (EncodeRune RuneError) (str "ho  hi") sc None)
    | (sc, Some e) => Returns (mkJob strayUserLine env [] [] sc (Some e))
    end /\
  EncodeRune RuneError <> [byteof 0xFF] /\
  str "ho  hi" <> str "echo  hi" /\
  (exists sc,
      ParseJob specParseSchedule strayUserLine true ∅
      = Returns (mkJob strayUserLine ∅ (EncodeRune RuneError) (str "ho  hi")
                       (Some sc) None)).
Proof.
  assert (Hm : FindStringSubmatch scheduleReg 2 (TrimSpace strayUserLine)
               = Some [strayUserLine; str "*/5 * * * * "; [byteof 0xFF] ++ str " echo  hi"])
    by (vm_compute; reflexivity).
  split; [exact Hm|]. split; [vm_compute; reflexivity|].
  split; [|split; [discriminate|split; [discriminate|]]].
  2: { destruct (ParseJob specParseSchedule strayUserLine true ∅) as [jo|msg] eqn:E;
         vm_compute in E; [|discriminate E].
       injection E as <-. eexists. reflexivity. }
  rewrite (ParseJob_match ParseSchedule _ true env _ _ _ Hm).
  change (TrimSpace (str "*/5 * * * * ")) with (str "*/5 * * * *").
  destruct (ParseSchedule (str "*/5 * * * *")) as [sc [e|]]; reflexivity.
Qed.

(** C9.  [ParseJob] does not return on every line: on a line whose user
    column holds a byte that is not UTF-8, with a user column asked for,
    [fieldsN] advances its offset by the three bytes of the replacement
    rune where [range] advanced by one, the slice expression runs past the
    end of the text, and the call panics once the schedule parser has
    accepted the five fields. *)
Theorem ParseJob_panics_on_stray_byte
        {Schedule : Type} (ParseSchedule : gostring -> option Schedule * option error)
        (env : gmap gostring gostring) :
  ParseJob ParseSchedule strayByteLine true env
  = match ParseSchedule (str "* * * * *") with
    | (sc, None) => Panics (str "slice bounds out of range")
    | (sc, Some e) => Returns (mkJob strayByteLine env [] [] sc (Some e))
    end /\
  ParseJob specParseSchedule strayByteLine true ∅
  = Panics (str "slice bounds out of range") /\
  fieldsN ([byteof 0xFF] ++ str " a") 2 = Panics (str "slice bounds out of range").
Proof.
  split; [|split; vm_compute; reflexivity].
  rewrite (ParseJob_match ParseSchedule _ true env
             strayByteLine (str "* * * * * ") ([byteof 0xFF] ++ str " a"))
    by (vm_compute; reflexivity).
  change (TrimSpace (str "* * * * * ")) with (str "* * * * *").
  destruct (ParseSchedule (str "* * * * *")) as [sc [e|]]; reflexivity.
Qed.

(** Whenever [ParseJob] returns, the job holds the line and the
    environment it was given. *)
Lemma ParseJob_keeps_raw_and_env
      {Schedule : Type} (ParseSchedule : gostring -> option Schedule * option error)
      raw hasUser env jo :
  ParseJob ParseSchedule raw hasUser env = Returns jo ->
  Raw jo = raw /\ Env jo = env.
Proof.
  unfold ParseJob, parse. cbn [Checron.raw].
  destruct (length _ =? 3)%nat.
  - destruct (ParseSchedule _) as [sc [e|]].
    + intros H. injection H as <-. split; reflexivity.
    + destruct hasUser.
      * destruct (fieldsN _ 2) as [flds|msg]; [|discriminate].
        cbn [obind]. destruct (negb _); intros H; injection H as <-; split; reflexivity.
      * intros H. injection H as <-. split; reflexivity.
  - intros H. injection H as <-. split; reflexivity.
Qed.

(** Without a user column [ParseJob] always returns. *)
Lemma ParseJob_returns_without_user
      {Schedule : Type} (ParseSchedule : gostring -> option Schedule * option error)
      raw env :
  exists jo, ParseJob ParseSchedule raw false env = Returns jo.
Proof.
  unfold ParseJob, parse. cbn [Checron.raw].
  destruct (length _ =? 3)%nat.
  - destruct (ParseSchedule _) as [sc [e|]]; eexists; reflexivity.
  - eexists; reflexivity.
Qed.

(** C10, as stated, fails: the line [@daily b c d e] is five fields and
    nothing more, the first alternative of the pattern takes [@daily] as a
    named schedule, and the job is accepted, with or without a user
    column. *)
Lemma five_fields_named_schedule_accepted :
  TrimSpace (str "@daily b c d e")
  = str "@daily" ++ str " " ++ str "b" ++ str " " ++ str "c" ++ str " "
        ++ str "d" ++ str " " ++ str "e" /\
  ParseJob specParseSchedule (str "@daily b c d e") false ∅
  = Returns (mkJob (str "@daily b c d e") ∅ [] (str " b c d e")
                   (Some (Named (str "@daily"))) None) /\
  ParseJob specParseSchedule (str "@daily b c d e") true ∅
  = Returns (mkJob (str "@daily b c d e") ∅ (str "b") (str "c d e")
                   (Some (Named (str "@daily"))) None).
Proof. repeat split; vm_compute; reflexivity. Qed.

(** C10, amended.  A line that, trimmed, is five runs of [\S] separated
    by runs of [\s] with nothing after the fifth is rejected with the
    error for an invalid field, with or without a user column, unless it
    starts with an at sign and a [\w] and holds no newline: the second
    alternative of the pattern wants a [\s] after the fifth field.  A
    line that, trimmed, starts with an at sign and a [\w] and holds no
    newline matches the pattern by the first alternative, group 1 being
    the at sign and the run of [\w] after it and group 2 the rest, and
    the job is what the schedule parser and the split of group 2 make of
    them.  A lone at sign followed by one or more [\w] matches the
    pattern, with an empty group 2. *)
Theorem five_fields_without_command_rejected
        {Schedule : Type} (ParseSchedule : gostring -> option Schedule * option error) :
  (forall raw hasUser env f1 w1 f2 w2 f3 w3 f4 w4 f5,
      TrimSpace raw = f1 ++ w1 ++ f2 ++ w2 ++ f3 ++ w3 ++ f4 ++ w4 ++ f5 ->
      fieldRun f1 -> blankRun w1 -> fieldRun f2 -> blankRun w2 ->
      fieldRun f3 -> blankRun w3 -> fieldRun f4 -> blankRun w4 -> fieldRun f5 ->
      namedPrefix (TrimSpace raw) && forallb notNewline (TrimSpace raw) = false ->
      FindStringSubmatch scheduleReg 2 (TrimSpace raw) = None /\
      ParseJob ParseSchedule raw hasUser env
      = Returns (mkJob raw env [] [] None (Some (invalidField raw)))) /\
  (forall raw hasUser env,
      namedPrefix (TrimSpace raw) && forallb notNewline (TrimSpace raw) = true ->
      exists w rest,
        TrimSpace raw = "@"%char :: w ++ rest /\
        w <> [] /\ forallb isWord w = true /\ stopsAt isWord rest /\
        FindStringSubmatch scheduleReg 2 (TrimSpace raw)
        = Some [TrimSpace raw; "@"%char :: w; rest] /\
        ParseJob ParseSchedule raw hasUser env
        = match ParseSchedule (TrimSpace ("@"%char :: w)) with
          | (sc, Some e) => Returns (mkJob raw env [] [] sc (Some e))
          | (sc, None) =>
            if hasUser then
              obind (fieldsN rest 2) (fun flds =>
              if negb (length flds =? 2)%nat
              then Returns (mkJob raw env [] [] sc (Some (invalidField raw)))
              else Returns (mkJob raw env (index flds 0) (index flds 1) sc None))
            else Returns (mkJob raw env [] rest sc None)
          end) /\
  (forall w,
      w <> [] -> forallb isWord w = true ->
      FindStringSubmatch scheduleReg 2 ("@"%char :: w)
      = Some ["@"%char :: w; "@"%char :: w; []]).
Proof.
  split; [|split].
  - intros raw hasUser env f1 w1 f2 w2 f3 w3 f4 w4 f5 Hs F1 W1 F2 W2 F3 W3 F4 W4 F5 Hn.
    assert (Hm : FindStringSubmatch scheduleReg 2 (TrimSpace raw) = None)
      by (eapply scheduleReg_five_fields_newline; eauto).
    split; [exact Hm|]. apply ParseJob_no_match. exact Hm.
  - intros raw hasUser env Hn. apply andb_true_iff in Hn as [Hn Hnl].
    destruct (scheduleReg_named_prefix _ Hn Hnl) as (w & rest & E & Hne & Hw & Hrest & Hm).
    exists w, rest. repeat (split; [assumption|]).
    apply ParseJob_match with (m0 := TrimSpace raw). exact Hm.
  - exact scheduleReg_named.
Qed.

Lemma five_fields_without_command_rejected_witness :
  TrimSpace (str " 0 5 * * mon ")
  = str "0" ++ str " " ++ str "5" ++ str " " ++ str "*" ++ str " "
        ++ str "*" ++ str " " ++ str "mon" /\
  namedPrefix (TrimSpace (str " 0 5 * * mon "))
  && forallb notNewline (TrimSpace (str " 0 5 * * mon ")) = false /\
  ParseJob specParseSchedule (str " 0 5 * * mon ") true ∅
  = Returns (mkJob (str " 0 5 * * mon ") ∅ [] [] None
                   (Some (invalidField (str " 0 5 * * mon ")))) /\
  (let raw := str "@daily b" ++ [byteof 0x0A] ++ str "c d e" in
   TrimSpace raw
   = str "@daily" ++ str " " ++ str "b" ++ [byteof 0x0A] ++ str "c" ++ str " "
         ++ str "d" ++ str " " ++ str "e" /\
   namedPrefix (TrimSpace raw) && forallb notNewline (TrimSpace raw) = false /\
   ParseJob specParseSchedule raw false ∅
   = Returns (mkJob raw ∅ [] [] None (Some (invalidField raw)))) /\
  namedPrefix (TrimSpace (str "@daily b c d e"))
  && forallb notNewline (TrimSpace (str "@daily b c d e")) = true /\
  (exists w rest,
      TrimSpace (str "@daily b c d e") = "@"%char :: w ++ rest /\
      FindStringSubmatch scheduleReg 2 (TrimSpace (str "@daily b c d e"))
      = Some [TrimSpace (str "@daily b c d e"); "@"%char :: w; rest]) /\
  FindStringSubmatch scheduleReg 2 (str "@daily")
  = Some [str "@daily"; str "@daily"; []].
Proof.
  destruct (five_fields_without_command_rejected specParseSchedule) as (H1 & H2 & H3).
  split; [vm_compute; reflexivity|]. split; [reflexivity|]. split.
  { apply (H1 _ true ∅ (str "0") (str " ") (str "5") (str " ") (str "*") (str " ")
              (str "*") (str " ") (str "mon"));
      try (vm_compute; reflexivity);
      split; try discriminate; reflexivity. }
  split.
  { cbv zeta. split; [vm_compute; reflexivity|]. split; [vm_compute; reflexivity|].
    apply (H1 _ false ∅ (str "@daily") (str " ") (str "b") [byteof 0x0A] (str "c")
              (str " ") (str "d") (str " ") (str "e"));
      try (vm_compute; reflexivity);
      split; try discriminate; vm_compute; reflexivity. }
  split; [vm_compute; reflexivity|]. split.
  { destruct (H2 (str "@daily b c d e") false ∅ ltac:(vm_compute; reflexivity))
      as (w & rest & E & _ & _ & _ & Hm & _).
    exists w, rest. split; [exact E|exact Hm]. }
  apply (H3 (str "daily")); [discriminate|reflexivity].
Defined.

End JobTokenizer.

(** ** More about the items of a field *)

Module ItemFacts.
Import Go Spec RegexpFacts Crontabparser RangeFacts SortFacts ExpandFacts FieldsFacts.

Lemma digitsValue_ge d : forall n,
  forallb isDigit d = true -> 0 <= n -> n <= digitsValue n d.
Proof.
  induction d as [|c d IH]; intros n Hall Hn; simpl; [lia|].
  simpl in Hall. apply andb_true_iff in Hall as [Hc Hall].
  pose proof (isDigit_byteval _ Hc).
  specialize (IH (n * 10 + (byteval c - 48)) Hall ltac:(lia)).
  unfold digitsValue in *. lia.
Qed.

(** The digit loop of [ParseUint] on digits: the number they write, or
    the range error when it does not fit 64 bits. *)
Lemma parseDigits_digits d : forall n,
  forallb isDigit d = true -> 0 <= n <= maxUint64 ->
  parseDigits n d =
  if digitsValue n d <=? maxUint64 then (digitsValue n d, None)
  else (maxUint64, Some ErrRange).
Proof.
  induction d as [|c d IH]; intros n Hall Hn.
  - simpl. destruct (Z.leb_spec n maxUint64); [reflexivity|lia].
  - simpl in Hall. apply andb_true_iff in Hall as [Hc Hall].
    pose proof (isDigit_byteval _ Hc) as Hb.
    pose proof (digitsValue_ge d (n * 10 + (byteval c - 48)) Hall ltac:(lia)) as Hge.
    cbn [parseDigits]. rewrite Hc. cbn [negb].
    change (digitsValue n (c :: d)) with (digitsValue (n * 10 + (byteval c - 48)) d).
    rewrite maxUint64_eq in *.
    change (18446744073709551615 / 10 + 1) with 1844674407370955162.
    destruct (Z.leb_spec 1844674407370955162 n).
    { destruct (Z.leb_spec (digitsValue (n * 10 + (byteval c - 48)) d)
                           18446744073709551615); [lia|reflexivity]. }
    destruct (Z.ltb_spec 18446744073709551615 (n * 10 + (byteval c - 48))).
    { destruct (Z.leb_spec (digitsValue (n * 10 + (byteval c - 48)) d)
                           18446744073709551615); [lia|reflexivity]. }
    rewrite IH by (auto; lia). reflexivity.
Qed.

Lemma ParseUint_digits d :
  d <> [] -> forallb isDigit d = true ->
  ParseUint d =
  if decimal d <=? maxUint64 then (decimal d, None) else (maxUint64, Some ErrRange).
Proof.
  intros Hd Hall. unfold ParseUint. destruct d as [|c d]; [congruence|].
  rewrite parseDigits_digits by (auto; rewrite maxUint64_eq; lia). reflexivity.
Qed.

Lemma digits_no_byte d c : forallb isDigit d = true -> isDigit c = false -> ~ In c d.
Proof.
  intros Hall Hc Hin. rewrite forallb_forall in Hall. apply Hall in Hin. congruence.
Qed.

Lemma SplitN_no_sep sep s : ~ In sep s -> SplitN s sep 2 = [s].
Proof.
  intros H. unfold SplitN. change (2 =? 0) with false. change (2 <? 0) with false.
  cbv iota. rewrite splitOn_no_sep by assumption. reflexivity.
Qed.

Lemma digits_not_range d rng :
  d <> [] -> forallb isDigit d = true ->
  parseRange d rng = ((0, 0), Some (invalidRange d)).
Proof.
  intros Hd Hall. apply parseRange_other.
  - intros ->. discriminate Hall.
  - intros da db _ _ ->. rewrite forallb_app in Hall.
    apply andb_true_iff in Hall as [_ Hall]. discriminate Hall.
Qed.

(** A plain number as an item. *)
Lemma number_item raw rng d acc :
  d <> [] -> forallb isDigit d = true -> 0 <= fst rng -> snd rng < 2 ^ 63 ->
  expandItem raw rng d acc =
  if (fst rng <=? decimal d) && (decimal d <=? snd rng) then inl (acc ++ [decimal d])
  else if decimal d <=? maxUint64
       then inr (Errorf (str "invalid entity: %s") [ArgString raw])
       else inr (Errorf (str "invalid entity: %s, %s")
                        [ArgString raw; ArgError (invalidRange d)]).
Proof.
  intros Hd Hall Hlo Hhi. unfold expandItem.
  rewrite SplitN_no_sep by (apply digits_no_byte; [assumption|reflexivity]).
  cbn [length Nat.eqb]. rewrite ParseUint_digits by assumption.
  pose proof (digitsValue_ge d 0 Hall ltac:(lia)) as Hge. fold (decimal d) in Hge.
  change (2 ^ 63) with 9223372036854775808 in Hhi.
  rewrite maxUint64_eq.
  destruct (Z.leb_spec (decimal d) 18446744073709551615) as [Hfit|Hbig].
  - unfold intOfUint64. change (2 ^ 63) with 9223372036854775808.
    change (2 ^ 64) with 18446744073709551616.
    destruct (Z.ltb_spec (decimal d) 9223372036854775808).
    + destruct (Z.ltb_spec (decimal d) (fst rng)), (Z.ltb_spec (snd rng) (decimal d)),
        (Z.leb_spec (fst rng) (decimal d)), (Z.leb_spec (decimal d) (snd rng));
        try lia; reflexivity.
    + destruct (Z.ltb_spec (decimal d - 18446744073709551616) (fst rng)); [|lia].
      destruct (Z.leb_spec (fst rng) (decimal d)), (Z.leb_spec (decimal d) (snd rng));
        try lia; reflexivity.
  - rewrite digits_not_range by assumption.
    destruct (Z.leb_spec (fst rng) (decimal d)), (Z.leb_spec (decimal d) (snd rng));
      try lia; reflexivity.
Qed.

Lemma parseDigits_stops n da c rest :
  forallb isDigit da = true -> (length da <= 2)%nat -> 0 <= n <= 9 ->
  isDigit c = false ->
  parseDigits n (da ++ c :: rest) = (0, Some ErrSyntax).
Proof.
  intros Hall Hlen Hn Hc.
  destruct da as [|a [|b [|? ?]]]; simpl in Hlen; try lia.
  - simpl. rewrite Hc. reflexivity.
  - simpl in Hall. apply andb_true_iff in Hall as [Ha _].
    pose proof (isDigit_byteval _ Ha).
    cbn [app parseDigits]. rewrite Ha, Hc. cbn [negb].
    rewrite maxUint64_eq. change (18446744073709551615 / 10 + 1) with 1844674407370955162.
    destruct (Z.leb_spec 1844674407370955162 n); [lia|].
    destruct (Z.ltb_spec 18446744073709551615 (n * 10 + (byteval a - 48))); [lia|].
    reflexivity.
  - simpl in Hall. apply andb_true_iff in Hall as [Ha Hall].
    apply andb_true_iff in Hall as [Hb _].
    pose proof (isDigit_byteval _ Ha). pose proof (isDigit_byteval _ Hb).
    cbn [app parseDigits]. rewrite Ha, Hb, Hc. cbn [negb].
    rewrite maxUint64_eq. change (18446744073709551615 / 10 + 1) with 1844674407370955162.
    destruct (Z.leb_spec 1844674407370955162 n); [lia|].
    destruct (Z.ltb_spec 18446744073709551615 (n * 10 + (byteval a - 48))); [lia|].
    destruct (Z.leb_spec 1844674407370955162 (n * 10 + (byteval a - 48))); [lia|].
    destruct (Z.ltb_spec 18446744073709551615
                         ((n * 10 + (byteval a - 48)) * 10 + (byteval b - 48))); [lia|].
    reflexivity.
Qed.

Lemma range_text_not_number da db :
  digits12 da -> snd (ParseUint (da ++ "-"%char :: db)) <> None.
Proof.
  intros [Hlen Hall]. unfold ParseUint.
  destruct (da ++ "-"%char :: db) eqn:E; [destruct da; discriminate|].
  rewrite <- E. rewrite (parseDigits_stops 0 da "-"%char db Hall (proj2 Hlen) ltac:(lia) eq_refl).
  discriminate.
Qed.

Lemma range_text_no_slash da db :
  digits12 da -> digits12 db -> ~ In "/"%char (da ++ "-"%char :: db).
Proof.
  intros [_ Ha] [_ Hb] Hin. apply in_app_iff in Hin as [Hin|[Hin|Hin]]; [|discriminate|].
  - exact (digits_no_byte da "/"%char Ha eq_refl Hin).
  - exact (digits_no_byte db "/"%char Hb eq_refl Hin).
Qed.

(** A range as an item: every integer from the first bound to the second. *)
Lemma range_item raw rng da db acc :
  digits12 da -> digits12 db ->
  decimal da < decimal db -> fst rng <= decimal da -> decimal db <= snd rng ->
  expandItem raw rng (da ++ "-"%char :: db) acc
  = inl (acc ++ fromTo (decimal da) (decimal db)).
Proof.
  intros Ha Hb Hlt Hlo Hhi. unfold expandItem.
  rewrite SplitN_no_sep by (apply range_text_no_slash; assumption).
  cbn [length Nat.eqb].
  pose proof (range_text_not_number da db Ha) as Hn.
  destruct (ParseUint (da ++ "-"%char :: db)) as [n [e|]]; [|simpl in Hn; congruence].
  rewrite parseRange_numbers by assumption.
  destruct (Z.leb_spec (decimal db) (decimal da)); [lia|].
  destruct (Z.ltb_spec (decimal da) (fst rng)); [lia|].
  destruct (Z.ltb_spec (snd rng) (decimal db)); [lia|].
  cbn [orb fst snd]. rewrite fillLoop_fromTo by reflexivity. reflexivity.
Qed.

(** A step that is no positive number. *)
Lemma bad_step_item raw rng R s r acc :
  parseRange R rng = (r, None) ->
  snd (ParseUint s) <> None \/ fst (ParseUint s) = 0 ->
  expandItem raw rng (R ++ "/"%char :: s) acc
  = inr (Errorf (str "invalid increments: %q in %q") [ArgString s; ArgString raw]).
Proof.
  intros HR Hs. unfold expandItem.
  rewrite SplitN_first by (eapply parseRange_no_slash; eauto).
  cbn [app length Nat.eqb index nth]. rewrite HR.
  destruct (ParseUint s) as [n [e|]]; cbn [fst snd] in *.
  - rewrite bool_decide_eq_false_2 by discriminate. reflexivity.
  - destruct Hs as [Hs| ->]; [congruence|].
    rewrite bool_decide_eq_true_2 by reflexivity. reflexivity.
Qed.

(** What an item adds does not depend on what was collected before, nor
    does its being accepted depend on the text the errors quote. *)
Lemma expandItem_acc raw rng item acc :
  expandItem raw rng item acc =
  match expandItem raw rng item [] with
  | inl r => inl (acc ++ r)
  | inr e => inr e
  end.
Proof.
  unfold expandItem.
  destruct (length (SplitN item "/" 2) =? 2)%nat.
  - destruct (parseRange _ rng) as [r [e|]]; [reflexivity|].
    destruct (ParseUint _) as [inc e]. destruct (_ || _); [reflexivity|].
    rewrite !stepLoop_filter by reflexivity. reflexivity.
  - destruct (ParseUint item) as [n [e|]].
    + destruct (parseRange item rng) as [r [e'|]]; [reflexivity|].
      rewrite !fillLoop_fromTo by reflexivity. reflexivity.
    + destruct (_ || _); reflexivity.
Qed.

Lemma expandItem_raw raw raw' rng item acc :
  match expandItem raw rng item acc, expandItem raw' rng item acc with
  | inl r, inl r' => r = r'
  | inr _, inr _ => True
  | _, _ => False
  end.
Proof.
  unfold expandItem.
  destruct (length (SplitN item "/" 2) =? 2)%nat.
  - destruct (parseRange _ rng) as [r [e|]]; [exact I|].
    destruct (ParseUint _) as [inc e]. destruct (_ || _); [exact I|reflexivity].
  - destruct (ParseUint item) as [n [e|]].
    + destruct (parseRange item rng) as [r [e'|]]; [exact I|reflexivity].
    + destruct (_ || _); [exact I|reflexivity].
Qed.

Lemma expandItems_app raw rng l1 : forall l2 acc,
  expandItems raw rng (l1 ++ l2) acc =
  match expandItems raw rng l1 acc with
  | inl acc1 => expandItems raw rng l2 acc1
  | inr e => inr e
  end.
Proof.
  induction l1 as [|item l1 IH]; intros l2 acc; simpl; [reflexivity|].
  destruct (expandItem raw rng item acc); [apply IH|reflexivity].
Qed.

Lemma expandItems_acc raw rng items : forall acc,
  expandItems raw rng items acc =
  match expandItems raw rng items [] with
  | inl r => inl (acc ++ r)
  | inr e => inr e
  end.
Proof.
  induction items as [|item items IH]; intros acc; simpl.
  - rewrite app_nil_r. reflexivity.
  - rewrite (expandItem_acc raw rng item acc).
    destruct (expandItem raw rng item []) as [r|e]; [|reflexivity].
    rewrite (IH (acc ++ r)), (IH r).
    destruct (expandItems raw rng items []) as [r'|e']; [|reflexivity].
    simpl. rewrite app_assoc. reflexivity.
Qed.

Lemma expandItems_raw raw raw' rng items : forall acc,
  values (expandItems raw rng items acc) = values (expandItems raw' rng items acc).
Proof.
  induction items as [|item items IH]; intros acc; simpl; [reflexivity|].
  pose proof (expandItem_raw raw raw' rng item acc) as H.
  destruct (expandItem raw rng item acc), (expandItem raw' rng item acc);
    try contradiction; [subst; apply IH|reflexivity].
Qed.

Lemma entityParams_aliases st ep :
  entityParams !! st = Some ep ->
  Forall (fun v => forallb lowerLetter v = true) (Aliases ep).
Proof.
  unfold entityParams. intros H.
  repeat (apply lookup_insert_Some in H as [[<- <-]|[? H]];
          [cbn [Aliases map]; repeat constructor|]).
  apply lookup_singleton_Some in H as [<- <-]. cbn [Aliases map]. repeat constructor.
Qed.

Lemma plain_not_lower c : plainByte c = true -> lowerLetter c = false.
Proof. unfold plainByte, lowerLetter. lia. Qed.

Lemma plain_ascii c : plainByte c = true -> byteval c < 0x80.
Proof. unfold plainByte. lia. Qed.

Lemma plain_lowerByte c : plainByte c = true -> lowerByte c = c.
Proof.
  unfold plainByte, lowerByte. intros H.
  destruct ((65 <=? byteval c) && (byteval c <=? 90)) eqn:E; [lia|reflexivity].
Qed.

Lemma replaceAliases_absent aliases : forall i s,
  (forall v c, In v aliases -> In c s -> ~ In c v) ->
  replaceAliases i aliases s = s.
Proof.
  induction aliases as [|v aliases IH]; intros i s H; simpl; [reflexivity|].
  destruct v as [|v0 v'] eqn:Ev.
  - apply IH. intros w c Hw. apply H. right. exact Hw.
  - rewrite Replace_absent; [|discriminate|intros c Hc; apply (H (v0 :: v') c); [left; reflexivity|exact Hc]].
    apply IH. intros w c Hw. apply H. right. exact Hw.
Qed.

Lemma normalize_plain caseTable st ep s :
  entityParams !! st = Some ep -> forallb plainByte s = true ->
  normalize caseTable ep s = s.
Proof.
  intros Hep Hs. unfold normalize.
  rewrite forallb_forall in Hs.
  rewrite ToLower_ascii by (intros c Hc; apply plain_ascii, Hs, Hc).
  assert (map lowerByte s = s) as ->.
  { rewrite <- (map_id s) at 2. apply map_ext_in. intros c Hc. apply plain_lowerByte, Hs, Hc. }
  apply replaceAliases_absent. intros v c Hv Hc Hin.
  pose proof (entityParams_aliases st ep Hep) as Hall.
  rewrite List.Forall_forall in Hall. specialize (Hall v Hv).
  rewrite forallb_forall in Hall. specialize (Hall c Hin).
  rewrite (plain_not_lower c (Hs c Hc)) in Hall. discriminate.
Qed.

Lemma Split_no_sep sep s : ~ In sep s -> Split s sep = [s].
Proof. intros H. unfold Split. rewrite splitOn_no_sep by assumption. reflexivity. Qed.

Lemma expand_stored caseTable raw st ep :
  entityParams !! st = Some ep ->
  expand caseTable raw st = option_map (stored st) (values (collect caseTable ep raw)).
Proof.
  intros Hep. unfold expand, newScheduleEntity, init. cbn [typ Crontabparser.raw].
  rewrite Hep. destruct (collect caseTable ep raw); reflexivity.
Qed.

(** A field of one item, written without letters. *)
Lemma expand_item caseTable st ep s :
  entityParams !! st = Some ep ->
  forallb plainByte s = true -> ~ In ","%char s ->
  expand caseTable s st = option_map (stored st) (values (expandItem s (Range ep) s [])).
Proof.
  intros Hep Hs Hc. rewrite (expand_stored _ _ _ _ Hep). unfold collect.
  rewrite (normalize_plain _ _ _ _ Hep Hs), Split_no_sep by assumption.
  cbn [expandItems]. destruct (expandItem s (Range ep) s []); reflexivity.
Qed.

Lemma stored_spec st acc :
  StronglySorted Z.lt (stored st acc) /\
  forall v, In v (stored st acc) <->
            In v acc \/ (st = scheduleDayOfWeek /\ v = 0 /\ In 7 acc).
Proof.
  unfold stored. destruct (uniq_empty (addSunday st acc)) as [Hnd Hin]. split.
  - apply Ints_strict, Hnd.
  - intros v. rewrite Ints_In, Hin. apply addSunday_In.
Qed.

Lemma stored_strict st acc :
  StronglySorted Z.lt acc -> (st = scheduleDayOfWeek -> In 7 acc -> In 0 acc) ->
  stored st acc = acc.
Proof.
  intros Hs H. destruct (stored_spec st acc) as [Hst Hin].
  apply strict_ext; [assumption..|]. intros v. rewrite Hin. split; [|tauto].
  intros [Hv|(-> & -> & H7)]; [assumption|apply H; [reflexivity|assumption]].
Qed.

Lemma stored_sunday acc :
  StronglySorted Z.lt acc -> In 7 acc -> Forall (Z.lt 0) acc ->
  stored scheduleDayOfWeek acc = 0 :: acc.
Proof.
  intros Hs H7 Hpos. destruct (stored_spec scheduleDayOfWeek acc) as [Hst Hin].
  apply strict_ext; [assumption|constructor; assumption|].
  intros v. rewrite Hin. simpl. split.
  - intros [Hv|(_ & -> & _)]; [right; assumption|left; reflexivity].
  - intros [<-|Hv]; [right; repeat split; assumption|left; assumption].
Qed.

Lemma digits_plain d : forallb isDigit d = true -> forallb plainByte d = true.
Proof.
  rewrite !forallb_forall. intros H c Hc. specialize (H c Hc).
  apply isDigit_byteval in H. unfold plainByte. lia.
Qed.

Lemma decimal_nonneg d : forallb isDigit d = true -> 0 <= decimal d.
Proof. intros H. apply (digitsValue_ge d 0 H). lia. Qed.

Lemma existsb_In (x : Z) l : existsb (Z.eqb x) l = true <-> In x l.
Proof.
  rewrite existsb_exists. split.
  - intros (y & Hy & E). apply Z.eqb_eq in E. subst. assumption.
  - intros H. exists x. split; [assumption|apply Z.eqb_refl].
Qed.

Lemma stored_withSunday st l :
  StronglySorted Z.lt l -> Forall (Z.le 0) l -> stored st l = withSunday st l.
Proof.
  intros Hs Hpos. unfold withSunday.
  destruct (Z.eqb_spec st scheduleDayOfWeek) as [->|Hne]; cbn [andb].
  - destruct (existsb (Z.eqb 7) l) eqn:E7; cbn [andb].
    + apply existsb_In in E7.
      destruct (existsb (Z.eqb 0) l) eqn:E0; cbn [negb].
      * apply existsb_In in E0. apply stored_strict; auto.
      * apply stored_sunday; try assumption.
        rewrite List.Forall_forall in *. intros v Hv.
        specialize (Hpos v Hv).
        assert (v <> 0); [|lia]. intros ->.
        apply existsb_In in Hv. congruence.
    + apply stored_strict; [assumption|]. intros _ H7.
      apply existsb_In in H7. congruence.
  - apply stored_strict; [assumption|]. intros ?. contradiction.
Qed.

Lemma kinds_range st ep :
  entityParams !! st = Some ep -> 0 <= fst (Range ep) /\ snd (Range ep) < 100.
Proof.
  intros H. apply entityParams_kinds in H.
  destruct H as [[_ ->]|[[_ ->]|[[_ ->]|[[_ ->]|[_ ->]]]]]; simpl; lia.
Qed.

Lemma fromTo_nonneg lo hi : 0 <= lo -> Forall (Z.le 0) (fromTo lo hi).
Proof.
  intros H. apply List.Forall_forall. intros v Hv. apply fromTo_In in Hv. lia.
Qed.

Lemma everyStep_nonneg a b s : 0 < s -> 0 <= a -> Forall (Z.le 0) (everyStep a b s).
Proof.
  intros Hs H. apply List.Forall_forall. intros v Hv.
  apply everyStep_In in Hv; lia.
Qed.

(** A negative step keeps what its absolute value keeps: [%] takes the
    sign of the dividend. *)
Lemma stepLoop_negative a b s acc :
  s < 0 -> stepLoop (trips a b) a b s 0 acc = acc ++ everyStep a b (- s).
Proof.
  intros Hs. rewrite <- stepLoop_everyStep by lia.
  rewrite !stepLoop_filter by reflexivity. f_equal.
  apply List.filter_ext. intros v.
  rewrite <- (Z.opp_involutive s) at 1. rewrite Z.rem_opp_r by lia. reflexivity.
Qed.

Lemma stepped_item_any raw rng R s a b n acc :
  parseRange R rng = ((a, b), None) ->
  ParseUint s = (n, None) -> 0 < n <= maxUint64 ->
  expandItem raw rng (R ++ "/"%char :: s) acc
  = inl (acc ++ everyStep a b (effectiveStep n)).
Proof.
  intros HR Hs Hn. unfold effectiveStep.
  destruct (Z.ltb_spec n (2 ^ 63)) as [Hlt|Hge].
  - apply (stepped_item raw rng R s a b n acc HR Hs). lia.
  - unfold expandItem.
    rewrite SplitN_first by (eapply parseRange_no_slash; eauto).
    cbn [app length Nat.eqb index nth]. rewrite HR, Hs.
    cbn [fst snd].
    rewrite bool_decide_eq_true_2 by reflexivity. cbn [negb orb].
    destruct (Z.eqb_spec n 0); [lia|].
    unfold intOfUint64. destruct (Z.ltb_spec n (2 ^ 63)); [lia|].
    rewrite maxUint64_eq in Hn.
    rewrite stepLoop_negative by lia. do 3 f_equal. lia.
Qed.

Lemma parseRange_plain R rng r :
  parseRange R rng = (r, None) ->
  forallb plainByte R = true /\ ~ In ","%char R.
Proof.
  intros H. unfold parseRange in H.
  destruct (decide (R = str "*")) as [->|Hne].
  - split; [reflexivity|]. intros [E|[]]. discriminate.
  - destruct (FindStringSubmatch rangeReg 2 R) as [m|] eqn:Hm.
    + apply rangeReg_sound in Hm as (da & db & [_ Ha] & [_ Hb] & ->). split.
      * rewrite forallb_app. cbn [forallb].
        rewrite (digits_plain _ Ha), (digits_plain _ Hb). reflexivity.
      * intros Hin. apply in_app_iff in Hin as [Hin|[Hin|Hin]]; [|discriminate|].
        -- exact (digits_no_byte da ","%char Ha eq_refl Hin).
        -- exact (digits_no_byte db ","%char Hb eq_refl Hin).
    + simpl in H. discriminate.
Qed.

Lemma parseRange_nonneg R rng a b :
  parseRange R rng = ((a, b), None) -> 0 <= fst rng -> 0 <= a.
Proof.
  intros H Hrng. apply parseRange_bounds in H as [E|H]; simpl in *.
  - rewrite <- E in Hrng. exact Hrng.
  - lia.
Qed.

Lemma parseDigits_not_digits s : forall n,
  forallb isDigit s = false -> snd (parseDigits n s) <> None.
Proof.
  induction s as [|c s IH]; intros n H; simpl in *; [discriminate|].
  destruct (isDigit c); simpl in *; [|discriminate].
  destruct (_ <=? n); [discriminate|].
  destruct (_ <? _); [discriminate|]. apply IH, H.
Qed.

Lemma ParseUint_rejects s :
  ~ (forallb isDigit s = true /\ 0 < decimal s <= maxUint64) ->
  snd (ParseUint s) <> None \/ fst (ParseUint s) = 0.
Proof.
  intros H. destruct s as [|c s]; [left; discriminate|].
  destruct (forallb isDigit (c :: s)) eqn:Hd.
  - rewrite ParseUint_digits by (discriminate || assumption).
    pose proof (decimal_nonneg _ Hd).
    destruct (Z.leb_spec (decimal (c :: s)) maxUint64); [|left; discriminate].
    right. simpl. destruct (Z.eq_dec (decimal (c :: s)) 0); [assumption|].
    exfalso. apply H. split; [reflexivity|lia].
  - left. unfold ParseUint. apply parseDigits_not_digits, Hd.
Qed.

Lemma newScheduleEntity_error caseTable raw st ep e :
  entityParams !! st = Some ep -> collect caseTable ep raw = inr e ->
  newScheduleEntity caseTable raw st = (None, Some e).
Proof.
  intros Hep Hc. unfold newScheduleEntity, init. cbn [typ Crontabparser.raw].
  rewrite Hep, Hc. reflexivity.
Qed.

Lemma collect_item caseTable st ep s :
  entityParams !! st = Some ep ->
  forallb plainByte s = true -> ~ In ","%char s ->
  collect caseTable ep s = expandItem s (Range ep) s [].
Proof.
  intros Hep Hs Hc. unfold collect.
  rewrite (normalize_plain _ _ _ _ Hep Hs), Split_no_sep by assumption.
  cbn [expandItems]. destruct (expandItem s (Range ep) s []); reflexivity.
Qed.

Lemma leadInfo_bounds s0 sz lo hi :
  leadInfo s0 = Some (sz, lo, hi) ->
  (sz = 2 \/ sz = 3 \/ sz = 4)%nat /\ 0x80 <= lo.
Proof.
  unfold leadInfo. intros H.
  repeat match type of H with
         | (if ?b then _ else _) = _ => destruct b
         end; try discriminate; injection H as <- <- <-; split; (lia || tauto).
Qed.

Lemma contByte_ascii c : byteval c < 0x80 -> contByte (byteval c) = false.
Proof. unfold contByte. lia. Qed.

(** An ASCII byte ends the sequence before it: what is decoded before it
    does not depend on what follows. *)
Lemma decode_before_ascii x c y :
  x <> [] -> byteval c < 0x80 ->
  DecodeRuneInString (x ++ c :: y) = DecodeRuneInString x.
Proof.
  intros Hx Hc. destruct x as [|c0 t]; [congruence|]. clear Hx.
  pose proof (contByte_ascii c Hc) as Hcont.
  cbn [app]. unfold DecodeRuneInString.
  destruct (byteval c0 <? RuneSelf); [reflexivity|].
  destruct (leadInfo (byteval c0)) as [[[sz lo] hi]|] eqn:Hlead; [|reflexivity].
  apply leadInfo_bounds in Hlead as [Hsz Hlo].
  assert (Hlow : (byteval c <? lo) = true) by lia.
  destruct t as [|c1 [|c2 [|c3 t]]]; cbn [app length];
    destruct Hsz as [-> | [-> | ->]]; cbn [Nat.ltb Nat.leb];
    rewrite ?Hlow, ?Hcont; cbn [orb negb];
    repeat match goal with
           | |- context [if ?b then _ else _] => destruct b
           end; reflexivity.
Qed.

Lemma decode_width_le s : (snd (DecodeRuneInString s) <= length s)%nat.
Proof.
  destruct s as [|c0 t]; [simpl; lia|]. unfold DecodeRuneInString.
  destruct (byteval c0 <? RuneSelf); [simpl; lia|].
  destruct (leadInfo (byteval c0)) as [[[sz lo] hi]|] eqn:Hlead; [|simpl; lia].
  apply leadInfo_bounds in Hlead as [Hsz Hlo].
  destruct (Nat.ltb_spec (length (c0 :: t)) sz); [simpl; lia|].
  destruct t as [|c1 t]; [simpl; lia|].
  destruct (_ || _); [simpl; lia|].
  destruct (Nat.leb_spec sz 2); [simpl; lia|].
  destruct t as [|c2 t]; [simpl; lia|].
  destruct (negb _); [simpl; lia|].
  destruct (Nat.leb_spec sz 3); [simpl; lia|].
  destruct t as [|c3 t]; [simpl; lia|].
  destruct (negb _); simpl; lia.
Qed.

Lemma Map_before_ascii mapping c y x : forall pending,
  (pending <= length x)%nat -> byteval c < 0x80 ->
  Map mapping pending (x ++ c :: y) = Map mapping pending x ++ Map mapping 0 (c :: y).
Proof.
  induction x as [|x0 x IH]; intros pending Hp Hc.
  - simpl in Hp. assert (pending = 0%nat) as -> by lia. reflexivity.
  - destruct pending as [|p].
    + change ((x0 :: x) ++ c :: y) with (x0 :: (x ++ c :: y)).
      cbn [Map].
      change (x0 :: (x ++ c :: y)) with ((x0 :: x) ++ c :: y).
      rewrite decode_before_ascii by (discriminate || assumption).
      pose proof (decode_width_le (x0 :: x)) as Hw.
      destruct (DecodeRuneInString (x0 :: x)) as [r w]. cbn [snd length] in Hw.
      rewrite IH by (assumption || lia). rewrite app_assoc. reflexivity.
    + cbn [app Map]. apply IH; [simpl in Hp; lia|assumption].
Qed.

Lemma ToLower_sep caseTable a c b :
  plainByte c = true ->
  ToLower caseTable (a ++ c :: b) = ToLower caseTable a ++ c :: ToLower caseTable b.
Proof.
  intros Hc. pose proof (plain_ascii c Hc) as Hlt. unfold ToLower.
  rewrite Map_before_ascii by (lia || assumption).
  rewrite Map_ascii_step by assumption.
  rewrite lower_ascii_byte by assumption.
  rewrite plain_lowerByte by assumption. reflexivity.
Qed.

Lemma hasPrefix_length old : forall s,
  hasPrefix s old = true -> (length old <= length s)%nat.
Proof.
  induction old as [|p old IH]; intros s H; simpl; [lia|].
  destruct s as [|c s]; simpl in H; [discriminate|].
  apply andb_true_iff in H as [_ H]. apply IH in H. simpl. lia.
Qed.

Lemma hasPrefix_sep c y old : forall x,
  ~ In c old -> old <> [] ->
  hasPrefix (x ++ c :: y) old = hasPrefix x old.
Proof.
  induction old as [|p old IH]; intros x Hc Hne; [congruence|].
  destruct x as [|x0 x].
  - cbn [app]. apply hasPrefix_head; assumption.
  - cbn [app hasPrefix]. destruct (Ascii.eqb p x0); [|reflexivity]. cbn [andb].
    destruct old as [|q old]; [destruct x; reflexivity|].
    apply IH; [simpl in *; tauto|discriminate].
Qed.

Lemma replaceFrom_sep old new c y x : forall skip,
  old <> [] -> ~ In c old -> (skip <= length x)%nat ->
  replaceFrom old new skip (x ++ c :: y)
  = replaceFrom old new skip x ++ c :: replaceFrom old new 0 y.
Proof.
  induction x as [|x0 x IH]; intros skip Hne Hc Hs.
  - simpl in Hs. assert (skip = 0%nat) as -> by lia.
    cbn [app replaceFrom]. rewrite hasPrefix_head by assumption. reflexivity.
  - destruct skip as [|k].
    + change ((x0 :: x) ++ c :: y) with (x0 :: (x ++ c :: y)).
      cbn [replaceFrom].
      change (x0 :: (x ++ c :: y)) with ((x0 :: x) ++ c :: y).
      rewrite hasPrefix_sep by assumption.
      destruct (hasPrefix (x0 :: x) old) eqn:Hp.
      * apply hasPrefix_length in Hp. simpl in Hp.
        rewrite IH by (assumption || lia). rewrite app_assoc. reflexivity.
      * rewrite IH by (assumption || lia). reflexivity.
    + cbn [app replaceFrom]. apply IH; [assumption..|simpl in Hs; lia].
Qed.

Lemma Replace_sep old new c x y :
  old <> [] -> ~ In c old ->
  Replace (x ++ c :: y) old new = Replace x old new ++ c :: Replace y old new.
Proof.
  intros Hne Hc. unfold Replace. destruct old; [congruence|].
  apply replaceFrom_sep; [assumption..|lia].
Qed.

Lemma replaceAliases_sep c aliases : forall i x y,
  (forall v, In v aliases -> ~ In c v) ->
  replaceAliases i aliases (x ++ c :: y)
  = replaceAliases i aliases x ++ c :: replaceAliases i aliases y.
Proof.
  induction aliases as [|v aliases IH]; intros i x y H; [reflexivity|].
  cbn [replaceAliases]. destruct v as [|v0 v'].
  - apply IH. intros w Hw. apply H. right. exact Hw.
  - rewrite Replace_sep; [|discriminate|apply H; left; reflexivity].
    apply IH. intros w Hw. apply H. right. exact Hw.
Qed.

Lemma aliases_no_plain st ep v c :
  entityParams !! st = Some ep -> In v (Aliases ep) -> plainByte c = true -> ~ In c v.
Proof.
  intros Hep Hv Hc Hin.
  pose proof (entityParams_aliases st ep Hep) as Hall.
  rewrite List.Forall_forall in Hall. specialize (Hall v Hv).
  rewrite forallb_forall in Hall. specialize (Hall c Hin).
  rewrite (plain_not_lower c Hc) in Hall. discriminate.
Qed.

Lemma normalize_sep caseTable st ep c a b :
  entityParams !! st = Some ep -> plainByte c = true ->
  normalize caseTable ep (a ++ c :: b)
  = normalize caseTable ep a ++ c :: normalize caseTable ep b.
Proof.
  intros Hep Hc. unfold normalize. rewrite ToLower_sep by assumption.
  apply replaceAliases_sep. intros v Hv. eapply aliases_no_plain; eauto.
Qed.

Lemma splitOn_limit sep s : forall l1 l2 cur,
  (length s <= l1)%nat -> (length s <= l2)%nat ->
  splitOn sep l1 cur s = splitOn sep l2 cur s.
Proof.
  induction s as [|c s IH]; intros l1 l2 cur H1 H2; [reflexivity|].
  simpl in H1, H2. destruct l1 as [|l1]; [lia|]. destruct l2 as [|l2]; [lia|].
  cbn [splitOn]. destruct (Ascii.eqb c sep).
  - f_equal. apply IH; lia.
  - apply IH; lia.
Qed.

Lemma splitOn_app sep y x : forall cur l,
  (length (x ++ sep :: y) <= l)%nat ->
  splitOn sep l cur (x ++ sep :: y) = splitOn sep l cur x ++ splitOn sep l [] y.
Proof.
  induction x as [|c x IH]; intros cur l Hl.
  - cbn [app length] in *. destruct l as [|l]; [lia|].
    cbn [splitOn]. rewrite Ascii.eqb_refl. cbn [app]. f_equal.
    apply splitOn_limit; lia.
  - cbn [app length] in Hl. rewrite length_app in Hl. cbn [length] in Hl.
    destruct l as [|l]; [lia|].
    cbn [app splitOn]. destruct (Ascii.eqb c sep).
    + cbn [app]. f_equal.
      rewrite IH by (rewrite length_app; cbn [length]; lia).
      f_equal; apply splitOn_limit; lia.
    + apply IH. rewrite length_app. cbn [length]. lia.
Qed.

Lemma Split_app sep x y :
  Split (x ++ sep :: y) sep = Split x sep ++ Split y sep.
Proof.
  unfold Split. rewrite splitOn_app by lia.
  rewrite length_app. cbn [length].
  f_equal; apply splitOn_limit; lia.
Qed.

Lemma collect_comma caseTable st ep a b :
  entityParams !! st = Some ep ->
  values (collect caseTable ep (a ++ ","%char :: b))
  = both (values (collect caseTable ep a)) (values (collect caseTable ep b)).
Proof.
  intros Hep. unfold collect.
  rewrite (normalize_sep caseTable st ep) by (assumption || reflexivity).
  rewrite Split_app, expandItems_app.
  set (raw := a ++ ","%char :: b).
  rewrite <- (expandItems_raw raw a). rewrite <- (expandItems_raw raw b).
  destruct (expandItems raw (Range ep) (Split (normalize caseTable ep a) ",") [])
    as [la|e]; [|reflexivity].
  rewrite expandItems_acc.
  destruct (expandItems raw (Range ep) (Split (normalize caseTable ep b) ",") []);
    reflexivity.
Qed.

Lemma merged_spec la lb :
  StronglySorted Z.lt (merged la lb) /\
  forall v, In v (merged la lb) <-> In v la \/ In v lb.
Proof.
  unfold merged. destruct (uniq_empty (la ++ lb)) as [Hnd Hin]. split.
  - apply Ints_strict, Hnd.
  - intros v. rewrite Ints_In, Hin. apply in_app_iff.
Qed.

Lemma stored_app st la lb :
  stored st (la ++ lb) = merged (stored st la) (stored st lb).
Proof.
  destruct (stored_spec st (la ++ lb)) as [Hs Hin].
  destruct (merged_spec (stored st la) (stored st lb)) as [Hs' Hin'].
  apply strict_ext; [assumption..|]. intros v.
  rewrite Hin, Hin', (proj2 (stored_spec st la)), (proj2 (stored_spec st lb)).
  rewrite !in_app_iff. tauto.
Qed.

Lemma expand_unknown caseTable raw st :
  entityParams !! st = None -> expand caseTable raw st = None.
Proof.
  intros H. unfold expand, newScheduleEntity, init. cbn [typ]. rewrite H. reflexivity.
Qed.

Lemma expand_comma caseTable a b st :
  expand caseTable (a ++ ","%char :: b) st =
  match expand caseTable a st, expand caseTable b st with
  | Some la, Some lb => Some (merged la lb)
  | _, _ => None
  end.
Proof.
  destruct (entityParams !! st) as [ep|] eqn:Hep.
  - rewrite !(expand_stored caseTable _ st ep Hep), (collect_comma caseTable st ep a b Hep).
    destruct (values (collect caseTable ep a)) as [la|],
             (values (collect caseTable ep b)) as [lb|]; cbn [both option_map];
      try reflexivity.
    rewrite stored_app. reflexivity.
  - rewrite !expand_unknown by assumption. reflexivity.
Qed.

Lemma expand_strict caseTable raw st l :
  expand caseTable raw st = Some l -> StronglySorted Z.lt l.
Proof.
  intros H. apply expand_Some in H as (ep & acc & _ & _ & ->).
  apply (stored_spec st acc).
Qed.

Lemma expand_empty caseTable st : expand caseTable [] st = None.
Proof.
  destruct (entityParams !! st) as [ep|] eqn:Hep.
  - rewrite (expand_item caseTable st ep [] Hep eq_refl (fun H => H)). reflexivity.
  - apply expand_unknown, Hep.
Qed.

Lemma merged_comm la lb : merged la lb = merged lb la.
Proof.
  destruct (merged_spec la lb) as [H1 H2]. destruct (merged_spec lb la) as [H3 H4].
  apply strict_ext; [assumption..|]. intros v. rewrite H2, H4. tauto.
Qed.

Lemma merged_idem l : StronglySorted Z.lt l -> merged l l = l.
Proof.
  intros H. destruct (merged_spec l l) as [H1 H2].
  apply strict_ext; [assumption..|]. intros v. rewrite H2. tauto.
Qed.

Lemma entityParams_None st : entityParams !! st = None <-> st < 0 \/ 4 < st.
Proof.
  unfold entityParams, scheduleMinute, scheduleHour, scheduleDay, scheduleMonth,
    scheduleDayOfWeek. split.
  - intros H.
    repeat (apply lookup_insert_None in H as [H ?]).
    try apply lookup_singleton_None in H. lia.
  - intros H.
    repeat (apply lookup_insert_None; split; [|lia]).
    first [apply lookup_empty | apply lookup_singleton_None; lia].
Qed.

Lemma newScheduleEntity_Some caseTable raw st se :
  newScheduleEntity caseTable raw st = (Some se, None) ->
  Crontabparser.raw se = raw /\ typ se = st /\
  expand caseTable raw st = Some (expanded se).
Proof.
  unfold expand. intros H. rewrite H. cbn [fst option_map].
  unfold newScheduleEntity, init in H. cbn [typ Crontabparser.raw] in H.
  destruct (entityParams !! st) as [ep|]; [|discriminate].
  destruct (collect caseTable ep raw) as [acc|e]; [|discriminate].
  injection H as <-. auto.
Qed.

Lemma expand_domain caseTable raw st ep l v :
  entityParams !! st = Some ep -> expand caseTable raw st = Some l ->
  In v l -> inDomain (Range ep) v.
Proof.
  intros Hep H Hv. rewrite (expand_stored caseTable raw st ep Hep) in H.
  destruct (collect caseTable ep raw) as [acc|e] eqn:Hc; [|discriminate].
  injection H as <-. apply (proj2 (stored_spec st acc)) in Hv.
  destruct Hv as [Hv|(-> & -> & H7)].
  - unfold collect in Hc.
    eapply (expandItems_domain _ _ _ _ _ Hc); [|exact Hv]. intros ? [].
  - apply entityParams_kinds in Hep.
    destruct Hep as [[E _]|[[E _]|[[E _]|[[E _]|[_ ->]]]]]; try discriminate.
    unfold inDomain. simpl. lia.
Qed.

Lemma lowerByte_idem c : lowerByte (lowerByte c) = lowerByte c.
Proof.
  unfold lowerByte.
  destruct ((65 <=? byteval c) && (byteval c <=? 90)) eqn:E; [|rewrite E; reflexivity].
  assert (byteval (byteof (byteval c + 32)) = byteval c + 32) as ->.
  { unfold byteval, byteof in *. rewrite N_ascii_embedding; lia. }
  destruct ((65 <=? byteval c + 32) && (byteval c + 32 <=? 90)) eqn:E'; [lia|reflexivity].
Qed.

Lemma lowerByte_ascii c : byteval c < 0x80 -> byteval (lowerByte c) < 0x80.
Proof.
  unfold lowerByte. intros H.
  destruct ((65 <=? byteval c) && (byteval c <=? 90)) eqn:E; [|assumption].
  unfold byteval, byteof in *. rewrite N_ascii_embedding; lia.
Qed.

Lemma normalize_lower caseTable ep raw :
  (forall c, In c raw -> byteval c < 0x80) ->
  normalize caseTable ep (map lowerByte raw) = normalize caseTable ep raw.
Proof.
  intros H. unfold normalize. rewrite !ToLower_ascii.
  - rewrite map_map. f_equal. apply map_ext. intros c. apply lowerByte_idem.
  - assumption.
  - intros c Hc. apply in_map_iff in Hc as (c' & <- & Hc').
    apply lowerByte_ascii, H, Hc'.
Qed.

Lemma parseRange_error item rng r e :
  parseRange item rng = (r, Some e) -> e = invalidRange item.
Proof.
  unfold parseRange. destruct (decide _); [discriminate|].
  destruct (_ =? _)%nat; [destruct (_ || _)|]; intros H;
    first [discriminate | injection H as <- <-; reflexivity].
Qed.

Lemma expandItem_error raw rng item acc e :
  expandItem raw rng item acc = inr e -> itemError raw e.
Proof.
  unfold expandItem, itemError.
  destruct (length (SplitN item "/" 2) =? 2)%nat.
  - destruct (parseRange _ rng) as [r [e'|]] eqn:HR.
    + apply parseRange_error in HR. subst e'. intros H. injection H as <-.
      right. left. eexists. reflexivity.
    + destruct (ParseUint _) as [inc e']. destruct (_ || _).
      * intros H. injection H as <-. right. right. eexists. reflexivity.
      * discriminate.
  - destruct (ParseUint item) as [n [e'|]].
    + destruct (parseRange item rng) as [r [e''|]] eqn:HR; [|discriminate].
      apply parseRange_error in HR. subst e''. intros H. injection H as <-.
      right. left. eexists. reflexivity.
    + destruct (_ || _); [|discriminate].
      intros H. injection H as <-. left. reflexivity.
Qed.

Lemma expandItems_error raw rng items : forall acc e,
  expandItems raw rng items acc = inr e -> itemError raw e.
Proof.
  induction items as [|item items IH]; intros acc e H; simpl in H; [discriminate|].
  destruct (expandItem raw rng item acc) as [acc'|e'] eqn:HI.
  - eapply IH; eassumption.
  - injection H as <-. eapply expandItem_error; eassumption.
Qed.

Lemma splitOn_nonempty sep s : forall limit cur, splitOn sep limit cur s <> [].
Proof.
  induction s as [|c s IH]; intros limit cur; simpl; [discriminate|].
  destruct limit; [apply IH|]. destruct (Ascii.eqb c sep); [discriminate|apply IH].
Qed.

(** An accepted item adds a value: the first of its range. *)
Lemma expandItem_adds raw rng item acc acc' :
  fst rng <= snd rng ->
  expandItem raw rng item acc = inl acc' ->
  exists v more, acc' = acc ++ v :: more.
Proof.
  intros Hrng. unfold expandItem.
  destruct (length (SplitN item "/" 2) =? 2)%nat.
  - destruct (parseRange _ rng) as [r [e|]] eqn:HR; [discriminate|].
    destruct (ParseUint _) as [inc e]. destruct (_ || _); [discriminate|].
    intros H. injection H as <-.
    rewrite stepLoop_filter by reflexivity.
    assert (fst r <= snd r).
    { apply parseRange_bounds in HR as [->|HR]; lia. }
    rewrite fromTo_cons by assumption. cbn [List.filter].
    replace (0 + (fst r - fst r)) with 0 by lia.
    assert (Z.rem 0 (intOfUint64 inc) = 0) as -> by (destruct (intOfUint64 inc); reflexivity).
    cbn [Z.eqb]. eauto.
  - destruct (ParseUint item) as [n [e|]].
    + destruct (parseRange item rng) as [r [e'|]] eqn:HR; [discriminate|].
      intros H. injection H as <-.
      rewrite fillLoop_fromTo by reflexivity.
      assert (fst r <= snd r).
      { apply parseRange_bounds in HR as [->|HR]; lia. }
      rewrite fromTo_cons by assumption. eauto.
    + destruct (_ || _); [discriminate|].
      intros H. injection H as <-. eauto.
Qed.

Lemma expandItems_keeps raw rng items : forall acc acc',
  expandItems raw rng items acc = inl acc' -> exists more, acc' = acc ++ more.
Proof.
  intros acc acc' H. rewrite expandItems_acc in H.
  destruct (expandItems raw rng items []) as [r|e]; [|discriminate].
  injection H as <-. eauto.
Qed.

Lemma collect_adds caseTable ep raw acc :
  fst (Range ep) <= snd (Range ep) ->
  collect caseTable ep raw = inl acc -> acc <> [].
Proof.
  intros Hrng. unfold collect, Split.
  pose proof (splitOn_nonempty ","%char (normalize caseTable ep raw)
                               (length (normalize caseTable ep raw)) []) as Hne.
  destruct (splitOn _ _ _ _) as [|item items]; [congruence|].
  cbn [expandItems].
  destruct (expandItem raw (Range ep) item []) as [acc1|e] eqn:HI; [|discriminate].
  apply expandItem_adds in HI as (v & more & ->); [|assumption].
  intros H. apply expandItems_keeps in H as (more' & ->). discriminate.
Qed.

Lemma kinds_ordered st ep :
  entityParams !! st = Some ep -> fst (Range ep) <= snd (Range ep).
Proof.
  intros H. apply entityParams_kinds in H.
  destruct H as [[_ ->]|[[_ ->]|[[_ ->]|[[_ ->]|[_ ->]]]]]; simpl; lia.
Qed.

Lemma expand_nonempty caseTable raw st l :
  expand caseTable raw st = Some l -> l <> [].
Proof.
  intros H. apply expand_Some in H as (ep & acc & Hep & Hc & ->).
  apply collect_adds in Hc; [|eapply kinds_ordered; eassumption].
  destruct acc as [|v acc]; [congruence|].
  fold (stored st (v :: acc)). intros E.
  assert (In v (stored st (v :: acc))) as Hin
      by (apply (stored_spec st (v :: acc)); left; left; reflexivity).
  rewrite E in Hin. exact Hin.
Qed.

Lemma splitOn_bytes (p : ascii -> bool) sep s : forall limit cur,
  p sep = true ->
  Forall (fun piece => forallb p piece = true) (splitOn sep limit cur s) ->
  forallb p (cur ++ s) = true.
Proof.
  induction s as [|c s IH]; intros limit cur Hsep H.
  - simpl in H. inversion H; subst. rewrite app_nil_r. assumption.
  - cbn [splitOn] in H.
    assert (Hgo : Forall (fun piece => forallb p piece = true)
                         (splitOn sep limit (cur ++ [c]) s) ->
                  forallb p (cur ++ c :: s) = true).
    { intros H'. apply IH in H'; [|assumption].
      rewrite <- app_assoc in H'. exact H'. }
    destruct limit as [|limit]; [apply Hgo, H|].
    destruct (Ascii.eqb c sep) eqn:E; [|apply Hgo, H].
    apply Ascii.eqb_eq in E. subst c. inversion H as [|? ? Hcur Hrest]; subst.
    apply IH in Hrest; [|assumption]. cbn [app] in Hrest.
    rewrite forallb_app. cbn [forallb]. rewrite Hcur, Hsep, Hrest. reflexivity.
Qed.

Lemma digits_fieldByte d : forallb isDigit d = true -> forallb fieldByte d = true.
Proof.
  rewrite !forallb_forall. intros H c Hc. unfold fieldByte. rewrite (H c Hc). reflexivity.
Qed.

Lemma ParseUint_accepts s n : ParseUint s = (n, None) -> forallb isDigit s = true.
Proof.
  intros H. destruct (forallb isDigit s) eqn:E; [reflexivity|].
  destruct s as [|c s]; [discriminate|].
  pose proof (parseDigits_not_digits (c :: s) 0 E) as Hn.
  unfold ParseUint in H. rewrite H in Hn. contradiction.
Qed.

Lemma parseRange_fieldByte R rng r :
  parseRange R rng = (r, None) -> forallb fieldByte R = true.
Proof.
  intros H. unfold parseRange in H.
  destruct (decide (R = str "*")) as [->|Hne]; [reflexivity|].
  destruct (FindStringSubmatch rangeReg 2 R) as [m|] eqn:Hm.
  - apply rangeReg_sound in Hm as (da & db & [_ Ha] & [_ Hb] & ->).
    rewrite forallb_app. cbn [forallb].
    rewrite (digits_fieldByte _ Ha), (digits_fieldByte _ Hb). reflexivity.
  - simpl in H. discriminate.
Qed.

Lemma expandItem_fieldByte raw rng item acc acc' :
  expandItem raw rng item acc = inl acc' -> forallb fieldByte item = true.
Proof.
  unfold expandItem.
  destruct (length (SplitN item "/" 2) =? 2)%nat eqn:Hlen.
  - destruct (SplitN item "/" 2) as [|R [|s [|? ?]]] eqn:Hsplit; try discriminate.
    cbn [index nth].
    destruct (parseRange R rng) as [r [e|]] eqn:HR; [discriminate|].
    destruct (ParseUint s) as [inc [e|]] eqn:Hs.
    { rewrite bool_decide_eq_false_2 by discriminate. discriminate. }
    intros _. apply parseRange_fieldByte in HR. apply ParseUint_accepts in Hs.
    unfold SplitN in Hsplit. change (2 =? 0) with false in Hsplit.
    change (2 <? 0) with false in Hsplit. cbv iota in Hsplit.
    apply (splitOn_bytes fieldByte "/"%char item (Z.to_nat (2 - 1)) [] eq_refl).
    rewrite Hsplit. repeat constructor; [assumption|].
    apply digits_fieldByte. assumption.
  - destruct (ParseUint item) as [n [e|]] eqn:Hn.
    + destruct (parseRange item rng) as [r [e'|]] eqn:HR; [discriminate|].
      intros _. eapply parseRange_fieldByte; eassumption.
    + intros _. apply digits_fieldByte. eapply ParseUint_accepts; eassumption.
Qed.

Lemma expandItems_fieldByte raw rng items : forall acc acc',
  expandItems raw rng items acc = inl acc' ->
  Forall (fun item => forallb fieldByte item = true) items.
Proof.
  induction items as [|item items IH]; intros acc acc' H; [constructor|].
  cbn [expandItems] in H.
  destruct (expandItem raw rng item acc) as [acc1|e] eqn:HI; [|discriminate].
  constructor; [eapply expandItem_fieldByte; eassumption|eapply IH; eassumption].
Qed.

Lemma collect_fieldByte caseTable ep raw acc :
  collect caseTable ep raw = inl acc ->
  forallb fieldByte (normalize caseTable ep raw) = true.
Proof.
  unfold collect, Split. intros H. apply expandItems_fieldByte in H.
  apply (splitOn_bytes fieldByte ","%char _ _ [] eq_refl) in H. exact H.
Qed.

End ItemFacts.

(** ** More about the pattern of a job line and about [fieldsN] *)

Module LineFacts.
Import Go Spec RegexpFacts Checron FieldsFacts JobFacts.


Lemma stopsAt_units l rest :
  Forall fieldUnit l -> stopsAt isBlank rest -> stopsAt isBlank (unitsText l ++ rest).
Proof.
  intros Hl Hrest. destruct l as [|[f w] l]; [assumption|].
  inversion Hl as [|? ? [Hf _] _]; subst. cbn [unitsText flat_map fst snd].
  rewrite <- !app_assoc. apply stopsAt_field_run. assumption.
Qed.


(** More [\S+\s+] than there are fields with blanks after them do not
    match. *)
Lemma units_reject {R} (k : cont R) caps last l : forall n pos,
  Forall fieldUnit l -> forallb notBlank last = true ->
  (length l < n)%nat ->
  matchAt (Times n fieldThenBlank) pos (unitsText l ++ last) caps k = None.
Proof.
  induction l as [|[f w] l IH]; intros n pos Hl Hlast Hn.
  - destruct n as [|n]; [simpl in Hn; lia|]. cbn [unitsText flat_map app].
    destruct last as [|c last].
    + apply Times_reject. exact I.
    + rewrite Times_S. apply fieldThenBlank_last. split; [discriminate|assumption].
  - inversion Hl as [|? ? [Hf Hw] Hl']; subst. cbn [fst snd] in *.
    destruct n as [|n]; [simpl in Hn; lia|]. cbn [length] in Hn.
    destruct n as [|n]; [lia|].
    rewrite Times_S. cbn [unitsText flat_map fst snd]. rewrite <- !app_assoc.
    rewrite fieldThenBlank_step; [|assumption|assumption| |].
    + apply IH; [assumption|assumption|lia].
    + apply stopsAt_units; [assumption|].
      destruct last as [|c last]; [exact I|]. simpl in Hlast |- *.
      apply andb_true_iff in Hlast as [Hc _]. unfold notBlank in Hc.
      apply negb_true_iff in Hc. exact Hc.
    + intros pos' s' Hs' _. apply Times_reject. assumption.
Qed.


Lemma scheduleReg_too_few l last :
  (length l < 5)%nat -> Forall fieldUnit l -> forallb notBlank last = true ->
  namedPrefix (unitsText l ++ last) = false ->
  FindStringSubmatch scheduleReg 2 (unitsText l ++ last) = None.
Proof.
  intros Hlen Hl Hlast Hnamed.
  rewrite scheduleReg_eq, find_anchored.
  rewrite matchAt_Cat, matchAt_Cap, matchAt_Alt.
  rewrite namedSchedule_reject by assumption.
  rewrite units_reject by assumption. reflexivity.
Qed.

(** A match runs its continuation on what is left of the text after
    some bytes of it, with the groups it was given. *)
Lemma matchAt_sound {R} re : forall (k : cont R) pos s caps r,
  capFree re = true ->
  matchAt re pos s caps k = Some r ->
  exists j, (j <= length s)%nat /\ k (pos + j)%nat (skipn j s) caps = Some r.
Proof.
  induction re as [| |p lo hi|r1 IH1 r2 IH2|r1 IH1 r2 IH2|i re IH|n re IH];
    intros k pos s caps r Hfree H; cbn [capFree] in Hfree.
  - destruct pos; [|discriminate]. exists 0%nat. split; [lia|]. exact H.
  - destruct s; [|discriminate]. exists 0%nat. split; [simpl; lia|].
    rewrite Nat.add_0_r. exact H.
  - cbn [matchAt] in H. apply repClass_sound in H as (j & _ & _ & Hj & _ & Hk).
    exists j. split; assumption.
  - apply andb_true_iff in Hfree as [F1 F2]. rewrite matchAt_Cat in H.
    apply IH1 in H as (j1 & Hj1 & H); [|assumption].
    apply IH2 in H as (j2 & Hj2 & H); [|assumption].
    rewrite length_skipn in Hj2.
    exists (j1 + j2)%nat. split; [lia|].
    rewrite skipn_skipn in H. rewrite Nat.add_assoc.
    replace (j2 + j1)%nat with (j1 + j2)%nat in H by lia. exact H.
  - apply andb_true_iff in Hfree as [F1 F2]. rewrite matchAt_Alt in H.
    destruct (matchAt r1 pos s caps k) eqn:E.
    + injection H as <-. apply IH1 in E; assumption.
    + apply IH2 in H; assumption.
  - discriminate.
  - revert pos s caps H. induction n as [|n IHn]; intros pos s caps H.
    + exists 0%nat. split; [lia|]. rewrite Nat.add_0_r. exact H.
    + rewrite Times_S in H.
      apply IH in H as (j1 & Hj1 & H); [|assumption].
      apply IHn in H as (j2 & Hj2 & H).
      rewrite length_skipn in Hj2.
      exists (j1 + j2)%nat. split; [lia|].
      rewrite skipn_skipn in H. rewrite Nat.add_assoc.
      replace (j2 + j1)%nat with (j1 + j2)%nat in H by lia. exact H.
Qed.

(** What a match of [scheduleReg] is made of: the whole text, cut in
    group 1 and group 2, with no newline in group 2. *)
Lemma scheduleReg_sound s m0 m1 m2 :
  FindStringSubmatch scheduleReg 2 s = Some [m0; m1; m2] ->
  m0 = s /\ s = m1 ++ m2 /\ forallb notNewline m2 = true.
Proof.
  rewrite scheduleReg_eq, find_anchored.
  rewrite matchAt_Cat, matchAt_Cap.
  destruct (matchAt _ 0%nat s ∅ _) as [[e caps]|] eqn:H; [|discriminate].
  apply matchAt_sound in H as (j1 & Hj1 & H); [|reflexivity].
  rewrite matchAt_Cat, matchAt_Cap in H. cbn [matchAt] in H.
  apply repClass_sound in H as (j2 & _ & _ & Hj2 & Hall & H).
  destruct (skipn j2 (skipn j1 s)) as [|c t] eqn:Hend; [|discriminate].
  injection H as <- <-.
  assert (Hlen : (j1 + j2 = length s)%nat).
  { rewrite length_skipn in Hj2. apply (f_equal (@length _)) in Hend.
    rewrite !length_skipn in Hend. simpl in Hend. lia. }
  cbn [map seq]. unfold group.
  rewrite lookup_insert_ne by lia. rewrite !lookup_insert_eq. cbn [default].
  intros E. injection E as <- <- <-.
  cbn [Nat.add]. rewrite !Nat.sub_0_r.
  replace (j1 + j2 - j1)%nat with j2 by lia.
  rewrite Hlen, firstn_all.
  assert (firstn j2 (skipn j1 s) = skipn j1 s) as Hrest.
  { apply firstn_all2. rewrite length_skipn. lia. }
  rewrite Hrest in *. rewrite firstn_skipn. repeat split. assumption.
Qed.

Lemma runesAll_ascii s :
  (forall c, In c s -> byteval c < 0x80) -> runesAll anyRune 0 s = true.
Proof.
  induction s as [|c s IH]; intros H; [reflexivity|].
  cbn [runesAll]. unfold DecodeRuneInString.
  assert (Hc : byteval c < 0x80) by (apply H; left; reflexivity).
  unfold RuneSelf. destruct (Z.ltb_spec (byteval c) 128); [|lia].
  cbn [anyRune andb Nat.sub firstn].
  rewrite IH by (intros c' Hc'; apply H; right; exact Hc').
  rewrite andb_true_r. apply bool_decide_eq_true.
  unfold EncodeRune. pose proof (ExpandFacts.byteval_range c).
  destruct (Z.leb_spec 0 (byteval c)); [|lia].
  destruct (Z.leb_spec (byteval c) 127); [|lia].
  cbn [andb]. rewrite ExpandFacts.byteof_byteval. reflexivity.
Qed.

Lemma fieldsLoop_count total whole s : forall pending st st',
  counting total st ->
  fieldsLoop whole pending s st = Returns st' ->
  Z.of_nat (length (fieldsOf st')) <= total.
Proof.
  induction s as [|c s IH]; intros pending st st' [Hsum Hn] H.
  - cbn [fieldsLoop] in H. injection H as <-. unfold fieldsOf.
    destruct Hn as [Hn|[Hn Hb]].
    + destruct (0 <? length (buf st))%nat; [rewrite length_app; simpl|]; lia.
    + rewrite Hb. simpl. lia.
  - destruct pending as [|p]; cbn [fieldsLoop] in H.
    + destruct (DecodeRuneInString (c :: s)) as [r w].
      destruct (Z.ltb_spec (n st) 2) as [Hlt|Hge].
      * destruct Hn as [Hn|[Hn Hb]]; [lia|].
        destruct (sliceFrom whole (offset st)) as [tail|msg]; [|discriminate].
        cbn [obind] in H. injection H as <-. unfold fieldsOf. cbn [buf flds].
        rewrite Hb. cbn [length Nat.ltb Nat.leb]. rewrite length_app. simpl. lia.
      * destruct (IsSpace r).
        -- destruct (0 <? length (buf st))%nat eqn:Hb.
           ++ eapply IH; [|exact H]. split; cbn [flds n buf].
              ** rewrite length_app. simpl. lia.
              ** destruct (Z.eq_dec (n st) 2); [right; split; [lia|reflexivity]|left; lia].
           ++ eapply IH; [|exact H]. split; cbn [flds n buf]; [lia|left; lia].
        -- eapply IH; [|exact H]. split; cbn [flds n buf]; [lia|left; lia].
    + eapply IH; [|exact H]. split; assumption.
Qed.

(** The fields [fieldsN] returns are at most [n], or one when [n] is
    below 1. *)
Lemma fieldsN_count s n flds :
  fieldsN s n = Returns flds -> Z.of_nat (length flds) <= Z.max 1 n.
Proof.
  unfold fieldsN. intros H.
  destruct (fieldsLoop (TrimSpace s) 0 (TrimSpace s) (mkSplitter n 0 [] []))
    as [st'|msg] eqn:Hl; [|discriminate].
  cbn [obind] in H. injection H as <-. fold (fieldsOf st').
  destruct (Z.ltb_spec n 2) as [Hlt|Hge].
  - destruct (TrimSpace s) as [|c t] eqn:Ht.
    + cbn [fieldsLoop] in Hl. injection Hl as <-. simpl. lia.
    + cbn [fieldsLoop] in Hl. destruct (DecodeRuneInString (c :: t)) as [r w].
      cbn [Checron.n offset buf flds] in Hl.
      destruct (Z.ltb_spec n 2); [|lia].
      destruct (sliceFrom (c :: t) 0) as [tail|msg]; [|discriminate].
      cbn [obind] in Hl. injection Hl as <-. simpl. lia.
  - assert (Hc : counting n (mkSplitter n 0 [] [])) by (split; [reflexivity|left; exact Hge]).
    pose proof (fieldsLoop_count n _ _ _ _ _ Hc Hl). lia.
Qed.





End LineFacts.

(** ** Well-encoded text *)

Module EncodingFacts.
Import Go Spec RegexpFacts Checron FieldsFacts JobFacts ItemFacts LineFacts.

Lemma cont_not_start c : contByte (byteval c) = true -> RuneStart (byteval c) = false.
Proof.
  destruct c as [[|] [|] [|] [|] [|] [|] [|] [|]]; vm_compute; congruence.
Qed.

Lemma lead_is_start c : leadInfo (byteval c) <> None -> RuneStart (byteval c) = true.
Proof.
  destruct c as [[|] [|] [|] [|] [|] [|] [|] [|]]; vm_compute; congruence.
Qed.

Lemma leadInfo_hi s0 sz lo hi : leadInfo s0 = Some (sz, lo, hi) -> hi <= 0xBF.
Proof.
  unfold leadInfo. intros H.
  repeat match type of H with
         | (if ?b then _ else _) = _ => destruct b
         end; try discriminate; injection H as <- <- <-; lia.
Qed.

Lemma chunk_nonempty P c : runeChunk P c -> c <> [].
Proof.
  intros (r & Hd & He & _) ->. simpl in Hd. injection Hd as <-.
  discriminate He.
Qed.

(** The shape of a rune: one ASCII byte, or a lead byte and one to three
    continuation bytes. *)
Lemma chunk_shape P c :
  runeChunk P c ->
  exists c0 t, c = c0 :: t /\
    ((byteval c0 < 0x80 /\ t = []) \/
     (leadInfo (byteval c0) <> None /\ 0x80 <= byteval c0 /\
      (1 <= length t <= 3)%nat /\
      Forall (fun b => contByte (byteval b) = true) t)).
Proof.
  intros Hc. pose proof (chunk_nonempty P c Hc) as Hne.
  destruct Hc as (r & Hd & He & _).
  destruct c as [|c0 t]; [congruence|]. exists c0, t. split; [reflexivity|].
  assert (Hbad : (r, length (c0 :: t)) = (RuneError, 1%nat) -> False).
  { intros E. injection E as -> E. apply (f_equal (@length ascii)) in He.
    rewrite RuneError_bytes in He. simpl in He, E. lia. }
  revert Hd. unfold DecodeRuneInString.
  destruct (Z.ltb_spec (byteval c0) RuneSelf) as [Hlt|Hge].
  { intros E. injection E as _ E. left. split; [exact Hlt|].
    destruct t; [reflexivity|discriminate]. }
  unfold RuneSelf in Hge.
  destruct (leadInfo (byteval c0)) as [[[sz lo] hi]|] eqn:Hlead.
  2: { intros E. symmetry in E. destruct (Hbad E). }
  pose proof (leadInfo_bounds _ _ _ _ Hlead) as [Hsz Hlo].
  pose proof (leadInfo_hi _ _ _ _ Hlead) as Hhi.
  destruct (length (c0 :: t) <? sz)%nat.
  { intros E. symmetry in E. destruct (Hbad E). }
  destruct t as [|c1 t1].
  { intros E. symmetry in E. destruct (Hbad E). }
  destruct ((byteval c1 <? lo) || (hi <? byteval c1)) eqn:E1.
  { intros E. symmetry in E. destruct (Hbad E). }
  assert (H1 : contByte (byteval c1) = true) by (unfold contByte; lia).
  destruct (sz <=? 2)%nat.
  { intros E. injection E as _ E. right.
    destruct t1; [|discriminate]. repeat split; try assumption; try discriminate.
    - simpl; lia.
    - simpl; lia.
    - repeat constructor. assumption. }
  destruct t1 as [|c2 t2].
  { intros E. symmetry in E. destruct (Hbad E). }
  destruct (contByte (byteval c2)) eqn:E2; cbn [negb].
  2: { intros E. symmetry in E. destruct (Hbad E). }
  destruct (sz <=? 3)%nat.
  { intros E. injection E as _ E. right.
    destruct t2; [|discriminate]. repeat split; try assumption; try discriminate.
    - simpl; lia.
    - simpl; lia.
    - repeat constructor; assumption. }
  destruct t2 as [|c3 t3].
  { intros E. symmetry in E. destruct (Hbad E). }
  destruct (contByte (byteval c3)) eqn:E3; cbn [negb].
  2: { intros E. symmetry in E. destruct (Hbad E). }
  intros E. injection E as _ E. right.
  destruct t3; [|discriminate]. repeat split; try assumption; try discriminate.
  - simpl; lia.
  - simpl; lia.
  - repeat constructor; assumption.
Qed.

(** What is decoded is decoded from the bytes of its width alone. *)
Lemma decode_firstn s r w :
  DecodeRuneInString s = (r, w) -> EncodeRune r = firstn w s ->
  DecodeRuneInString (firstn w s) = (r, w).
Proof.
  intros Hd He.
  assert (Hbad : (r, w) = (RuneError, 1%nat) -> False).
  { intros E. injection E as -> ->. apply (f_equal (@length ascii)) in He.
    rewrite RuneError_bytes, length_firstn in He. lia. }
  destruct s as [|c0 t].
  { simpl in Hd. injection Hd as <- <-. reflexivity. }
  revert Hd. unfold DecodeRuneInString.
  destruct (byteval c0 <? RuneSelf) eqn:E0.
  { intros E. injection E as <- <-. cbn [firstn]. rewrite E0. reflexivity. }
  destruct (leadInfo (byteval c0)) as [[[sz lo] hi]|] eqn:Hlead.
  2: { intros E. symmetry in E. destruct (Hbad E). }
  pose proof (leadInfo_bounds _ _ _ _ Hlead) as [Hsz Hlo].
  destruct (length (c0 :: t) <? sz)%nat.
  { intros E. symmetry in E. destruct (Hbad E). }
  destruct t as [|c1 t1].
  { intros E. symmetry in E. destruct (Hbad E). }
  destruct ((byteval c1 <? lo) || (hi <? byteval c1)) eqn:E1.
  { intros E. symmetry in E. destruct (Hbad E). }
  destruct (sz <=? 2)%nat eqn:S2.
  { intros E. injection E as <- <-. cbn [firstn]. rewrite E0, Hlead, E1, S2.
    apply Nat.leb_le in S2.
    assert (sz = 2%nat) as -> by lia. reflexivity. }
  destruct t1 as [|c2 t2].
  { intros E. symmetry in E. destruct (Hbad E). }
  destruct (negb (contByte (byteval c2))) eqn:E2.
  { intros E. symmetry in E. destruct (Hbad E). }
  destruct (sz <=? 3)%nat eqn:S3.
  { intros E. injection E as <- <-. cbn [firstn]. rewrite E0, Hlead, E1, S2, E2, S3.
    apply Nat.leb_le in S3. apply Nat.leb_gt in S2.
    assert (sz = 3%nat) as -> by lia. reflexivity. }
  destruct t2 as [|c3 t3].
  { intros E. symmetry in E. destruct (Hbad E). }
  destruct (negb (contByte (byteval c3))) eqn:E3.
  { intros E. symmetry in E. destruct (Hbad E). }
  intros E. injection E as <- <-. cbn [firstn]. rewrite E0, Hlead, E1, S2, E2, S3, E3.
  apply Nat.leb_gt in S3.
  assert (sz = 4%nat) as -> by lia. reflexivity.
Qed.

Lemma runesAll_pending P tail pre :
  runesAll P (length pre) (pre ++ tail) = runesAll P 0 tail.
Proof.
  induction pre as [|c pre IH]; [reflexivity|]. simpl. exact IH.
Qed.

(** Well-encoded text is a sequence of runes. *)
Lemma runesAll_chunks P : forall fuel s,
  (length s <= fuel)%nat -> runesAll P 0 s = true ->
  exists rs, s = concat rs /\ Forall (runeChunk P) rs.
Proof.
  induction fuel as [|fuel IH]; intros s Hlen H.
  - destruct s; [|simpl in Hlen; lia]. exists []. split; [reflexivity|constructor].
  - destruct s as [|c s']; [exists []; split; [reflexivity|constructor]|].
    cbn [runesAll] in H.
    destruct (DecodeRuneInString (c :: s')) as [r w] eqn:Hd.
    apply andb_true_iff in H as [H Hrest]. apply andb_true_iff in H as [Hp He].
    apply bool_decide_eq_true in He.
    pose proof (decode_width (c :: s') ltac:(discriminate)) as Hw.
    rewrite Hd in Hw. cbn [snd] in Hw.
    pose proof (decode_width_le (c :: s')) as Hle. rewrite Hd in Hle. cbn [snd] in Hle.
    assert (Hsplit : c :: s' = firstn w (c :: s') ++ skipn w (c :: s'))
      by (symmetry; apply firstn_skipn).
    assert (Hrest' : runesAll P 0 (skipn w (c :: s')) = true).
    { rewrite <- Hrest. destruct w as [|w']; [lia|].
      cbn [skipn Nat.sub]. rewrite Nat.sub_0_r.
      rewrite <- (firstn_skipn w' s') at 2.
      rewrite <- (runesAll_pending P (skipn w' s') (firstn w' s')).
      rewrite length_firstn. f_equal. simpl in Hle. lia. }
    destruct (IH (skipn w (c :: s'))) as (rs & Hrs & Hall).
    { rewrite length_skipn. simpl in Hlen |- *. lia. }
    { exact Hrest'. }
    exists (firstn w (c :: s') :: rs). split.
    + cbn [concat]. rewrite <- Hrs. exact Hsplit.
    + constructor; [|exact Hall]. exists r. repeat split; try assumption.
      rewrite length_firstn.
      replace (Nat.min w (length (c :: s'))) with w by lia.
      apply decode_firstn; assumption.
Qed.

Lemma chunks_runesAll P rs :
  Forall (runeChunk P) rs -> runesAll P 0 (concat rs) = true.
Proof.
  induction rs as [|c rs IH]; intros H; [reflexivity|].
  inversion H as [|? ? Hc Hrs]; subst. specialize (IH Hrs).
  pose proof (chunk_nonempty P c Hc) as Hne.
  destruct Hc as (r & Hd & He & Hp).
  destruct c as [|c0 t]; [congruence|].
  cbn [concat app runesAll].
  change (c0 :: t ++ concat rs) with ((c0 :: t) ++ concat rs).
  rewrite (decode_app (c0 :: t) (concat rs) r (length (c0 :: t)) Hd)
    by (rewrite firstn_all; exact He).
  rewrite Hp. cbn [andb].
  rewrite firstn_app, firstn_all, Nat.sub_diag. cbn [firstn]. rewrite app_nil_r.
  rewrite bool_decide_eq_true_2 by exact He. cbn [andb length Nat.sub].
  rewrite Nat.sub_0_r. rewrite runesAll_pending. exact IH.
Qed.

Lemma trimLeftSpace_pending tail pre :
  trimLeftSpace (length pre) (pre ++ tail) = trimLeftSpace 0 tail.
Proof.
  induction pre as [|c pre IH]; [reflexivity|]. simpl. exact IH.
Qed.

Lemma chunk_decode_app P c tail :
  runeChunk P c ->
  exists r, DecodeRuneInString (c ++ tail) = (r, length c) /\
            EncodeRune r = c /\ P r = true.
Proof.
  intros (r & Hd & He & Hp). exists r. repeat split; try assumption.
  apply decode_app; [assumption|]. rewrite firstn_all. assumption.
Qed.

(** Trimming on the left drops whole runes. *)
Lemma trimLeftSpace_chunks P rs :
  Forall (runeChunk P) rs ->
  exists k, trimLeftSpace 0 (concat rs) = concat (skipn k rs).
Proof.
  induction rs as [|c rs IH]; intros H; [exists 0%nat; reflexivity|].
  inversion H as [|? ? Hc Hrs]; subst. destruct (IH Hrs) as [k Hk].
  pose proof (chunk_nonempty P c Hc) as Hne.
  destruct (chunk_decode_app P c (concat rs) Hc) as (r & Hd & He & Hp).
  destruct c as [|c0 t]; [congruence|].
  cbn [concat]. cbn [app trimLeftSpace].
  change (c0 :: t ++ concat rs) with ((c0 :: t) ++ concat rs).
  rewrite Hd. destruct (IsSpace r).
  - cbn [length Nat.sub]. rewrite Nat.sub_0_r, trimLeftSpace_pending.
    exists (S k). exact Hk.
  - exists 0%nat. reflexivity.
Qed.

Lemma ascii_after_cont t : forall x rest c y,
  Forall (fun b => contByte (byteval b) = true) t ->
  t ++ rest = x ++ c :: y -> byteval c < 0x80 ->
  exists x', rest = x' ++ c :: y.
Proof.
  induction t as [|b t IH]; intros x rest c y Hcont E Hc.
  - exists x. exact E.
  - inversion Hcont as [|? ? Hb Hcont']; subst.
    destruct x as [|x0 x].
    + cbn [app] in E. injection E as <- E. unfold contByte in Hb. lia.
    + cbn [app] in E. injection E as <- E. exact (IH x rest c y Hcont' E Hc).
Qed.

(** An ASCII byte of well-encoded text is a rune of its own: the text
    after it is a sequence of runes. *)
Lemma chunks_after_ascii P rs : forall x c y,
  Forall (runeChunk P) rs -> concat rs = x ++ c :: y -> byteval c < 0x80 ->
  exists k, y = concat (skipn k rs).
Proof.
  induction rs as [|ch rs IH]; intros x c y H E Hc.
  - destruct x; discriminate E.
  - inversion H as [|? ? Hch Hrs]; subst.
    destruct (chunk_shape P ch Hch) as (c0 & t & -> & Hshape).
    cbn [concat] in E.
    destruct x as [|x0 x'].
    + cbn [app] in E. injection E as <- E.
      destruct Hshape as [[_ ->]|(_ & Hge & _)]; [|lia].
      exists 1%nat. cbn [skipn]. symmetry. exact E.
    + cbn [app] in E. injection E as <- E.
      assert (Hcont : Forall (fun b => contByte (byteval b) = true) t).
      { destruct Hshape as [[_ ->]|(_ & _ & _ & Hcont)]; [constructor|exact Hcont]. }
      destruct (ascii_after_cont t x' (concat rs) c y Hcont E Hc) as [x'' E'].
      destruct (IH x'' c y Hrs E' Hc) as [k Hk].
      exists (S k). exact Hk.
Qed.

Lemma Forall_skipn {A} (P : A -> Prop) k l : Forall P l -> Forall P (skipn k l).
Proof.
  revert l. induction k as [|k IH]; intros l H; [exact H|].
  destruct l; [constructor|]. inversion H; subst. apply IH. assumption.
Qed.

Lemma Forall_firstn {A} (P : A -> Prop) k l : Forall P l -> Forall P (firstn k l).
Proof.
  revert l. induction k as [|k IH]; intros l H; [constructor|].
  destruct l; [constructor|]. inversion H; subst. constructor; [assumption|].
  apply IH. assumption.
Qed.

(** The last rune of a sequence of runes, decoded from the end. *)
Lemma decode_last_chunk P pre c :
  runeChunk P c ->
  exists r, DecodeLastRuneInString (pre ++ c) = (r, length c) /\
            EncodeRune r = c /\ P r = true /\
            DecodeRuneInString c = (r, length c).
Proof.
  intros Hc. destruct (chunk_shape P c Hc) as (c0 & t & -> & Hshape).
  destruct Hc as (r & Hd & He & Hp). exists r.
  split; [|repeat split; assumption].
  unfold DecodeLastRuneInString.
  rewrite length_app. cbn [length].
  destruct (Z.eqb_spec (Z.of_nat (length pre + S (length t))) 0) as [E|_]; [lia|].
  destruct Hshape as [[Hlt ->]|(Hlead & Hge & Hlen & Hcont)].
  - cbn [length].
    replace (Z.to_nat (Z.of_nat (length pre + 1) - 1)) with (length pre + 0)%nat by lia.
    rewrite app_nth2_plus. cbn [nth].
    unfold RuneSelf. destruct (Z.ltb_spec (byteval c0) 128); [|lia].
    unfold DecodeRuneInString in Hd. unfold RuneSelf in Hd.
    destruct (Z.ltb_spec (byteval c0) 128); [|lia].
    injection Hd as <-. reflexivity.
  - set (e := Z.of_nat (length pre + S (length t))).
    assert (Hskip : skipn (length pre) (pre ++ c0 :: t) = c0 :: t).
    { rewrite skipn_app, skipn_all, Nat.sub_diag. reflexivity. }
    assert (Hfin : forall start,
               start = Z.of_nat (length pre) ->
               (let '(r0, size) := DecodeRuneInString
                                     (skipn (Z.to_nat (Z.max 0 start)) (pre ++ c0 :: t)) in
                if Z.max 0 start + Z.of_nat size =? e then (r0, size)
                else (RuneError, 1%nat))
               = (r, length (c0 :: t))).
    { intros start ->. rewrite Z.max_r by lia. rewrite Nat2Z.id, Hskip, Hd.
      cbn [length]. unfold e.
      destruct (Z.eqb_spec (Z.of_nat (length pre) + Z.of_nat (S (length t)))
                           (Z.of_nat (length pre + S (length t)))); [reflexivity|lia]. }
    assert (Hnth : forall i d, nth (length pre + i) (pre ++ c0 :: t) d = nth i (c0 :: t) d)
      by (intros; apply app_nth2_plus).
    assert (Hstart0 : RuneStart (byteval c0) = true) by (apply lead_is_start; assumption).
    destruct t as [|c1 [|c2 [|c3 [|c4 t']]]]; cbn [length] in *; try lia.
    + (* two bytes *)
      inversion Hcont as [|? ? H1 _]; subst.
      replace (Z.to_nat (e - 1)) with (length pre + 1)%nat by (unfold e; lia).
      rewrite Hnth. cbn [nth].
      unfold contByte, RuneSelf in *.
      destruct (Z.ltb_spec (byteval c1) 128); [lia|].
      apply Hfin. cbn [scanRuneStart].
      destruct (Z.ltb_spec (e - 2) (Z.max 0 (e - 4))); [unfold e in *; lia|].
      replace (Z.to_nat (e - 2)) with (length pre + 0)%nat by (unfold e; lia).
      rewrite Hnth. cbn [nth]. rewrite Hstart0. unfold e. lia.
    + (* three bytes *)
      inversion Hcont as [|? ? H1 Hc']; subst. inversion Hc' as [|? ? H2 _]; subst.
      replace (Z.to_nat (e - 1)) with (length pre + 2)%nat by (unfold e; lia).
      rewrite Hnth. cbn [nth].
      pose proof (cont_not_start c1 H1) as Hs1.
      unfold contByte, RuneSelf in *.
      destruct (Z.ltb_spec (byteval c2) 128); [lia|].
      apply Hfin. cbn [scanRuneStart].
      destruct (Z.ltb_spec (e - 2) (Z.max 0 (e - 4))); [unfold e in *; lia|].
      replace (Z.to_nat (e - 2)) with (length pre + 1)%nat by (unfold e; lia).
      rewrite Hnth. cbn [nth]. rewrite Hs1.
      destruct (Z.ltb_spec (e - 2 - 1) (Z.max 0 (e - 4))); [unfold e in *; lia|].
      replace (Z.to_nat (e - 2 - 1)) with (length pre + 0)%nat by (unfold e; lia).
      rewrite Hnth. cbn [nth]. rewrite Hstart0. unfold e. lia.
    + (* four bytes *)
      inversion Hcont as [|? ? H1 Hc']; subst. inversion Hc' as [|? ? H2 Hc'']; subst.
      inversion Hc'' as [|? ? H3 _]; subst.
      replace (Z.to_nat (e - 1)) with (length pre + 3)%nat by (unfold e; lia).
      rewrite Hnth. cbn [nth].
      pose proof (cont_not_start c1 H1) as Hs1.
      pose proof (cont_not_start c2 H2) as Hs2.
      unfold contByte, RuneSelf in *.
      destruct (Z.ltb_spec (byteval c3) 128); [lia|].
      apply Hfin. cbn [scanRuneStart].
      destruct (Z.ltb_spec (e - 2) (Z.max 0 (e - 4))); [unfold e in *; lia|].
      replace (Z.to_nat (e - 2)) with (length pre + 2)%nat by (unfold e; lia).
      rewrite Hnth. cbn [nth]. rewrite Hs2.
      destruct (Z.ltb_spec (e - 2 - 1) (Z.max 0 (e - 4))); [unfold e in *; lia|].
      replace (Z.to_nat (e - 2 - 1)) with (length pre + 1)%nat by (unfold e; lia).
      rewrite Hnth. cbn [nth]. rewrite Hs1.
      destruct (Z.ltb_spec (e - 2 - 1 - 1) (Z.max 0 (e - 4))); [unfold e in *; lia|].
      replace (Z.to_nat (e - 2 - 1 - 1)) with (length pre + 0)%nat by (unfold e; lia).
      rewrite Hnth. cbn [nth]. rewrite Hstart0. unfold e. lia.
Qed.

Lemma concat_firstn_skipn k (rs : list gostring) :
  concat rs = concat (firstn k rs) ++ concat (skipn k rs).
Proof. rewrite <- concat_app, firstn_skipn. reflexivity. Qed.

Lemma firstn_concat k (rs : list gostring) :
  firstn (length (concat (firstn k rs))) (concat rs) = concat (firstn k rs).
Proof.
  rewrite (concat_firstn_skipn k rs) at 1.
  rewrite firstn_app, firstn_all, Nat.sub_diag. cbn [firstn]. apply app_nil_r.
Qed.

Lemma firstn_snoc {A} (rs : list A) : forall k,
  (k < length rs)%nat ->
  exists c, firstn (S k) rs = firstn k rs ++ [c] /\ skipn k rs = c :: skipn (S k) rs.
Proof.
  induction rs as [|a rs IH]; intros k Hk; [simpl in Hk; lia|].
  destruct k as [|k].
  - exists a. split; reflexivity.
  - destruct (IH k) as (c & H1 & H2); [simpl in Hk; lia|].
    exists c. split; [cbn [firstn app]; rewrite <- H1; reflexivity|exact H2].
Qed.

Lemma chunks_length P rs :
  Forall (runeChunk P) rs -> (length rs <= length (concat rs))%nat.
Proof.
  induction 1 as [|c rs Hc _ IH]; [simpl; lia|].
  apply chunk_nonempty in Hc. cbn [concat length]. rewrite length_app.
  destruct c; [congruence|]. simpl. lia.
Qed.

(** The backward search of [TrimRightFunc] stops at the start of a
    rune. *)
Lemma lastIndexNonSpace_chunks P rs :
  Forall (runeChunk P) rs ->
  forall k fuel, (k <= length rs)%nat -> (k <= fuel)%nat ->
  let i := lastIndexNonSpace fuel (concat rs)
                             (Z.of_nat (length (concat (firstn k rs)))) in
  i = -1 \/ exists j, (j < k)%nat /\ i = Z.of_nat (length (concat (firstn j rs))).
Proof.
  intros Hall. induction k as [|k IH]; intros fuel Hk Hf; cbn zeta.
  - left. destruct fuel; reflexivity.
  - destruct fuel as [|fuel]; [lia|].
    destruct (firstn_snoc rs k ltac:(lia)) as (c & Hsnoc & Hskip).
    assert (Hc : runeChunk P c).
    { rewrite List.Forall_forall in Hall. apply Hall.
      rewrite <- (firstn_skipn k rs), Hskip. apply in_or_app. right. left. reflexivity. }
    pose proof (chunk_nonempty P c Hc) as Hne.
    assert (Hcat : concat (firstn (S k) rs) = concat (firstn k rs) ++ c).
    { rewrite Hsnoc, concat_app. cbn [concat]. rewrite app_nil_r. reflexivity. }
    cbn [lastIndexNonSpace].
    destruct (Z.leb_spec (Z.of_nat (length (concat (firstn (S k) rs)))) 0) as [Hz|_].
    { rewrite Hcat, length_app in Hz. destruct c; [congruence|simpl in Hz; lia]. }
    rewrite Nat2Z.id, firstn_concat, Hcat.
    destruct (decode_last_chunk P (concat (firstn k rs)) c Hc) as (r & Hd & _).
    rewrite Hd.
    replace (Z.of_nat (length (concat (firstn k rs) ++ c)) - Z.of_nat (length c))
      with (Z.of_nat (length (concat (firstn k rs))))
      by (rewrite length_app; lia).
    destruct (negb (IsSpace r)).
    + right. exists k. split; [lia|reflexivity].
    + destruct (IH fuel ltac:(lia) ltac:(lia)) as [E|(j & Hj & E)].
      * left. exact E.
      * right. exists j. split; [lia|exact E].
Qed.

(** Trimming on the right keeps whole runes. *)
Lemma trimRightSpace_chunks P rs :
  Forall (runeChunk P) rs ->
  exists k, trimRightSpace (concat rs) = concat (firstn k rs).
Proof.
  intros Hall. unfold trimRightSpace.
  pose proof (lastIndexNonSpace_chunks P rs Hall (length rs) (length (concat rs))
                ltac:(lia) (chunks_length P rs Hall)) as Hi.
  cbn zeta in Hi. rewrite firstn_all in Hi.
  destruct Hi as [->|(j & Hj & ->)].
  - exists 0%nat. reflexivity.
  - destruct (firstn_snoc rs j Hj) as (c & Hsnoc & Hskip).
    assert (Hc : runeChunk P c).
    { rewrite List.Forall_forall in Hall. apply Hall.
      rewrite <- (firstn_skipn j rs), Hskip. apply in_or_app. right. left. reflexivity. }
    assert (Hs : concat rs = concat (firstn j rs) ++ c ++ concat (skipn (S j) rs)).
    { rewrite (concat_firstn_skipn j rs) at 1. rewrite Hskip. reflexivity. }
    assert (Hcat : concat (firstn (S j) rs) = concat (firstn j rs) ++ c).
    { rewrite Hsnoc, concat_app. cbn [concat]. rewrite app_nil_r. reflexivity. }
    exists (S j). set (pre := concat (firstn j rs)) in *.
    destruct (chunk_decode_app P c (concat (skipn (S j) rs)) Hc) as (r & Hd & _).
    destruct (chunk_shape P c Hc) as (c0 & t & -> & Hshape).
    destruct (Z.leb_spec 0 (Z.of_nat (length pre))) as [_|?]; [|lia].
    rewrite Nat2Z.id. remember (concat rs) as s eqn:Es. rewrite Hs in Es. subst s.
    replace (length pre) with (length pre + 0)%nat at 1 by lia.
    rewrite app_nth2_plus. cbn [app nth].
    assert (Hgoal : forall i',
               i' = Z.of_nat (length pre) + Z.of_nat (length (c0 :: t)) ->
               firstn (Z.to_nat i') (pre ++ (c0 :: t) ++ concat (skipn (S j) rs))
               = concat (firstn (S j) rs)).
    { intros i' ->. rewrite Hcat, app_assoc.
      replace (Z.to_nat (Z.of_nat (length pre) + Z.of_nat (length (c0 :: t))))
        with (length (pre ++ c0 :: t)) by (rewrite length_app; lia).
      rewrite firstn_app, firstn_all, Nat.sub_diag. cbn [firstn]. apply app_nil_r. }
    destruct (Z.leb_spec RuneSelf (byteval c0)) as [Hge|Hlt]; cbn [andb].
    + apply Hgoal. rewrite skipn_app, skipn_all, Nat.sub_diag. cbn [skipn app].
      change (c0 :: t ++ concat (skipn (S j) rs))
        with ((c0 :: t) ++ concat (skipn (S j) rs)).
      rewrite Hd. reflexivity.
    + apply Hgoal. unfold RuneSelf in Hlt.
      destruct Hshape as [[_ ->]|(_ & Hge & _)]; [reflexivity|lia].
Qed.

(** [TrimSpace] of well-encoded text is well encoded. *)
Lemma TrimSpace_chunks P rs :
  Forall (runeChunk P) rs ->
  exists rs', TrimSpace (concat rs) = concat rs' /\ Forall (runeChunk P) rs'.
Proof.
  intros Hall. unfold TrimSpace.
  destruct (trimLeftSpace_chunks P rs Hall) as [k ->].
  destruct (trimRightSpace_chunks P (skipn k rs) (Forall_skipn _ k rs Hall)) as [k' ->].
  eexists. split; [reflexivity|]. apply Forall_firstn, Forall_skipn, Hall.
Qed.

Lemma TrimSpace_encoded P s :
  runesAll P 0 s = true -> runesAll P 0 (TrimSpace s) = true.
Proof.
  intros H. destruct (runesAll_chunks P (length s) s (Nat.le_refl _) H) as (rs & -> & Hall).
  destruct (TrimSpace_chunks P rs Hall) as (rs' & -> & Hall').
  apply chunks_runesAll, Hall'.
Qed.

Lemma forallb_nth (p : ascii -> bool) (s : gostring) j c :
  forallb p s = true -> nth_error s j = Some c -> p c = true.
Proof.
  intros H Hn. rewrite forallb_forall in H. apply H.
  eapply nth_error_In. eassumption.
Qed.

Lemma endsAscii_Class p lo hi :
  (forall c, p c = true -> byteval c < 0x80) -> endsAscii (Class p (S lo) hi).
Proof.
  intros Hp R k pos s caps r H. cbn [matchAt] in H.
  apply repClass_sound in H as (j & Hlo & _ & Hj & Hall & Hk).
  destruct j as [|j]; [lia|].
  destruct (nth_error s j) as [c|] eqn:Hn.
  2: { apply nth_error_None in Hn. lia. }
  exists j, c. split; [exact Hn|]. split; [|exact Hk].
  apply Hp. apply (forallb_nth p (firstn (S j) s) j c Hall).
  rewrite nth_error_firstn. destruct (Nat.ltb_spec j (S j)); [exact Hn|lia].
Qed.

Lemma endsAscii_Cat r1 r2 :
  capFree r1 = true -> endsAscii r2 -> endsAscii (Cat r1 r2).
Proof.
  intros F1 H2 R k pos s caps r H. rewrite matchAt_Cat in H.
  apply matchAt_sound in H as (j1 & Hj1 & H); [|assumption].
  apply H2 in H as (j2 & c & Hn & Hc & H).
  exists (j1 + j2)%nat, c. split; [|split; [exact Hc|]].
  - rewrite nth_error_skipn in Hn. exact Hn.
  - rewrite skipn_skipn in H.
    replace (pos + S (j1 + j2))%nat with (pos + j1 + S j2)%nat by lia.
    replace (S (j1 + j2)) with (S j2 + j1)%nat by lia. exact H.
Qed.

Lemma endsAscii_Alt r1 r2 : endsAscii r1 -> endsAscii r2 -> endsAscii (Alt r1 r2).
Proof.
  intros H1 H2 R k pos s caps r H. rewrite matchAt_Alt in H.
  destruct (matchAt r1 pos s caps k) eqn:E.
  - injection H as <-. apply H1 in E. exact E.
  - apply H2 in H. exact H.
Qed.

Lemma endsAscii_Times re n :
  capFree re = true -> endsAscii re -> endsAscii (Times (S n) re).
Proof.
  intros F Hre. induction n as [|n IH]; intros R k pos s caps r H; rewrite Times_S in H.
  - apply Hre in H. exact H.
  - apply matchAt_sound in H as (j1 & Hj1 & H); [|assumption].
    apply IH in H as (j2 & c & Hn & Hc & H).
    exists (j1 + j2)%nat, c. split; [|split; [exact Hc|]].
    + rewrite nth_error_skipn in Hn. exact Hn.
    + rewrite skipn_skipn in H.
      replace (pos + S (j1 + j2))%nat with (pos + j1 + S j2)%nat by lia.
      replace (S (j1 + j2)) with (S j2 + j1)%nat by lia. exact H.
Qed.

Lemma isWord_ascii c : isWord c = true -> byteval c < 0x80.
Proof. unfold isWord, isDigit. lia. Qed.

Lemma isBlank_ascii c : isBlank c = true -> byteval c < 0x80.
Proof. unfold isBlank. lia. Qed.

Lemma schedule_endsAscii : endsAscii (Alt namedSchedule (Times 5 fieldThenBlank)).
Proof.
  apply endsAscii_Alt.
  - apply endsAscii_Cat; [reflexivity|]. apply endsAscii_Class, isWord_ascii.
  - apply endsAscii_Times; [reflexivity|].
    apply endsAscii_Cat; [reflexivity|]. apply endsAscii_Class, isBlank_ascii.
Qed.

Lemma nth_error_split_at (s : gostring) j c :
  nth_error s j = Some c -> s = firstn j s ++ c :: skipn (S j) s.
Proof.
  revert j. induction s as [|a s IH]; intros j H; [destruct j; discriminate|].
  destruct j as [|j]; simpl in H.
  - injection H as ->. reflexivity.
  - cbn [firstn skipn app]. f_equal. apply IH. exact H.
Qed.

(** Group 2 of [scheduleReg] starts after an ASCII byte. *)
Lemma scheduleReg_rest_after_ascii s m0 m1 m2 :
  FindStringSubmatch scheduleReg 2 s = Some [m0; m1; m2] ->
  exists x c, s = x ++ c :: m2 /\ byteval c < 0x80.
Proof.
  rewrite scheduleReg_eq, find_anchored.
  rewrite matchAt_Cat, matchAt_Cap.
  destruct (matchAt _ 0%nat s ∅ _) as [[e caps]|] eqn:H; [|discriminate].
  apply schedule_endsAscii in H as (j & c & Hn & Hc & H).
  rewrite matchAt_Cat, matchAt_Cap in H. cbn [matchAt] in H.
  apply repClass_sound in H as (j2 & _ & _ & Hj2 & Hall & H).
  destruct (skipn j2 (skipn (S j) s)) as [|c' t] eqn:Hend; [|discriminate].
  injection H as <- <-.
  cbn [map seq]. unfold group.
  rewrite lookup_insert_ne by lia. rewrite !lookup_insert_eq. cbn [default].
  intros E. injection E as _ _ <-.
  exists (firstn j s), c. split; [|exact Hc].
  replace (j + j2 - j)%nat with j2 by lia.
  assert (firstn j2 (skipn (S j) s) = skipn (S j) s) as ->.
  { apply firstn_all2. apply (f_equal (@length _)) in Hend.
    rewrite length_skipn in Hend. simpl in Hend. lia. }
  apply nth_error_split_at. exact Hn.
Qed.

(** On a well-encoded line the text [fieldsN] is given is well encoded. *)
Lemma scheduleReg_rest_encoded raw m0 m1 m2 :
  runesAll anyRune 0 raw = true ->
  FindStringSubmatch scheduleReg 2 (TrimSpace raw) = Some [m0; m1; m2] ->
  runesAll anyRune 0 (TrimSpace m2) = true.
Proof.
  intros Hraw Hm. apply TrimSpace_encoded in Hraw.
  destruct (runesAll_chunks anyRune _ _ (Nat.le_refl _) Hraw) as (rs & Hrs & Hall).
  apply scheduleReg_rest_after_ascii in Hm as (x & c & Hs & Hc).
  rewrite Hrs in Hs.
  destruct (chunks_after_ascii anyRune rs x c m2 Hall Hs Hc) as [k Hk].
  destruct (TrimSpace_chunks anyRune (skipn k rs) (Forall_skipn _ k rs Hall))
    as (rs' & E & Hall').
  rewrite Hk. unfold gostring in *. rewrite E. apply chunks_runesAll, Hall'.
Qed.

Lemma Forall_removelast {A} (P : A -> Prop) l : Forall P l -> Forall P (removelast l).
Proof.
  induction 1 as [|a l Ha Hl IH]; [constructor|].
  destruct l; [constructor|]. cbn [removelast] in *. constructor; assumption.
Qed.

(** Every field the loop of [fieldsN] cuts is not empty; only the rest
    of the text, when it is taken as the last field, can be. *)
Lemma fieldsLoop_nonempty whole s : forall pending st st',
  2 <= n st \/ buf st = [] ->
  Forall (fun f => f <> []) (flds st) ->
  fieldsLoop whole pending s st = Returns st' ->
  Forall (fun f => f <> []) (removelast (fieldsOf st')).
Proof.
  induction s as [|c s IH]; intros pending st st' Hn Hf H.
  - cbn [fieldsLoop] in H. injection H as <-. unfold fieldsOf.
    destruct (buf st) as [|b0 b]; cbn [length Nat.ltb Nat.leb].
    + apply Forall_removelast, Hf.
    + rewrite removelast_last. exact Hf.
  - destruct pending as [|p]; cbn [fieldsLoop] in H.
    + destruct (DecodeRuneInString (c :: s)) as [r w].
      destruct (Z.ltb_spec (n st) 2) as [Hlt|Hge].
      * destruct Hn as [Hn|Hb]; [lia|].
        destruct (sliceFrom whole (offset st)) as [tail|msg]; [|discriminate].
        cbn [obind] in H. injection H as <-. unfold fieldsOf. cbn [buf flds].
        rewrite Hb. cbn [length Nat.ltb Nat.leb]. rewrite removelast_last. exact Hf.
      * destruct (IsSpace r).
        -- destruct (buf st) as [|b0 b] eqn:Hb; cbn [length Nat.ltb Nat.leb] in H.
           ++ eapply IH; [| |exact H]; cbn [n buf flds]; [left; lia|exact Hf].
           ++ eapply IH; [| |exact H]; cbn [n buf flds]; [right; reflexivity|].
              apply Forall_app. split; [exact Hf|]. repeat constructor. discriminate.
        -- eapply IH; [| |exact H]; cbn [n buf flds]; [left; lia|exact Hf].
    + eapply IH; [exact Hn|exact Hf|exact H].
Qed.

Lemma fieldsN_nonempty s n flds :
  fieldsN s n = Returns flds -> Forall (fun f => f <> []) (removelast flds).
Proof.
  unfold fieldsN. intros H.
  destruct (fieldsLoop (TrimSpace s) 0 (TrimSpace s) (mkSplitter n 0 [] []))
    as [st'|msg] eqn:Hl; [|discriminate].
  cbn [obind] in H. injection H as <-. fold (fieldsOf st').
  eapply fieldsLoop_nonempty; [| |exact Hl]; cbn [Checron.n buf flds];
    [right; reflexivity|constructor].
Qed.

Lemma spaceRune_chunk sp : spaceRune sp -> runeChunk IsSpace sp.
Proof.
  intros [_ (r & Hd & Hs & He)]. exists r. repeat split; assumption.
Qed.

(** A byte from 0x80 on that a rune follows is no rune: it is decoded
    as [RuneError], one byte wide. *)
Lemma decode_stray P b c tail :
  0x80 <= byteval b -> runeChunk P c ->
  DecodeRuneInString (b :: c ++ tail) = (RuneError, 1%nat).
Proof.
  intros Hb Hc. destruct (chunk_shape P c Hc) as (c0 & t & -> & Hshape).
  assert (Hc0 : byteval c0 < 0x80 \/ 0xBF < byteval c0).
  { destruct Hshape as [[Hlt _]|(Hlead & Hge & _)]; [left; exact Hlt|right].
    unfold leadInfo in Hlead.
    destruct (Z.ltb_spec (byteval c0) 194); [congruence|lia]. }
  unfold DecodeRuneInString. unfold RuneSelf.
  destruct (Z.ltb_spec (byteval b) 128); [lia|].
  destruct (leadInfo (byteval b)) as [[[sz lo] hi]|] eqn:Hlead; [|reflexivity].
  pose proof (leadInfo_bounds _ _ _ _ Hlead) as [_ Hlo].
  pose proof (leadInfo_hi _ _ _ _ Hlead) as Hhi.
  destruct (_ <? sz)%nat; [reflexivity|].
  cbn [app].
  destruct ((byteval c0 <? lo) || (hi <? byteval c0)) eqn:E; [reflexivity|lia].
Qed.

(** [fieldsN] on a stray byte, a space and more text: the offset is one
    byte for the space and three for the stray byte, which is one byte of
    the text. *)
Lemma fieldsN_stray s b sp rest :
  TrimSpace s = b :: sp ++ rest ->
  0x80 <= byteval b -> spaceRune sp -> rest <> [] ->
  fieldsN s 2 =
  if (length rest <? 2)%nat then Panics (str "slice bounds out of range")
  else Returns [EncodeRune RuneError; TrimSpace (skipn 2 rest)].
Proof.
  intros Hs Hb Hsp Hrest.
  pose proof (decode_stray IsSpace b sp rest Hb (spaceRune_chunk sp Hsp)) as Hd0.
  destruct Hsp as [Hne (r & Hd & Hspace & He)].
  remember (length rest <? 2)%nat as short eqn:Hshort. symmetry in Hshort.
  unfold fieldsN. rewrite Hs. set (whole := b :: sp ++ rest).
  unfold whole at 2. cbn [fieldsLoop]. rewrite Hd0.
  cbn [Checron.n offset buf flds]. change (2 <? 2) with false. cbv iota.
  change (IsSpace RuneError) with false. cbv iota.
  cbn [Nat.sub app].
  destruct sp as [|c sp']; [congruence|].
  cbn [app fieldsLoop].
  change (c :: sp' ++ rest) with ((c :: sp') ++ rest).
  rewrite (decode_app _ rest _ _ Hd) by (rewrite firstn_all; assumption).
  cbn [Checron.n offset buf flds]. change (2 <? 2) with false. cbv iota.
  rewrite Hspace. rewrite RuneError_bytes. cbn [Nat.ltb Nat.leb].
  replace (length (c :: sp') - 1)%nat with (length sp') by (simpl; lia).
  rewrite fieldsLoop_pending.
  destruct rest as [|c' rest']; [congruence|].
  cbn [fieldsLoop]. destruct (DecodeRuneInString (c' :: rest')) as [r' w'].
  cbn [Checron.n offset buf flds]. change (2 - 1 <? 2) with true. cbv iota.
  unfold sliceFrom. rewrite He.
  assert (Hlen : length whole = (1 + length (c :: sp') + length (c' :: rest'))%nat).
  { unfold whole. cbn [length]. rewrite length_app. cbn [length]. lia. }
  destruct (Z.ltb_spec (0 + Z.of_nat 3 + Z.of_nat (length (c :: sp'))) 0); [lia|].
  cbn [orb].
  destruct short; [apply Nat.ltb_lt in Hshort|apply Nat.ltb_ge in Hshort].
  - destruct (Z.ltb_spec (Z.of_nat (length whole))
                         (0 + Z.of_nat 3 + Z.of_nat (length (c :: sp')))); [reflexivity|lia].
  - destruct (Z.ltb_spec (Z.of_nat (length whole))
                         (0 + Z.of_nat 3 + Z.of_nat (length (c :: sp')))); [lia|].
    cbn [obind app]. do 3 f_equal.
    replace (Z.to_nat (0 + Z.of_nat 3 + Z.of_nat (length (c :: sp'))))
      with (length (b :: c :: sp') + 2)%nat by (cbn [length]; lia).
    unfold whole.
    change (b :: (c :: sp') ++ c' :: rest') with ((b :: c :: sp') ++ c' :: rest').
    rewrite skipn_app. rewrite skipn_all2 by lia.
    replace (length (b :: c :: sp') + 2 - length (b :: c :: sp'))%nat with 2%nat by lia.
    reflexivity.
Qed.

End EncodingFacts.

(** ** Fields, item by item *)

Module FieldItems.
Import Go Spec RegexpFacts Crontabparser RangeFacts SortFacts ExpandFacts
       FieldsFacts ItemFacts.

(** X1.  [newScheduleEntity] on a kind that is none of the five, below
    [scheduleMinute] or above [scheduleDayOfWeek], returns no entity and
    the error that names the kind, whatever the text. *)
Theorem unknown_kind_rejected (caseTable : Z -> Z) raw st :
  st < scheduleMinute \/ scheduleDayOfWeek < st ->
  newScheduleEntity caseTable raw st
  = (None, Some (Errorf (str "no entity param setting for %s") [ArgInt st])).
Proof.
  intros H. apply entityParams_None in H.
  assert (E : entityParams !! typ (mkEntity raw st []) = None) by exact H.
  unfold newScheduleEntity, init. rewrite E. reflexivity.
Qed.

Lemma unknown_kind_rejected_witness :
  (5 < scheduleMinute \/ scheduleDayOfWeek < 5) /\
  newScheduleEntity (fun r => r) (str "*") 5
  = (None, Some (Errorf (str "no entity param setting for %s") [ArgInt 5])).
Proof.
  assert (H : 5 < scheduleMinute \/ scheduleDayOfWeek < 5)
    by (right; reflexivity).
  split; [exact H|]. exact (unknown_kind_rejected (fun r => r) (str "*") 5 H).
Defined.

(** X2.  The entity [newScheduleEntity] returns keeps the text and the
    kind it was given; [Match] on it holds exactly for the numbers of its
    expanded list, all of which lie in the domain of the kind; [Match] on
    a nil entity holds for no number. *)
Theorem Match_is_membership (caseTable : Z -> Z) raw st ep se :
  entityParams !! st = Some ep ->
  newScheduleEntity caseTable raw st = (Some se, None) ->
  Crontabparser.raw se = raw /\ typ se = st /\
  (forall num, Match (Some se) num = true <-> In num (expanded se)) /\
  (forall num, Match (Some se) num = true -> inDomain (Range ep) num) /\
  (forall num, Match None num = false).
Proof.
  intros Hep H. apply newScheduleEntity_Some in H as (Hraw & Htyp & Hexp).
  assert (Hin : forall num, Match (Some se) num = true <-> In num (expanded se)).
  { intros num. rewrite Match_In. split.
    - intros (e & E & Hn). injection E as <-. exact Hn.
    - intros Hn. exists se. split; [reflexivity|exact Hn]. }
  split; [exact Hraw|]. split; [exact Htyp|]. split; [exact Hin|].
  split; [|reflexivity].
  intros num Hm. apply Hin in Hm.
  exact (expand_domain caseTable raw st ep _ num Hep Hexp Hm).
Qed.

Lemma Match_is_membership_witness :
  let se := mkEntity (str "1-3") scheduleMinute [1; 2; 3] in
  entityParams !! scheduleMinute = Some (mkParam (0, 59) []) /\
  newScheduleEntity (fun r => r) (str "1-3") scheduleMinute = (Some se, None) /\
  (Match (Some se) 2 = true <-> In 2 [1; 2; 3]) /\
  (Match (Some se) 2 = true -> inDomain (0, 59) 2).
Proof.
  intros se.
  assert (Hep : entityParams !! scheduleMinute = Some (mkParam (0, 59) []))
    by reflexivity.
  assert (Hnew : newScheduleEntity (fun r => r) (str "1-3") scheduleMinute
                 = (Some se, None)) by (vm_compute; reflexivity).
  destruct (Match_is_membership (fun r => r) _ _ _ _ Hep Hnew)
    as (_ & _ & Hin & Hdom & _).
  split; [exact Hep|]. split; [exact Hnew|]. split; [exact (Hin 2)|exact (Hdom 2)].
Defined.

(** X3.  A field that is a decimal number, with any number of leading
    zeros, expands to that number when it lies in the domain of the kind,
    with the 0 besides for a 7 as day of the week, and is rejected when it
    does not. *)
Theorem number_field (caseTable : Z -> Z) st ep d :
  entityParams !! st = Some ep -> d <> [] -> forallb isDigit d = true ->
  expand caseTable d st =
  if (fst (Range ep) <=? decimal d) && (decimal d <=? snd (Range ep))
  then Some (withSunday st [decimal d])
  else None.
Proof.
  intros Hep Hne Hd.
  destruct (kinds_range st ep Hep) as [Hlo Hhi].
  rewrite (expand_item caseTable st ep d Hep (digits_plain d Hd)
                       (digits_no_byte d ","%char Hd eq_refl)).
  rewrite number_item by (assumption || lia).
  destruct (_ && _) eqn:E.
  - cbn [app values option_map]. rewrite stored_withSunday; [reflexivity|repeat constructor|].
    repeat constructor. apply decimal_nonneg, Hd.
  - destruct (decimal d <=? maxUint64); reflexivity.
Qed.

Lemma number_field_witness :
  entityParams !! scheduleDayOfWeek
  = Some (mkParam (0, 7) (map str ["sun"; "mon"; "tue"; "wed"; "thu"; "fri"; "sat"]%string)) /\
  str "007" <> [] /\ forallb isDigit (str "007") = true /\
  expand (fun r => r) (str "007") scheduleDayOfWeek = Some [0; 7] /\
  expand (fun r => r) (str "8") scheduleDayOfWeek = None.
Proof.
  assert (Hep : entityParams !! scheduleDayOfWeek
                = Some (mkParam (0, 7) (map str ["sun"; "mon"; "tue"; "wed"; "thu"; "fri"; "sat"]%string)))
    by reflexivity.
  assert (Hne : str "007" <> []) by discriminate.
  assert (Hd : forallb isDigit (str "007") = true) by reflexivity.
  split; [exact Hep|]. split; [exact Hne|]. split; [exact Hd|].
  split; [|reflexivity].
  exact (number_field (fun r => r) _ _ (str "007") Hep Hne Hd).
Defined.

(** X4.  A field that is two numbers of one or two digits with a hyphen
    between them expands to every integer from the first to the second
    when the first is below the second and both lie in the domain, with
    the 0 besides when the range ends at 7 as day of the week, and is
    rejected otherwise. *)
Theorem range_field (caseTable : Z -> Z) st ep da db :
  entityParams !! st = Some ep -> digits12 da -> digits12 db ->
  expand caseTable (da ++ "-"%char :: db) st =
  if (decimal da <? decimal db) && (fst (Range ep) <=? decimal da)
     && (decimal db <=? snd (Range ep))
  then Some (withSunday st (fromTo (decimal da) (decimal db)))
  else None.
Proof.
  intros Hep Ha Hb.
  destruct (kinds_range st ep Hep) as [Hlo Hhi].
  assert (Hplain : forallb plainByte (da ++ "-"%char :: db) = true).
  { rewrite forallb_app. cbn [forallb].
    rewrite (digits_plain _ (proj2 Ha)), (digits_plain _ (proj2 Hb)). reflexivity. }
  assert (Hcomma : ~ In ","%char (da ++ "-"%char :: db)).
  { intros Hin. apply in_app_iff in Hin as [Hin|[Hin|Hin]]; [|discriminate|].
    - exact (digits_no_byte da ","%char (proj2 Ha) eq_refl Hin).
    - exact (digits_no_byte db ","%char (proj2 Hb) eq_refl Hin). }
  rewrite (expand_item caseTable st ep _ Hep Hplain Hcomma).
  destruct (_ && _) eqn:E.
  - rewrite range_item by (assumption || lia).
    cbn [app values option_map]. rewrite stored_withSunday; [reflexivity|apply fromTo_strict|].
    apply fromTo_nonneg. lia.
  - unfold expandItem.
    rewrite SplitN_no_sep by (apply range_text_no_slash; assumption).
    cbn [length Nat.eqb].
    pose proof (range_text_not_number da db Ha) as Hn.
    destruct (ParseUint (da ++ "-"%char :: db)) as [n [e|]]; [|simpl in Hn; congruence].
    rewrite parseRange_numbers by assumption.
    destruct (_ || _) eqn:E'; [reflexivity|]. exfalso. lia.
Qed.

Lemma range_field_witness :
  entityParams !! scheduleDayOfWeek
  = Some (mkParam (0, 7) (map str ["sun"; "mon"; "tue"; "wed"; "thu"; "fri"; "sat"]%string)) /\
  digits12 (str "5") /\ digits12 (str "07") /\
  expand (fun r => r) (str "5-07") scheduleDayOfWeek = Some [0; 5; 6; 7].
Proof.
  assert (Hep : entityParams !! scheduleDayOfWeek
                = Some (mkParam (0, 7) (map str ["sun"; "mon"; "tue"; "wed"; "thu"; "fri"; "sat"]%string)))
    by reflexivity.
  assert (Ha : digits12 (str "5")) by (split; [simpl; lia|reflexivity]).
  assert (Hb : digits12 (str "07")) by (split; [simpl; lia|reflexivity]).
  split; [exact Hep|]. split; [exact Ha|]. split; [exact Hb|].
  exact (range_field (fun r => r) _ _ (str "5") (str "07") Hep Ha Hb).
Defined.

(** X5.  A field that is a range, a slash and a step written in digits,
    the step between 1 and 2^64 - 1, expands to the start of the range
    and every step-th integer after it up to its end, with the 0 besides
    when a 7 is among them as day of the week; the step counts as itself
    below 2^63 and as 2^64 minus itself from there on. *)
Theorem stepped_field (caseTable : Z -> Z) st ep R ds a b :
  entityParams !! st = Some ep ->
  parseRange R (Range ep) = ((a, b), None) ->
  forallb isDigit ds = true -> 0 < decimal ds <= maxUint64 ->
  expand caseTable (R ++ "/"%char :: ds) st
  = Some (withSunday st (everyStep a b (effectiveStep (decimal ds)))).
Proof.
  intros Hep HR Hd Hn.
  destruct (kinds_range st ep Hep) as [Hlo Hhi].
  destruct (parseRange_plain R _ _ HR) as [HRp HRc].
  assert (Hne : ds <> []) by (intros ->; change (decimal []) with 0 in Hn; lia).
  assert (Hplain : forallb plainByte (R ++ "/"%char :: ds) = true).
  { rewrite forallb_app. cbn [forallb]. rewrite HRp, (digits_plain _ Hd). reflexivity. }
  assert (Hcomma : ~ In ","%char (R ++ "/"%char :: ds)).
  { intros Hin. apply in_app_iff in Hin as [Hin|[Hin|Hin]]; [tauto|discriminate|].
    exact (digits_no_byte ds ","%char Hd eq_refl Hin). }
  rewrite (expand_item caseTable st ep _ Hep Hplain Hcomma).
  assert (Hs : ParseUint ds = (decimal ds, None)).
  { rewrite ParseUint_digits by assumption.
    destruct (Z.leb_spec (decimal ds) maxUint64); [reflexivity|lia]. }
  rewrite (stepped_item_any _ _ R ds a b (decimal ds) [] HR Hs Hn).
  cbn [app values option_map].
  assert (0 < effectiveStep (decimal ds)).
  { unfold effectiveStep. rewrite maxUint64_eq in Hn. destruct (_ <? _); lia. }
  rewrite stored_withSunday; [reflexivity|apply everyStep_strict; assumption|].
  apply everyStep_nonneg; [assumption|]. eapply parseRange_nonneg; eauto.
Qed.

Lemma stepped_field_witness :
  entityParams !! scheduleMinute = Some (mkParam (0, 59) []) /\
  parseRange (str "10-20") (0, 59) = ((10, 20), None) /\
  forallb isDigit (str "18446744073709551611") = true /\
  0 < decimal (str "18446744073709551611") <= maxUint64 /\
  expand (fun r => r) (str "10-20/18446744073709551611") scheduleMinute
  = Some [10; 15; 20].
Proof.
  assert (Hep : entityParams !! scheduleMinute = Some (mkParam (0, 59) []))
    by reflexivity.
  assert (HR : parseRange (str "10-20") (0, 59) = ((10, 20), None))
    by (vm_compute; reflexivity).
  assert (Hd : forallb isDigit (str "18446744073709551611") = true) by reflexivity.
  assert (Hn : 0 < decimal (str "18446744073709551611") <= maxUint64)
    by (vm_compute; split; [reflexivity|discriminate]).
  split; [exact Hep|]. split; [exact HR|]. split; [exact Hd|]. split; [exact Hn|].
  exact (stepped_field (fun r => r) _ _ (str "10-20") _ 10 20 Hep HR Hd Hn).
Defined.

(** X6.  After a range and a slash, a step that is not digits only, or
    is empty, or writes zero or a number above 2^64 - 1, makes
    [newScheduleEntity] return the error for invalid increments, which
    quotes the step and the field. *)
Theorem invalid_increments (caseTable : Z -> Z) st ep R s r :
  entityParams !! st = Some ep ->
  parseRange R (Range ep) = (r, None) ->
  forallb plainByte s = true -> ~ In ","%char s ->
  ~ (forallb isDigit s = true /\ 0 < decimal s <= maxUint64) ->
  newScheduleEntity caseTable (R ++ "/"%char :: s) st
  = (None, Some (Errorf (str "invalid increments: %q in %q")
                        [ArgString s; ArgString (R ++ "/"%char :: s)])).
Proof.
  intros Hep HR Hs Hc Hbad.
  destruct (parseRange_plain R _ _ HR) as [HRp HRc].
  apply (newScheduleEntity_error caseTable _ st ep _ Hep).
  rewrite (collect_item caseTable st ep); [| assumption | |].
  - apply (bad_step_item _ _ R s r [] HR). apply ParseUint_rejects, Hbad.
  - rewrite forallb_app. cbn [forallb]. rewrite HRp, Hs. reflexivity.
  - intros Hin. apply in_app_iff in Hin as [Hin|[Hin|Hin]]; [tauto|discriminate|tauto].
Qed.

Lemma invalid_increments_witness :
  entityParams !! scheduleHour = Some (mkParam (0, 23) []) /\
  parseRange (str "*") (0, 23) = ((0, 23), None) /\
  forallb plainByte (str "00") = true /\ ~ In ","%char (str "00") /\
  ~ (forallb isDigit (str "00") = true /\ 0 < decimal (str "00") <= maxUint64) /\
  newScheduleEntity (fun r => r) (str "*/00") scheduleHour
  = (None, Some (Errorf (str "invalid increments: %q in %q")
                        [ArgString (str "00"); ArgString (str "*/00")])).
Proof.
  assert (Hep : entityParams !! scheduleHour = Some (mkParam (0, 23) []))
    by reflexivity.
  assert (HR : parseRange (str "*") (0, 23) = ((0, 23), None)) by reflexivity.
  assert (Hs : forallb plainByte (str "00") = true) by reflexivity.
  assert (Hc : ~ In ","%char (str "00"))
    by (intros [E|[E|[]]]; discriminate E).
  assert (Hbad : ~ (forallb isDigit (str "00") = true
                    /\ 0 < decimal (str "00") <= maxUint64))
    by (intros [_ [H _]]; vm_compute in H; discriminate H).
  split; [exact Hep|]. split; [exact HR|]. split; [exact Hs|]. split; [exact Hc|].
  split; [exact Hbad|].
  exact (invalid_increments (fun r => r) _ _ (str "*") (str "00") _ Hep HR Hs Hc Hbad).
Defined.

(** X7.  A comma joins two fields: the text [a,b] is accepted exactly
    when [a] and [b] are, whatever bytes they hold, and then expands to
    the two expansions put together, which is their union in increasing
    order. *)
Theorem comma_joins_fields (caseTable : Z -> Z) a b st :
  expand caseTable (a ++ ","%char :: b) st
  = match expand caseTable a st, expand caseTable b st with
    | Some la, Some lb => Some (merged la lb)
    | _, _ => None
    end /\
  (forall la lb,
      StronglySorted Z.lt (merged la lb) /\
      forall v, In v (merged la lb) <-> In v la \/ In v lb).
Proof.
  split; [apply expand_comma|]. intros la lb. apply merged_spec.
Qed.

(** X8.  Neither the order of two comma-separated parts of a field nor
    writing a part twice changes what the field expands to, or whether it
    is accepted. *)
Theorem item_order_and_repetition (caseTable : Z -> Z) a b st :
  expand caseTable (a ++ ","%char :: b) st = expand caseTable (b ++ ","%char :: a) st /\
  expand caseTable (a ++ ","%char :: a) st = expand caseTable a st.
Proof.
  rewrite !expand_comma. split.
  - destruct (expand caseTable a st) as [la|], (expand caseTable b st) as [lb|];
      try reflexivity.
    rewrite merged_comm. reflexivity.
  - destruct (expand caseTable a st) as [la|] eqn:E; [|reflexivity].
    rewrite merged_idem by (eapply expand_strict; eassumption). reflexivity.
Qed.

(** X9.  An empty item is rejected: the empty text, a text that ends or
    starts with a comma, and a text with two commas in a row expand to
    nothing, for every kind. *)
Theorem empty_item_rejected (caseTable : Z -> Z) a b st :
  expand caseTable [] st = None /\
  expand caseTable (a ++ [","%char]) st = None /\
  expand caseTable (","%char :: b) st = None /\
  expand caseTable (a ++ ","%char :: ","%char :: b) st = None.
Proof.
  assert (Hlead : forall t, expand caseTable (","%char :: t) st = None).
  { intros t. change (","%char :: t) with ([] ++ ","%char :: t).
    rewrite expand_comma, expand_empty. reflexivity. }
  repeat split.
  - apply expand_empty.
  - rewrite expand_comma, expand_empty. destruct (expand caseTable a st); reflexivity.
  - apply Hlead.
  - rewrite expand_comma, Hlead. destruct (expand caseTable a st); reflexivity.
Qed.

(** X10.  The case of ASCII letters does not matter: a field of ASCII
    bytes expands as the same field in lower case does. *)
Theorem ascii_case_irrelevant (caseTable : Z -> Z) raw st :
  (forall c, In c raw -> byteval c < 0x80) ->
  expand caseTable raw st = expand caseTable (map lowerByte raw) st.
Proof.
  intros H. symmetry.
  destruct (entityParams !! st) as [ep|] eqn:Hep.
  - rewrite !(expand_stored caseTable _ st ep Hep). unfold collect.
    rewrite normalize_lower by assumption.
    rewrite (expandItems_raw (map lowerByte raw) raw). reflexivity.
  - rewrite !expand_unknown by assumption. reflexivity.
Qed.

Lemma ascii_case_irrelevant_witness :
  (forall c, In c (str "Tue-FRI") -> byteval c < 0x80) /\
  map lowerByte (str "Tue-FRI") = str "tue-fri" /\
  expand (fun r => r) (str "Tue-FRI") scheduleDayOfWeek
  = expand (fun r => r) (str "tue-fri") scheduleDayOfWeek.
Proof.
  assert (H : forall c, In c (str "Tue-FRI") -> byteval c < 0x80).
  { intros c Hc. simpl in Hc.
    repeat (destruct Hc as [<-|Hc]; [reflexivity|]). destruct Hc. }
  split; [exact H|]. split; [reflexivity|].
  exact (ascii_case_irrelevant (fun r => r) (str "Tue-FRI") scheduleDayOfWeek H).
Defined.

(** X11.  For one of the five kinds, an error of [newScheduleEntity]
    comes with no entity and is one of the three errors of the loop over
    the items, each of which quotes the field as it was given. *)
Theorem error_names_field (caseTable : Z -> Z) raw st ep e :
  entityParams !! st = Some ep ->
  snd (newScheduleEntity caseTable raw st) = Some e ->
  newScheduleEntity caseTable raw st = (None, Some e) /\ itemError raw e.
Proof.
  intros Hep. unfold newScheduleEntity, init. cbn [typ Crontabparser.raw].
  rewrite Hep. destruct (collect caseTable ep raw) as [acc|e'] eqn:Hc; [discriminate|].
  cbn [snd]. intros H. injection H as <-. split; [reflexivity|].
  unfold collect in Hc. eapply expandItems_error; eassumption.
Qed.

Lemma error_names_field_witness :
  entityParams !! scheduleMinute = Some (mkParam (0, 59) []) /\
  snd (newScheduleEntity (fun r => r) (str "MON") scheduleMinute)
  = Some (Errorf (str "invalid entity: %s, %s")
                 [ArgString (str "MON"); ArgError (invalidRange (str "mon"))]) /\
  itemError (str "MON")
            (Errorf (str "invalid entity: %s, %s")
                    [ArgString (str "MON"); ArgError (invalidRange (str "mon"))]).
Proof.
  assert (Hep : entityParams !! scheduleMinute = Some (mkParam (0, 59) []))
    by reflexivity.
  assert (He : snd (newScheduleEntity (fun r => r) (str "MON") scheduleMinute)
               = Some (Errorf (str "invalid entity: %s, %s")
                              [ArgString (str "MON");
                               ArgError (invalidRange (str "mon"))]))
    by (vm_compute; reflexivity).
  split; [exact Hep|]. split; [exact He|].
  exact (proj2 (error_names_field (fun r => r) _ _ _ _ Hep He)).
Defined.

(** X12.  An entity that [newScheduleEntity] returns matches at least
    one number: no accepted field expands to the empty list. *)
Theorem expanded_never_empty (caseTable : Z -> Z) raw st se :
  newScheduleEntity caseTable raw st = (Some se, None) ->
  exists num, Match (Some se) num = true.
Proof.
  intros H. apply newScheduleEntity_Some in H as (_ & _ & Hexp).
  apply expand_nonempty in Hexp.
  destruct (expanded se) as [|v l] eqn:E; [congruence|].
  exists v. apply Match_In. exists se. split; [reflexivity|].
  rewrite E. left. reflexivity.
Qed.

Lemma expanded_never_empty_witness :
  newScheduleEntity (fun r => r) (str "*/61") scheduleMinute
  = (Some (mkEntity (str "*/61") scheduleMinute [0]), None) /\
  exists num, Match (Some (mkEntity (str "*/61") scheduleMinute [0])) num = true.
Proof.
  assert (H : newScheduleEntity (fun r => r) (str "*/61") scheduleMinute
              = (Some (mkEntity (str "*/61") scheduleMinute [0]), None))
    by (vm_compute; reflexivity).
  split; [exact H|]. exact (expanded_never_empty (fun r => r) _ _ _ H).
Defined.

(** X13.  An accepted field is written, once it is in lower case and
    its aliases are replaced, with digits, hyphens, stars, slashes and
    commas only; so a field without letters that holds any other byte, a
    blank for one, is rejected. *)
Theorem accepted_field_alphabet (caseTable : Z -> Z) raw st ep l :
  entityParams !! st = Some ep ->
  expand caseTable raw st = Some l ->
  forallb fieldByte (normalize caseTable ep raw) = true /\
  (forallb plainByte raw = true -> forallb fieldByte raw = true).
Proof.
  intros Hep H. rewrite (expand_stored caseTable raw st ep Hep) in H.
  destruct (collect caseTable ep raw) as [acc|e] eqn:Hc; [|discriminate].
  apply collect_fieldByte in Hc. split; [exact Hc|].
  intros Hp. rewrite (normalize_plain caseTable st ep raw Hep Hp) in Hc. exact Hc.
Qed.

Lemma accepted_field_alphabet_witness :
  entityParams !! scheduleMonth
  = Some (mkParam (1, 12)
                  (map str [""; "jan"; "feb"; "mar"; "apr"; "may"; "jun"; "jul";
                            "aug"; "sep"; "oct"; "nov"; "dec"]%string)) /\
  expand (fun r => r) (str "Mar-Jun/2,12") scheduleMonth = Some [3; 5; 12] /\
  normalize (fun r => r)
            (mkParam (1, 12)
                     (map str [""; "jan"; "feb"; "mar"; "apr"; "may"; "jun"; "jul";
                               "aug"; "sep"; "oct"; "nov"; "dec"]%string))
            (str "Mar-Jun/2,12") = str "3-6/2,12" /\
  forallb fieldByte (str "3-6/2,12") = true.
Proof.
  assert (Hep : entityParams !! scheduleMonth
                = Some (mkParam (1, 12)
                                (map str [""; "jan"; "feb"; "mar"; "apr"; "may"; "jun"; "jul";
                                          "aug"; "sep"; "oct"; "nov"; "dec"]%string)))
    by reflexivity.
  assert (H : expand (fun r => r) (str "Mar-Jun/2,12") scheduleMonth = Some [3; 5; 12])
    by (vm_compute; reflexivity).
  split; [exact Hep|]. split; [exact H|]. split; [reflexivity|].
  exact (proj1 (accepted_field_alphabet (fun r => r) _ _ _ _ Hep H)).
Defined.

(** X14.  Every alias of a kind, alone as a field, expands to its index
    in the list of aliases of the kind: [jan] to 1 and so on to [dec] to
    12 for the month, [sun] to 0 and so on to [sat] to 6 for the day of
    the week. *)
Theorem alias_alone_is_its_index (caseTable : Z -> Z) st ep i v :
  entityParams !! st = Some ep -> nth_error (Aliases ep) i = Some v -> v <> [] ->
  expand caseTable v st = Some [Z.of_nat i].
Proof.
  unfold entityParams. intros H Hv Hne.
  repeat (apply lookup_insert_Some in H as [[<- <-]|[? H]];
          [cbn [Aliases map] in Hv;
           do 14 (destruct i as [|i];
                  [cbn [nth_error] in Hv;
                   first [discriminate Hv
                         |injection Hv as <-; first [congruence|vm_compute; reflexivity]]|]);
           destruct i; discriminate Hv|]).
  apply lookup_singleton_Some in H as [<- <-]. cbn [Aliases map] in Hv.
  do 8 (destruct i as [|i];
        [cbn [nth_error] in Hv;
         first [discriminate Hv
               |injection Hv as <-; first [congruence|vm_compute; reflexivity]]|]).
  destruct i; discriminate Hv.
Qed.

Lemma alias_alone_is_its_index_witness :
  entityParams !! scheduleDayOfWeek
  = Some (mkParam (0, 7) (map str ["sun"; "mon"; "tue"; "wed"; "thu"; "fri"; "sat"]%string)) /\
  nth_error (map str ["sun"; "mon"; "tue"; "wed"; "thu"; "fri"; "sat"]%string) 0
  = Some (str "sun") /\
  expand (fun r => r) (str "sun") scheduleDayOfWeek = Some [0].
Proof.
  assert (Hep : entityParams !! scheduleDayOfWeek
                = Some (mkParam (0, 7) (map str ["sun"; "mon"; "tue"; "wed"; "thu"; "fri"; "sat"]%string)))
    by reflexivity.
  split; [exact Hep|]. split; [reflexivity|].
  exact (alias_alone_is_its_index (fun r => r) _ _ 0%nat (str "sun") Hep eq_refl
                                  ltac:(discriminate)).
Defined.

End FieldItems.

(** ** Job lines, field by field *)

Module JobLines.
Import Go Spec RegexpFacts Checron FieldsFacts JobFacts LineFacts EncodingFacts.



(** X16.  A line that, trimmed, has fewer than five fields followed by
    blanks, the empty line among them, and that does not start like a
    named schedule, is rejected with the error for an invalid field, and
    the schedule parser is not asked. *)
Theorem too_few_fields_rejected
        {Schedule : Type} (ParseSchedule : gostring -> option Schedule * option error)
        raw hasUser env l last :
  TrimSpace raw = unitsText l ++ last ->
  (length l < 5)%nat -> Forall fieldUnit l -> forallb notBlank last = true ->
  namedPrefix (TrimSpace raw) = false ->
  ParseJob ParseSchedule raw hasUser env
  = Returns (mkJob raw env [] [] None (Some (invalidField raw))).
Proof.
  intros Hs Hlen Hl Hlast Hnamed. apply ParseJob_no_match.
  rewrite Hs in *. apply scheduleReg_too_few; assumption.
Qed.

Lemma too_few_fields_rejected_witness :
  let l := [(str "0", str " "); (str "4", str " "); (str "*", str " ")] in
  TrimSpace (str "0 4 * backup") = unitsText l ++ str "backup" /\
  (length l < 5)%nat /\ Forall fieldUnit l /\
  ParseJob specParseSchedule (str "0 4 * backup") false ∅
  = Returns (mkJob (str "0 4 * backup") ∅ [] [] None
                   (Some (invalidField (str "0 4 * backup")))).
Proof.
  intros l.
  assert (Hs : TrimSpace (str "0 4 * backup") = unitsText l ++ str "backup")
    by (vm_compute; reflexivity).
  assert (Hlen : (length l < 5)%nat) by (simpl; lia).
  assert (Hl : Forall fieldUnit l) by (repeat constructor; discriminate).
  split; [exact Hs|]. split; [exact Hlen|]. split; [exact Hl|].
  exact (too_few_fields_rejected specParseSchedule _ false ∅ l (str "backup")
                                 Hs Hlen Hl eq_refl eq_refl).
Defined.

(** X17.  Without a user column, the command of a job that has no error
    is the end of the trimmed line: the line is the text the schedule
    parser accepted, then the command, which holds no newline; the user
    is empty. *)
Theorem command_is_rest_of_line
        {Schedule : Type} (ParseSchedule : gostring -> option Schedule * option error)
        raw env jo :
  ParseJob ParseSchedule raw false env = Returns jo -> err jo = None ->
  exists text,
    TrimSpace raw = text ++ command jo /\
    ParseSchedule (TrimSpace text) = (schedule jo, None) /\
    forallb notNewline (command jo) = true /\ user jo = [].
Proof.
  intros H Herr.
  destruct (FindStringSubmatch scheduleReg 2 (TrimSpace raw)) as [m|] eqn:Hm.
  - destruct (scheduleReg_groups _ _ Hm) as (m0 & m1 & m2 & ->).
    rewrite (ParseJob_match ParseSchedule raw false env m0 m1 m2 Hm) in H.
    apply scheduleReg_sound in Hm as (_ & Hs & Hnl).
    destruct (ParseSchedule (TrimSpace m1)) as [sc [e|]] eqn:HP;
      injection H as <-; [discriminate|].
    exists m1. cbn [command schedule user]. repeat split; assumption.
  - rewrite (ParseJob_no_match ParseSchedule raw false env Hm) in H.
    injection H as <-. discriminate.
Qed.

Lemma command_is_rest_of_line_witness :
  let jo := mkJob (str " @reboot /usr/bin/up ") ∅ [] (str " /usr/bin/up")
                  (Some (Named (str "@reboot"))) None in
  ParseJob specParseSchedule (str " @reboot /usr/bin/up ") false ∅ = Returns jo /\
  err jo = None /\
  exists text,
    TrimSpace (str " @reboot /usr/bin/up ") = text ++ command jo /\
    specParseSchedule (TrimSpace text) = (schedule jo, None).
Proof.
  intros jo.
  assert (H : ParseJob specParseSchedule (str " @reboot /usr/bin/up ") false ∅
              = Returns jo) by (vm_compute; reflexivity).
  split; [exact H|]. split; [reflexivity|].
  destruct (command_is_rest_of_line specParseSchedule _ ∅ jo H eq_refl)
    as (text & H1 & H2 & _).
  exists text. split; assumption.
Defined.

(** X18.  [ParseJob] returns, with a job, on every line when no user
    column is asked for, and with or without one on every line of ASCII
    bytes and on every well-encoded line: it panics on no line that is
    UTF-8. *)
Theorem ParseJob_returns_on_encoded_text
        {Schedule : Type} (ParseSchedule : gostring -> option Schedule * option error)
        raw hasUser env :
  hasUser = false \/ (forall c, In c raw -> byteval c < 0x80)
  \/ runesAll anyRune 0 raw = true ->
  exists jo, ParseJob ParseSchedule raw hasUser env = Returns jo.
Proof.
  intros [->|Hraw].
  - destruct (FindStringSubmatch scheduleReg 2 (TrimSpace raw)) as [m|] eqn:Hm.
    + destruct (scheduleReg_groups _ _ Hm) as (m0 & m1 & m2 & ->).
      rewrite (ParseJob_match ParseSchedule raw false env m0 m1 m2 Hm).
      destruct (ParseSchedule (TrimSpace m1)) as [sc [e|]]; eauto.
    + rewrite (ParseJob_no_match ParseSchedule raw false env Hm). eauto.
  - assert (Henc : runesAll anyRune 0 raw = true).
    { destruct Hraw as [Hascii|Henc]; [apply runesAll_ascii, Hascii|exact Henc]. }
    apply ParseJob_returns_on_text. intros m0 m1 m2 Hm.
    eapply scheduleReg_rest_encoded; eassumption.
Qed.

Lemma ParseJob_returns_on_encoded_text_witness :
  let raw := str " @daily  caf" ++ [byteof 0xC3; byteof 0xA9] ++ str " "
                 ++ [byteof 0xE2; byteof 0x80; byteof 0x83] ++ str "ls " in
  (true = false \/ (forall c, In c raw -> byteval c < 0x80)
   \/ runesAll anyRune 0 raw = true) /\
  exists jo, ParseJob specParseSchedule raw true ∅ = Returns jo.
Proof.
  intros raw.
  assert (H : true = false \/ (forall c, In c raw -> byteval c < 0x80)
              \/ runesAll anyRune 0 raw = true)
    by (right; right; vm_compute; reflexivity).
  split; [exact H|].
  exact (ParseJob_returns_on_encoded_text specParseSchedule raw true ∅ H).
Defined.

(** X19.  When [fieldsN] returns, it returns at most [n] fields, and at
    most one when [n] is below 1. *)
Theorem fieldsN_at_most_n s n flds :
  fieldsN s n = Returns flds -> Z.of_nat (length flds) <= Z.max 1 n.
Proof. apply fieldsN_count. Qed.

Lemma fieldsN_at_most_n_witness :
  fieldsN (str "a b c d") 0 = Returns [str "a b c d"] /\
  Z.of_nat (length [str "a b c d"]) <= Z.max 1 0.
Proof.
  assert (H : fieldsN (str "a b c d") 0 = Returns [str "a b c d"])
    by (vm_compute; reflexivity).
  split; [exact H|]. exact (fieldsN_at_most_n _ _ _ H).
Defined.







(** X23.  [fieldsN] returns on every well-encoded text, whatever [n],
    and then with at most [n] fields, or one when [n] is below 1. *)
Theorem fieldsN_returns_on_encoded_text s n :
  runesAll anyRune 0 s = true ->
  exists flds, fieldsN s n = Returns flds /\ Z.of_nat (length flds) <= Z.max 1 n.
Proof.
  intros H. apply TrimSpace_encoded in H.
  destruct (fieldsN_returns s n H) as [flds Hf].
  exists flds. split; [exact Hf|]. eapply fieldsN_count. exact Hf.
Qed.

Lemma fieldsN_returns_on_encoded_text_witness :
  let s := str "na" ++ [byteof 0xC3; byteof 0xAF] ++ str "ve "
               ++ [byteof 0xE2; byteof 0x80; byteof 0x83] ++ str " id" in
  runesAll anyRune 0 s = true /\
  exists flds, fieldsN s 2 = Returns flds /\ Z.of_nat (length flds) <= Z.max 1 2.
Proof.
  intros s.
  assert (H : runesAll anyRune 0 s = true) by (vm_compute; reflexivity).
  split; [exact H|]. exact (fieldsN_returns_on_encoded_text s 2 H).
Defined.

(** X24.  With a user column, a job without error has a user that is
    not empty, whatever the bytes of the line: [fieldsN] cuts a field
    only when its buffer holds something. *)
Theorem user_never_empty
        {Schedule : Type} (ParseSchedule : gostring -> option Schedule * option error)
        raw env jo :
  ParseJob ParseSchedule raw true env = Returns jo -> err jo = None ->
  user jo <> [].
Proof.
  intros H Herr.
  destruct (FindStringSubmatch scheduleReg 2 (TrimSpace raw)) as [m|] eqn:Hm.
  - destruct (scheduleReg_groups _ _ Hm) as (m0 & m1 & m2 & ->).
    rewrite (ParseJob_match ParseSchedule raw true env m0 m1 m2 Hm) in H.
    destruct (ParseSchedule (TrimSpace m1)) as [sc [e|]].
    { injection H as <-. discriminate. }
    destruct (fieldsN m2 2) as [flds|msg] eqn:Hf; [|discriminate].
    cbn [obind] in H.
    destruct flds as [|u [|c [|? ?]]]; cbn [length Nat.eqb negb] in H;
      injection H as <-; try discriminate.
    apply fieldsN_nonempty in Hf. cbn [removelast] in Hf.
    inversion Hf; subst. cbn [user index nth]. assumption.
  - rewrite (ParseJob_no_match ParseSchedule raw true env Hm) in H.
    injection H as <-. discriminate.
Qed.

Lemma user_never_empty_witness :
  let jo := mkJob (str "@reboot  www /bin/true") ∅ (str "www") (str "/bin/true")
                  (Some (Named (str "@reboot"))) None in
  ParseJob specParseSchedule (str "@reboot  www /bin/true") true ∅ = Returns jo /\
  err jo = None /\ user jo <> [].
Proof.
  intros jo.
  assert (H : ParseJob specParseSchedule (str "@reboot  www /bin/true") true ∅
              = Returns jo) by (vm_compute; reflexivity).
  split; [exact H|]. split; [reflexivity|].
  exact (user_never_empty specParseSchedule _ ∅ jo H eq_refl).
Defined.

(** X25.  With a user column, when the text after the schedule is,
    trimmed, one byte from 0x80 on, a space and more text, the byte is
    read as the replacement rune and moves the offset of [fieldsN] three
    bytes on where the text moves one: the call panics when fewer than
    two bytes follow the space, and otherwise returns, without error, a
    job whose user is the replacement rune and whose command is the text
    after the space without its first two bytes, trimmed. *)
Theorem stray_byte_user_shifts_command
        {Schedule : Type} (ParseSchedule : gostring -> option Schedule * option error)
        raw env m0 m1 m2 sc b sp rest :
  FindStringSubmatch scheduleReg 2 (TrimSpace raw) = Some [m0; m1; m2] ->
  ParseSchedule (TrimSpace m1) = (sc, None) ->
  TrimSpace m2 = b :: sp ++ rest ->
  0x80 <= byteval b -> spaceRune sp -> rest <> [] ->
  fieldsN m2 2
  = (if (length rest <? 2)%nat then Panics (str "slice bounds out of range")
     else Returns [EncodeRune RuneError; TrimSpace (skipn 2 rest)]) /\
  ParseJob ParseSchedule raw true env
  = (if (length rest <? 2)%nat then Panics (str "slice bounds out of range")
     else Returns (mkJob raw env (EncodeRune RuneError) (TrimSpace (skipn 2 rest))
                         sc None)).
Proof.
  intros Hm HP Hs Hb Hsp Hrest.
  pose proof (fieldsN_stray m2 b sp rest Hs Hb Hsp Hrest) as Hf.
  split; [exact Hf|].
  rewrite (ParseJob_match ParseSchedule raw true env m0 m1 m2 Hm), HP, Hf.
  destruct (length rest <? 2)%nat; reflexivity.
Qed.

Lemma stray_byte_user_shifts_command_witness :
  let raw := str "@daily " ++ [byteof 0xFF] ++ str " echo hi" in
  FindStringSubmatch scheduleReg 2 (TrimSpace raw)
  = Some [raw; str "@daily"; str " " ++ [byteof 0xFF] ++ str " echo hi"] /\
  specParseSchedule (TrimSpace (str "@daily")) = (Some (Named (str "@daily")), None) /\
  TrimSpace (str " " ++ [byteof 0xFF] ++ str " echo hi")
  = byteof 0xFF :: str " " ++ str "echo hi" /\
  ParseJob specParseSchedule raw true ∅
  = Returns (mkJob raw ∅ (EncodeRune RuneError) (str "ho hi")
                   (Some (Named (str "@daily"))) None).
Proof.
  intros raw.
  assert (Hm : FindStringSubmatch scheduleReg 2 (TrimSpace raw)
               = Some [raw; str "@daily"; str " " ++ [byteof 0xFF] ++ str " echo hi"])
    by (vm_compute; reflexivity).
  assert (HP : specParseSchedule (TrimSpace (str "@daily"))
               = (Some (Named (str "@daily")), None)) by (vm_compute; reflexivity).
  assert (Hs : TrimSpace (str " " ++ [byteof 0xFF] ++ str " echo hi")
               = byteof 0xFF :: str " " ++ str "echo hi") by (vm_compute; reflexivity).
  assert (Hb : 0x80 <= byteval (byteof 0xFF)) by (vm_compute; discriminate).
  assert (Hsp : spaceRune (str " "))
    by (split; [discriminate|exists 32; repeat split; reflexivity]).
  split; [exact Hm|]. split; [exact HP|]. split; [exact Hs|].
  exact (proj2 (stray_byte_user_shifts_command specParseSchedule raw ∅ _ _ _ _
                  (byteof 0xFF) (str " ") (str "echo hi") Hm HP Hs Hb Hsp
                  ltac:(discriminate))).
Defined.

End JobLines.
